(** * Certified row echelon forms and invariant subspaces over enclosures

    A shallow embedding of [reduction.py] (REF, orbit, generated_algebra) and of
    the control flow of [splitting.py], together with the properties stated for
    them.  The enclosure field of the source (Sage's [RealBallField] /
    [ComplexBallField]) is an interface here: a type of balls with its
    arithmetic, and a containment relation into a field of true values. *)

From Stdlib Require Import List Arith Lia Bool ZArith QArith Qabs Qcanon Lqa Field Sorted.
Import ListNotations.

Local Close Scope Qc_scope.
Local Close Scope Q_scope.
Local Open Scope nat_scope.

Set Implicit Arguments.

(* ================================================================== *)
(** ** Interfaces *)

(** The arithmetic used by the algorithms.  It is instantiated twice: at the
    type of balls (the program) and at the field of true values (the exact
    computation the balls enclose). *)
Class Arith (A : Type) := {
  zero : A;
  one : A;
  add : A -> A -> A;
  sub : A -> A -> A;
  mul : A -> A -> A;
  div : A -> A -> A
}.

(** What the source asks of [mat.base_ring()] besides arithmetic:
    [is_nonzero], [contains_zero] and [below_abs] (a lower bound of the
    absolute value, an exact number). *)
Class Ball (B : Type) := {
  ball_arith :: Arith B;
  is_nonzero : B -> bool;
  contains_zero : B -> bool;
  below_abs : B -> Q
}.

(** A Sage matrix knows its dimensions even when it has no row. *)
Record matrix (A : Type) := Mat {
  nrows : nat;
  ncols : nat;
  rows : list (list A)
}.

(** A Python dict of pivots, in insertion order: [(j, p[j])]. *)
Definition pivots := list (nat * nat).

Inductive exn := PrecisionError | IndexError | TypeError.

Inductive result (X : Type) :=
| Ok (x : X)
| Raise (e : exn).
Arguments Ok {X} x.
Arguments Raise {X} e.

(* ================================================================== *)
(** ** Lists as vectors and rows *)

(** [l[i] = x]; the loops of the source only write inside the range. *)
Fixpoint upd {X : Type} (i : nat) (x : X) (l : list X) : list X :=
  match l, i with
  | [], _ => []
  | _ :: t, 0 => x :: t
  | h :: t, S i' => h :: upd i' x t
  end.

Definition mem_key (j : nat) (p : pivots) : bool :=
  existsb (fun jr => Nat.eqb (fst jr) j) p.

(** An [m] by [n] list of rows. *)
Definition shape {X : Type} (m n : nat) (M : list (list X)) : Prop :=
  length M = m /\ Forall (fun row => length row = n) M.

Definition wf_matrix {X : Type} (M : matrix X) : Prop :=
  shape (nrows M) (ncols M) (rows M).

(** The pivot dictionaries REF builds: the [i]-th inserted key has row [i],
    keys are distinct columns, and there are at most [m] pivots. *)
Definition wf_pivots (m n : nat) (p : pivots) : Prop :=
  map snd p = seq 0 (length p) /\
  NoDup (map fst p) /\
  (forall j, In j (map fst p) -> j < n) /\
  length p <= m.

(** [p[j]] *)
Definition lookup (j : nat) (p : pivots) : option nat :=
  match find (fun jr => Nat.eqb (fst jr) j) p with
  | Some jr => Some (snd jr)
  | None => None
  end.

Section Generic.
Context {A : Type} `{Arith A}.

Definition entry (M : list (list A)) (i k : nat) : A :=
  nth k (nth i M []) zero.

(** Sum of products, accumulated from the ring's zero. *)
Definition dot (u v : list A) : A :=
  fold_left (fun acc ab => add acc (mul (fst ab) (snd ab))) (combine u v) zero.

Definition mulmv (T : list (list A)) (v : list A) : list A :=
  map (fun row => dot row v) T.

(** [vector(mat[:,j])] *)
Definition column (j : nat) (M : list (list A)) : list A :=
  map (fun row => nth j row zero) M.

(** [T * mat] for [mat] with [n] columns *)
Definition matmul (n : nat) (T M : list (list A)) : list (list A) :=
  map (fun row => map (fun j => dot row (column j M)) (seq 0 n)) T.

Definition identity (m : nat) : list (list A) :=
  map (fun i => map (fun k => if Nat.eqb i k then one else zero) (seq 0 m))
      (seq 0 m).

(** [T[l] = [T[l,k] - c*T[r,k] for k in range(m)]] *)
Definition row_sub (m : nat) (T : list (list A)) (l r : nat) (c : A) :=
  upd l (map (fun k => sub (entry T l k) (mul c (entry T r k))) (seq 0 m)) T.

(** [T[r] = [T[r,k]/c for k in range(m)]] *)
Definition row_div (m : nat) (T : list (list A)) (r : nat) (c : A) :=
  upd r (map (fun k => div (entry T r k) c) (seq 0 m)) T.

(** [x[i], x[r] = x[r], x[i]]: both right-hand sides are read first, then
    [x[i]] and [x[r]] are written in this order. *)
Definition swap {X : Type} (d : X) (l : list X) (i r : nat) : list X :=
  upd r (nth i l d) (upd i (nth r l d) l).

(** Lines 141-145 of REF once the pivot row [i] is chosen. *)
Definition pivot_step (m : nat) (T : list (list A)) (col : list A)
           (i r : nat) : list (list A) :=
  let T1 := swap [] T i r in
  let col1 := swap zero col i r in
  let T2 := row_div m T1 r (nth r col1 zero) in
  fold_left (fun T' l => row_sub m T' l r (nth l col1 zero))
            (seq (r + 1) (m - (r + 1))) T2.

(** Lines 128-131: one pivot [(j, p[j])] of [prec_pivots] replayed. *)
Definition replay_col (M : list (list A)) (m r : nat) (T : list (list A))
           (jr : nat * nat) : list (list A) :=
  let col := mulmv T (column (fst jr) M) in
  fold_left (fun T' i => row_sub m T' i (snd jr) (nth i col zero))
            (seq r (m - r)) T.

Definition set_entry (R : list (list A)) (i j : nat) (x : A) :=
  upd i (upd j x (nth i R [])) R.

(** Lines 149-150. *)
Definition set_pivot (m : nat) (R : list (list A)) (jr : nat * nat) :=
  fold_left (fun R' i => set_entry R' i (fst jr) zero)
            (seq (snd jr + 1) (m - (snd jr + 1)))
            (set_entry R (snd jr) (fst jr) one).

Definition remove_nth {X : Type} (j : nat) (l : list X) : list X :=
  firstn j l ++ skipn (S j) l.

(** [M.det()].  Sage returns [1] for the empty matrix and the entry itself for
    a 1 by 1 matrix; larger ones are expanded along the first row here. *)
Fixpoint det_rec (k : nat) (M : list (list A)) : A :=
  match k with
  | 0 => one
  | S k' =>
      match M with
      | [] => one
      | row :: rest =>
          match k' with
          | 0 => nth 0 row zero
          | _ =>
              fold_left
                (fun acc j =>
                   let t := mul (nth j row zero)
                                (det_rec k' (map (remove_nth j) rest)) in
                   if Nat.even j then add acc t else sub acc t)
                (seq 0 (S k')) zero
          end
      end
  end.

Definition det (M : list (list A)) : A := det_rec (length M) M.

(** Entrywise operations on [n] by [n] matrices, for the operators of [orbit]. *)
Definition mat_zero (n : nat) : list (list A) :=
  map (fun _ => map (fun _ => zero) (seq 0 n)) (seq 0 n).

Definition mat_scale (s : A) (M : list (list A)) : list (list A) :=
  map (map (mul s)) M.

Definition vec_add (u v : list A) : list A :=
  map (fun ab => add (fst ab) (snd ab)) (combine u v).

Definition mat_add (X Y : list (list A)) : list (list A) :=
  map (fun uv => vec_add (fst uv) (snd uv)) (combine X Y).

(** [sum(s[j]*Tj for j, Tj in enumerate(T))], Python's [sum] starting from 0,
    which Sage coerces to the zero matrix. *)
Definition mat_lincomb (n : nat) (s : list A) (Ts : list (list (list A)))
  : list (list A) :=
  fold_left (fun acc jT => mat_add acc (mat_scale (nth (fst jT) s zero) (snd jT)))
            (combine (seq 0 (length Ts)) Ts) (mat_zero n).

(** [matrix(n, v)]: the vector [v] cut into [n] rows of [n] entries. *)
Definition reshape (n : nat) (v : list A) : list (list A) :=
  map (fun i => firstn n (skipn (i * n) v)) (seq 0 n).

(** [M.list()] *)
Definition flatten (M : list (list A)) : list A := concat M.

End Generic.

(* ================================================================== *)
(** ** REF *)

Section REF.
Context {B : Type} `{Ball B}.

(** Python's [max(..., key=..., default=None)]: the first candidate whose key
    is not exceeded. *)
Definition argmax_first (key : nat -> Q) (cands : list nat) : option nat :=
  match cands with
  | [] => None
  | c :: cs =>
      Some (fold_left
              (fun best l => if Qle_bool (key l) (key best) then best else l)
              cs c)
  end.

(** Lines 137-138. *)
Definition find_pivot (r m : nat) (col : list B) : option nat :=
  argmax_first (fun l => below_abs (nth l col zero))
               (filter (fun l => is_nonzero (nth l col zero)) (seq r (m - r))).

(** Lines 135-145: the body of the loop over the columns. *)
Definition ref_col (M : list (list B)) (m : nat)
           (st : list (list B) * pivots) (j : nat) : list (list B) * pivots :=
  let (T, p) := st in
  if mem_key j p then st
  else
    let r := length p in
    let col := mulmv T (column j M) in
    match find_pivot r m col with
    | Some i => (pivot_step m T col i r, p ++ [(j, r)])
    | None => st
    end.

(** Lines 123-145: the transformation and the pivots. *)
Definition REF_state (mat : matrix B) (prec_pivots : pivots)
  : list (list B) * pivots :=
  let m := nrows mat in
  let T0 := identity m in
  let p := prec_pivots in
  let r := length p in
  let T1 := fold_left (replay_col (rows mat) m r) p T0 in
  fold_left (ref_col (rows mat) m) (seq 0 (ncols mat)) (T1, p).

(** Lines 147-150. *)
Definition REF_R (mat : matrix B) (T : list (list B)) (p : pivots) : matrix B :=
  Mat (nrows mat) (ncols mat)
      (fold_left (set_pivot (nrows mat)) p (matmul (ncols mat) T (rows mat))).

(** The indices of [prec_pivots] that REF uses as column and row indices.
    A key [j >= n] fails at [mat[:,j]] (line 129) and a value [p[j] >= m]
    at [R[p[j],j] = 1] (line 149) at the latest, both before line 152. *)
Definition valid_pivots (m n : nat) (p : pivots) : bool :=
  forallb (fun jr => Nat.ltb (fst jr) n && Nat.ltb (snd jr) m) p.

Record REF_out := RefOut {
  out_R : matrix B;
  out_T : option (matrix B);
  out_p : option pivots
}.

Definition REF (mat : matrix B) (transformation pivots_flag : bool)
           (prec_pivots : pivots) : result REF_out :=
  if negb (valid_pivots (nrows mat) (ncols mat) prec_pivots) then Raise IndexError
  else
    let (T, p) := REF_state mat prec_pivots in
    let R := REF_R mat T p in
    let po := if pivots_flag then Some p else None in
    if transformation then
      if contains_zero (det T) then Raise PrecisionError
      else Ok (RefOut R (Some (Mat (nrows mat) (nrows mat) T)) po)
    else Ok (RefOut R None po).

End REF.

(* ================================================================== *)
(** ** orbit and generated_algebra *)

Section Closure.
Context {B : Type} `{Ball B}.

(** The variables of the loop of [orbit]: the echelon basis [b], the operators
    [T] (when [transition] is set), the pivots [p], [r] and the range [new]. *)
Record orbit_state := OrbitState {
  ob : list (list B);
  oT : list (list (list B));
  op : pivots;
  orank : nat;
  onew : list nat
}.

Definition pivots_of (o : REF_out (B := B)) : pivots :=
  match out_p o with Some p => p | None => [] end.

Definition transformation_of (o : REF_out (B := B)) : list (list B) :=
  match out_T o with Some T => rows T | None => [] end.

(** [b.stack(matrix(l))]: [matrix([])] has no column, so stacking it under a
    matrix with [n <> 0] columns is refused by Sage. *)
Definition stack (n : nat) (b l : list (list B)) : result (list (list B)) :=
  match l with
  | [] => if Nat.eqb n 0 then Ok b else Raise TypeError
  | _ => Ok (b ++ l)
  end.

(** Lines 245-258: one round of the loop. *)
Definition orbit_body (Mats : list (matrix B)) (n : nat) (transition : bool)
           (st : orbit_state) : result orbit_state :=
  let b := ob st in
  let T := oT st in
  let r := orank st in
  let new := onew st in
  match stack n b (flat_map (fun mat => map (fun i => mulmv (rows mat) (nth i b [])) new) Mats) with
  | Raise e => Raise e
  | Ok b1 =>
      let T1 :=
        if transition
        then T ++ flat_map (fun mat => map (fun i => matmul n (rows mat) (nth i T [])) new) Mats
        else T in
      match REF (Mat (length b1) n b1) transition true (op st) with
      | Raise e => Raise e
      | Ok o =>
          let p' := pivots_of o in
          let S := transformation_of o in
          let new' := seq r (length p' - r) in
          let b' := firstn (length p') (rows (out_R o)) in
          let T' :=
            if transition
            then firstn r T1 ++ map (fun i => mat_lincomb n (nth i S []) T1) new'
            else T1 in
          Ok (OrbitState b' T' p' (length p') new')
      end
  end.

(** The [while] loop of line 243.  [None] stands for a loop cut by [fuel]. *)
Fixpoint orbit_loop (fuel : nat) (Mats : list (matrix B)) (n : nat)
         (transition : bool) (st : orbit_state) : option (result orbit_state) :=
  if negb (Nat.ltb 0 (length (onew st)) && Nat.ltb (orank st) n) then Some (Ok st)
  else
    match fuel with
    | 0 => None
    | S fuel' =>
        match orbit_body Mats n transition st with
        | Raise e => Some (Raise e)
        | Ok st' => orbit_loop fuel' Mats n transition st'
        end
    end.

(** [orbit(Mats, vec, transition=...)]: the basis, and the operators when
    [transition] is set.  Every round but the last adds a pivot, and there
    are at most [n] pivots: [n] rounds of fuel are enough. *)
Definition orbit (Mats : list (matrix B)) (vec : list B) (transition : bool)
  : option (result (list (list B) * option (list (list (list B))))) :=
  let n := length vec in
  match REF (Mat 1 n [vec]) true true [] with
  | Raise e => Some (Raise e)
  | Ok o =>
      let p := pivots_of o in
      let S := transformation_of o in
      let T := if transition then [mat_scale (entry S 0 0) (identity n)] else [] in
      if Nat.eqb (length p) 0
      then Some (Ok ([], if transition then Some [] else None))
      else
        match orbit_loop n Mats n transition
                         (OrbitState (rows (out_R o)) T p 1 [0]) with
        | None => None
        | Some (Raise e) => Some (Raise e)
        | Some (Ok st) => Some (Ok (ob st, if transition then Some (oT st) else None))
        end
  end.

(** The variables of the loop of [generated_algebra]. *)
Record algebra_state := AlgebraState {
  ab : list (list B);
  ap : pivots;
  arank : nat;
  anew : list nat
}.

(** Lines 319-324. *)
Definition algebra_body (n : nat) (st : algebra_state) : result algebra_state :=
  let b := ab st in
  let r := arank st in
  let prods :=
    flat_map (fun i => map (fun j =>
        flatten (matmul n (reshape n (nth i b [])) (reshape n (nth j b []))))
        (anew st)) (seq 0 r) in
  match stack (n * n) b prods with
  | Raise e => Raise e
  | Ok b1 =>
      match REF (Mat (length b1) (n * n) b1) false true (ap st) with
      | Raise e => Raise e
      | Ok o =>
          let p' := pivots_of o in
          Ok (AlgebraState (firstn (length p') (rows (out_R o))) p'
                           (length p') (seq r (length p' - r)))
      end
  end.

Fixpoint algebra_loop (fuel n : nat) (st : algebra_state)
  : option (result algebra_state) :=
  if negb (Nat.ltb 0 (length (anew st)) && Nat.ltb (arank st) (n * n)) then Some (Ok st)
  else
    match fuel with
    | 0 => None
    | S fuel' =>
        match algebra_body n st with
        | Raise e => Some (Raise e)
        | Ok st' => algebra_loop fuel' n st'
        end
    end.

(** [generated_algebra(Mats)]; [Mats[0]] fails on the empty list. *)
Definition generated_algebra_fuel (fuel : nat) (Mats : list (matrix B))
  : option (result (list (list B))) :=
  match Mats with
  | [] => Some (Raise IndexError)
  | mat :: _ =>
      let n := nrows mat in
      match REF (Mat (length Mats) (n * n) (map (fun M => flatten (rows M)) Mats))
                false true [] with
      | Raise e => Some (Raise e)
      | Ok o =>
          let p := pivots_of o in
          let r := length p in
          match algebra_loop fuel n
                  (AlgebraState (firstn r (rows (out_R o))) p r (seq 0 r)) with
          | None => None
          | Some (Raise e) => Some (Raise e)
          | Some (Ok st) => Some (Ok (ab st))
          end
      end
  end.

Definition generated_algebra (Mats : list (matrix B)) :=
  generated_algebra_fuel
    (match Mats with [] => 0 | mat :: _ => nrows mat * nrows mat end) Mats.

End Closure.

(* ================================================================== *)
(** ** True values, enclosures and linear algebra *)

(** The field of true values (the reals or the complex numbers in the source),
    with Leibniz equality. *)
Class Field (F : Type) := {
  field_arith :: Arith F;
  opp : F -> F;
  inv : F -> F;
  field_laws : field_theory zero one add mul sub opp div inv eq
}.

(** Conservative arithmetic: the result of an operation on balls contains the
    result of the operation on any true values the operands contain.  A
    division is only asked to be conservative when its divisor is certified
    nonzero.  The balls [0] and [1] written by the source are exact. *)
Class Enclosure (B F : Type) `{Ball B} `{Field F} := {
  contains : B -> F -> Prop;
  add_sound : forall a b x y,
    contains a x -> contains b y -> contains (add a b) (add x y);
  sub_sound : forall a b x y,
    contains a x -> contains b y -> contains (sub a b) (sub x y);
  mul_sound : forall a b x y,
    contains a x -> contains b y -> contains (mul a b) (mul x y);
  div_sound : forall a b x y,
    contains a x -> contains b y -> is_nonzero b = true ->
    contains (div a b) (div x y);
  is_nonzero_sound : forall b x,
    is_nonzero b = true -> contains b x -> x <> zero;
  contains_zero_spec : forall b,
    contains_zero b = true <-> contains b zero;
  zero_exact : forall x, contains zero x <-> x = zero;
  one_exact : forall x, contains one x <-> x = one
}.

Section Containment.
Context {B F : Type} `{Enclosure B F}.

Definition contains_vec : list B -> list F -> Prop := Forall2 contains.

Definition contains_rows : list (list B) -> list (list F) -> Prop :=
  Forall2 contains_vec.

(** [Mx] is a true matrix contained in the matrix of balls [M]. *)
Definition contains_mat (M : matrix B) (Mx : matrix F) : Prop :=
  nrows M = nrows Mx /\ ncols M = ncols Mx /\ contains_rows (rows M) (rows Mx).

End Containment.

(** The statements that the code does not satisfy as they are worded. *)
Section Statements.
Context {B F : Type} `{Enclosure B F}.

(** A ball certified to be zero: zero is the only value it can stand for. *)
Definition certified_zero (b : B) : Prop :=
  forall x, contains b x -> x = zero.

(** "Every row of R beyond the first len(p) rows is a certified zero row." *)
Definition zero_rows_beyond_pivots (mat : matrix B) : Prop :=
  forall o p, REF mat false true [] = Ok o -> out_p o = Some p ->
  forall i j, length p <= i < nrows mat -> j < ncols mat ->
              certified_zero (entry (rows (out_R o)) i j).

(** "Calling REF(R, pivots=True, prec_pivots=p) returns exactly (R, p) again." *)
Definition REF_idempotent (mat : matrix B) : Prop :=
  forall o p, REF mat false true [] = Ok o -> out_p o = Some p ->
              REF (out_R o) false true p = Ok o.

End Statements.

(** The echelon bases that [orbit] and [generated_algebra] build: a list of
    vectors of size [n], one pivot per vector, with the exact ball 1 at each
    pivot and the exact ball 0 below it. *)
Definition written_pivots {B : Type} `{Ball B} (b : list (list B)) (p : pivots)
  : Prop :=
  forall j pj, In (j, pj) p ->
    entry b pj j = one /\ forall i, pj < i -> i < length b -> entry b i j = zero.

Definition echelon_basis {B : Type} `{Ball B} (n : nat) (b : list (list B))
  : Prop :=
  Forall (fun v => length v = n) b /\
  exists p, wf_pivots (length b) n p /\ length p = length b /\ written_pivots b p.

Section LinearAlgebra.
Context {F : Type} `{Arith F}.

Definition vec_zero (n : nat) : list F := repeat zero n.

Definition vec_scale (c : F) (v : list F) : list F := map (mul c) v.

(** [cs[0]*vs[0] + cs[1]*vs[1] + ...] for vectors of size [n] *)
Definition lincomb (n : nat) (cs : list F) (vs : list (list F)) : list F :=
  fold_left (fun acc cv => vec_add acc (vec_scale (fst cv) (snd cv)))
            (combine cs vs) (vec_zero n).

Definition in_span (n : nat) (vs : list (list F)) (v : list F) : Prop :=
  exists cs, length cs = length vs /\ v = lincomb n cs vs.

Definition lin_indep (n : nat) (vs : list (list F)) : Prop :=
  forall cs, length cs = length vs -> lincomb n cs vs = vec_zero n ->
             Forall (fun c => c = zero) cs.

(** [k] is the rank of [M]: the row space of [M] has [k] linearly independent
    vectors and no more. *)
Definition is_rank (M : matrix F) (k : nat) : Prop :=
  (exists vs, length vs = k /\ Forall (in_span (ncols M) (rows M)) vs /\
              lin_indep (ncols M) vs) /\
  (forall vs, Forall (in_span (ncols M) (rows M)) vs ->
              lin_indep (ncols M) vs -> length vs <= k).

(** The product of two matrices. *)
Definition mat_mul (X Y : matrix F) : matrix F :=
  Mat (nrows X) (ncols Y) (matmul (ncols Y) (rows X) (rows Y)).

(** A square matrix with a two-sided inverse. *)
Definition invertible (M : matrix F) : Prop :=
  nrows M = ncols M /\
  exists U, shape (nrows M) (nrows M) U /\
            matmul (nrows M) U (rows M) = identity (nrows M) /\
            matmul (nrows M) (rows M) U = identity (nrows M).

(** The [n] by [n] matrices that are polynomials in the matrices [Ms]. *)
Inductive polynomial_in (n : nat) (Ms : list (list (list F)))
  : list (list F) -> Prop :=
| poly_zero : polynomial_in n Ms (mat_zero n)
| poly_scalar (s : F) : polynomial_in n Ms (mat_scale s (identity n))
| poly_gen (M : list (list F)) : In M Ms -> polynomial_in n Ms M
| poly_add (X Y : list (list F)) :
    polynomial_in n Ms X -> polynomial_in n Ms Y ->
    polynomial_in n Ms (mat_add X Y)
| poly_scale (s : F) (X : list (list F)) :
    polynomial_in n Ms X -> polynomial_in n Ms (mat_scale s X)
| poly_mul (X Y : list (list F)) :
    polynomial_in n Ms X -> polynomial_in n Ms Y ->
    polynomial_in n Ms (matmul n X Y).

End LinearAlgebra.

(** Ball arithmetic whose operations with the exact balls [0] and [1] lose
    nothing. *)
Class ExactUnits (B : Type) `{Ball B} : Prop := {
  add_zero_l : forall x : B, add zero x = x;
  add_zero_r : forall x : B, add x zero = x;
  mul_zero_l : forall x : B, mul zero x = zero;
  mul_one_l : forall x : B, mul one x = x;
  sub_zero_r : forall x : B, sub x zero = x
}.

(* ================================================================== *)
(** ** True values: the rationals *)

#[export] Instance Qc_arith : Arith Qc :=
  {| zero := Q2Qc 0; one := Q2Qc 1;
     add := Qcplus; sub := Qcminus; mul := Qcmult; div := Qcdiv |}.

#[export] Instance Qc_field : Field Qc :=
  {| field_arith := Qc_arith; opp := Qcopp; inv := Qcinv; field_laws := Qcft |}.

(** Balls of radius zero: every ball is a rational number. *)
Module Exact.

#[export] Instance exact_ball : Ball Qc :=
  {| ball_arith := Qc_arith;
     is_nonzero := fun b => negb (Qeq_bool (this b) 0);
     contains_zero := fun b => Qeq_bool (this b) 0;
     below_abs := fun b => Qabs (this b) |}.

Definition q (a : Z) (b : positive) : Qc := Q2Qc (a # b).

(** A matrix of rank 2. *)
Definition sample : matrix Qc :=
  Mat 3 3 [[q 1 1; q 2 1; q 3 1]; [q 2 1; q 4 1; q 6 1]; [q 1 1; q 0 1; q 1 1]].

End Exact.

(* ================================================================== *)
(** ** An enclosure arithmetic: midpoint-radius balls over the rationals *)

Module MidRad.

Record mball := MB { mid : Q; rad : Q }.

Definition mk (m r : Q) : mball := MB (Qred m) (Qred r).

Definition madd (a b : mball) := mk (mid a + mid b) (rad a + rad b).
Definition msub (a b : mball) := mk (mid a - mid b) (rad a + rad b).
Definition mmul (a b : mball) :=
  mk (mid a * mid b)
     (Qabs (mid a) * rad b + Qabs (mid b) * rad a + rad a * rad b).
Definition minv (b : mball) :=
  let d := (mid b * mid b - rad b * rad b)%Q in
  mk (mid b / d) (rad b / d).
Definition mdiv (a b : mball) := mmul a (minv b).

Definition Qlt_bool (x y : Q) : bool := negb (Qle_bool y x).

#[export] Instance mball_arith : Arith mball :=
  {| zero := MB 0 0; one := MB 1 0;
     add := madd; sub := msub; mul := mmul; div := mdiv |}.

#[export] Instance mball_ball : Ball mball :=
  {| ball_arith := mball_arith;
     is_nonzero := fun b => Qlt_bool (rad b) (Qabs (mid b));
     contains_zero := fun b => Qle_bool (Qabs (mid b)) (rad b);
     below_abs := fun b => (Qabs (mid b) - rad b)%Q |}.

Definition point (q : Q) : mball := MB q 0.

(** The true values of a ball: those at distance at most [rad] of [mid]. *)
Definition mcontains (b : mball) (x : Qc) : Prop :=
  (Qabs (this x - mid b) <= rad b)%Q.

(** The ball of centre 0 and radius 1. *)
Definition unit_ball : mball := MB 0 1.

(** A matrix whose second column is not certified at the time it is scanned. *)
Definition late : matrix mball :=
  Mat 3 3 [[point 1; unit_ball; point 0];
           [point 1; point 0; point 1];
           [point 1; point (1 # 2); point 1]].

(** A true matrix that [late] contains. *)
Definition late_true : matrix Qc :=
  Mat 3 3 [[Q2Qc 1; Q2Qc (1 # 2); Q2Qc 0];
           [Q2Qc 1; Q2Qc 0; Q2Qc 1];
           [Q2Qc 1; Q2Qc (1 # 2); Q2Qc 1]].

(** A 1 by 1 matrix whose entry may be zero. *)
Definition vague : matrix mball := Mat 1 1 [[unit_ball]].

End MidRad.

(* ================================================================== *)
(** ** Sums and matrices as functions, for the proofs *)

Section Sums.
Context {F : Type} `{Arith F}.

(** [f 0 + f 1 + ... + f (n-1)], in the order [dot] accumulates. *)
Fixpoint sumn (f : nat -> F) (n : nat) : F :=
  match n with
  | 0 => zero
  | S k => add (sumn f k) (f k)
  end.

Definition delta (a b : nat) : F := if Nat.eqb a b then one else zero.

(** The entry [(i, j)] of the product of [T] ([m] columns) and [M]. *)
Definition prod_entry (m : nat) (T M : list (list F)) (i j : nat) : F :=
  sumn (fun k => mul (entry T i k) (entry M k j)) m.

Definition fmat := nat -> nat -> F.

Definition fmul (m : nat) (X Y : fmat) : fmat :=
  fun a b => sumn (fun k => mul (X a k) (Y k b)) m.

Definition feq (m : nat) (X Y : fmat) : Prop :=
  forall a b, a < m -> b < m -> X a b = Y a b.

Definition finvertible (m : nat) (X : fmat) : Prop :=
  exists U : fmat, feq m (fmul m U X) delta /\ feq m (fmul m X U) delta.

(** The row operations of REF on matrices seen as functions. *)
Definition f_sub (l r : nat) (c : F) (X : fmat) : fmat :=
  fun a k => if Nat.eqb a l then sub (X l k) (mul c (X r k)) else X a k.

Definition f_div (r : nat) (c : F) (X : fmat) : fmat :=
  fun a k => if Nat.eqb a r then div (X r k) c else X a k.

Definition f_scale (r : nat) (c : F) (X : fmat) : fmat :=
  fun a k => if Nat.eqb a r then mul c (X r k) else X a k.

Definition of_rows (T : list (list F)) : fmat := fun a k => entry T a k.

Definition transpose_index (i r a : nat) : nat :=
  if Nat.eqb a r then i else if Nat.eqb a i then r else a.

Definition f_swap (i r : nat) (X : fmat) : fmat :=
  fun a k => X (transpose_index i r a) k.

End Sums.

Section Shadow.
Context {B F : Type} `{Enclosure B F}.

(** Entrywise containment of an [m] by [n] matrix of balls. *)
Definition encloses (m n : nat) (T : list (list B)) (Tx : list (list F)) : Prop :=
  shape m n T /\ shape m n Tx /\
  forall a k, a < m -> k < n -> contains (entry T a k) (entry Tx a k).

(** The true matrix [X] has the pivots [p]: a 1 at each pivot and zeros below
    it, down to row [m]. *)
Definition has_pivots (m : nat) (X : @fmat F) (p : pivots) : Prop :=
  forall j pj, In (j, pj) p ->
    X pj j = one /\ forall i, pj < i -> i < m -> X i j = zero.

(** The first [r0] rows of [T] are rows of the identity. *)
Definition keeps_rows (m r0 : nat) (T : list (list F)) : Prop :=
  forall a k, a < r0 -> k < m -> entry T a k = delta a k.

End Shadow.

(* ================================================================== *)
(** ** linear_combination (splitting.py) *)

(** What a call does: it returns, or raises KeyError, or raises one of the
    exceptions of [exn]. *)
Inductive outcome (X : Type) :=
| Returns (x : X)
| KeyError
| Raises (e : exn).
Arguments Returns {X} x.
Arguments KeyError {X}.
Arguments Raises {X} e.

Section LinearCombination.
Context {A : Type} `{Arith A}.

(** [{value: key for key, value in p.items()}]: read with [lookup], the pair
    inserted last for a value is the one found. *)
Definition inverted (p : pivots) : pivots :=
  rev (map (fun jr => (snd jr, fst jr)) p).

Definition vec_sub (u v : list A) : list A :=
  map (fun ab => sub (fst ab) (snd ab)) (combine u v).

(** Lines 143-145, on the variables [vec] and [lc]: [p[i]] may be missing,
    [vec[p[i]]] and [lc[p[i]]] may be out of range, and Sage refuses to
    subtract vectors of different sizes. *)
Definition lc_step (Vecs : list (list A)) (q : pivots)
           (st : outcome (list A * list A)) (i : nat)
  : outcome (list A * list A) :=
  match st with
  | Returns (vec, lc) =>
      match lookup i q with
      | None => KeyError
      | Some c =>
          if negb (c <? length vec) then Raises IndexError
          else if negb (length (nth i Vecs []) =? length vec) then Raises TypeError
          else if negb (c <? length lc) then Raises IndexError
          else
            let x := nth c vec zero in
            Returns (vec_sub vec (map (mul x) (nth i Vecs [])), upd c x lc)
      end
  | KeyError => KeyError
  | Raises e => Raises e
  end.

(** [linear_combination(vec, Vecs, p)]; the integers [0] of [[0]*n] are
    written as the ring's zero. *)
Definition linear_combination (vec : list A) (Vecs : list (list A))
           (p : pivots) : outcome (list A) :=
  let n := length Vecs in
  match fold_left (lc_step Vecs (inverted p)) (rev (seq 0 n))
                  (Returns (vec, repeat zero n)) with
  | Returns (_, lc) => Returns lc
  | KeyError => KeyError
  | Raises e => Raises e
  end.

End LinearCombination.

(* ================================================================== *)
(** ** clean_pol (polynomials.py) *)

Section CleanPol.
Context {B : Type} `{Ball B}.

(** Line 5, on the list read from its end: [l[-1]] is the head of [rev l]
    and [l.pop()] removes it. *)
Fixpoint pop_zeros (r : list B) : list B :=
  match r with
  | [] => []
  | c :: r' => if contains_zero c then pop_zeros r' else r
  end.

Definition clean_list (l : list B) : list B := rev (pop_zeros (rev l)).

(** The polynomials of Sage are kept abstract: [coefficients] stands for
    [pol.coefficients()] and [of_list f] for the constructor [f.parent()]. *)
Variable pol : Type.
Variable coefficients : pol -> list B.
Variable of_list : pol -> list B -> pol.

Definition clean_pol (f : pol) : pol :=
  of_list f (clean_list (coefficients f)).

End CleanPol.

(* ================================================================== *)
(** * Properties *)

(* ================================================================== *)
(** ** Facts on list updates and shapes *)

Section ListFacts.
Context {X : Type}.

Lemma upd_length (i : nat) (x : X) (l : list X) : length (upd i x l) = length l.
Proof.
  revert i; induction l as [|h t IH]; intros [|i]; simpl; auto.
Qed.

Lemma nth_upd_eq (i : nat) (x d : X) (l : list X) :
  i < length l -> nth i (upd i x l) d = x.
Proof.
  revert i; induction l as [|h t IH]; intros [|i] Hi; simpl in *; try lia; auto.
  apply IH; lia.
Qed.

Lemma nth_upd_ne (i k : nat) (x d : X) (l : list X) :
  i <> k -> nth k (upd i x l) d = nth k l d.
Proof.
  revert i k; induction l as [|h t IH]; intros [|i] [|k] Hik; simpl; auto;
    try lia; try (apply IH; lia).
Qed.

Lemma upd_out (i : nat) (x : X) (l : list X) : length l <= i -> upd i x l = l.
Proof.
  revert i; induction l as [|h t IH]; intros [|i] Hi; simpl in *; auto; try lia.
  f_equal; apply IH; lia.
Qed.

Lemma Forall_upd (P : X -> Prop) (i : nat) (x : X) (l : list X) :
  Forall P l -> P x -> Forall P (upd i x l).
Proof.
  intros Hl Hx; revert i; induction Hl; intros [|i]; simpl; auto.
Qed.

Lemma Forall_nth_default (P : X -> Prop) (l : list X) (d : X) (i : nat) :
  Forall P l -> P d -> P (nth i l d).
Proof.
  intros Hl Hd; revert i; induction Hl; intros [|i]; simpl; auto.
Qed.

End ListFacts.

Lemma shape_row {X : Type} (m n : nat) (M : list (list X)) (i : nat) :
  shape m n M -> i < m -> length (nth i M []) = n.
Proof.
  intros [Hm Hn] Hi. rewrite Forall_forall in Hn. apply Hn, nth_In. lia.
Qed.

Lemma shape_upd {X : Type} (m n : nat) (M : list (list X)) (i : nat) (row : list X) :
  shape m n M -> length row = n -> shape m n (upd i row M).
Proof.
  intros [Hm Hn] Hr; split.
  - now rewrite upd_length.
  - now apply Forall_upd.
Qed.

Lemma map_seq_length {X : Type} (f : nat -> X) (a n : nat) :
  length (map f (seq a n)) = n.
Proof. now rewrite length_map, length_seq. Qed.

Lemma nth_map_seq {X : Type} (f : nat -> X) (n k : nat) (d : X) :
  k < n -> nth k (map f (seq 0 n)) d = f k.
Proof.
  intros Hk. rewrite (nth_indep _ d (f 0)) by now rewrite map_seq_length.
  rewrite (map_nth f (seq 0 n) 0 k), seq_nth; auto.
Qed.

Section GenericFacts.
Context {A : Type} `{Arith A}.

Lemma shape_identity (m : nat) : shape m m (identity m).
Proof.
  split; unfold identity.
  - apply map_seq_length.
  - apply Forall_forall; intros row Hr. apply in_map_iff in Hr as (i & <- & _).
    apply map_seq_length.
Qed.

Lemma shape_row_sub (m : nat) (T : list (list A)) (l r : nat) (c : A) :
  shape m m T -> shape m m (row_sub m T l r c).
Proof. intros HT; apply shape_upd; auto. apply map_seq_length. Qed.

Lemma shape_row_div (m : nat) (T : list (list A)) (r : nat) (c : A) :
  shape m m T -> shape m m (row_div m T r c).
Proof. intros HT; apply shape_upd; auto. apply map_seq_length. Qed.

Lemma shape_swap (m n : nat) (T : list (list A)) (i r : nat) :
  shape m n T -> i < m -> r < m -> shape m n (swap [] T i r).
Proof.
  intros HT Hi Hr; unfold swap.
  apply shape_upd; [apply shape_upd; auto|]; now apply shape_row with (m := m).
Qed.

Lemma shape_fold_row_sub (m r : nat) (c : nat -> A) (ls : list nat) (T : list (list A)) :
  shape m m T ->
  shape m m (fold_left (fun T' l => row_sub m T' l r (c l)) ls T).
Proof.
  revert T; induction ls as [|l ls IH]; intros T HT; simpl; auto.
  apply IH, shape_row_sub, HT.
Qed.

Lemma shape_pivot_step (m : nat) (T : list (list A)) (col : list A) (i r : nat) :
  shape m m T -> i < m -> r < m -> shape m m (pivot_step m T col i r).
Proof.
  intros HT Hi Hr; unfold pivot_step.
  apply (shape_fold_row_sub r (fun l => nth l (swap zero col i r) zero)).
  apply shape_row_div, shape_swap; auto.
Qed.

Lemma shape_replay_col (M : list (list A)) (m r : nat) (T : list (list A)) (jr : nat * nat) :
  shape m m T -> shape m m (replay_col M m r T jr).
Proof.
  intros HT; unfold replay_col.
  apply (shape_fold_row_sub (snd jr)
           (fun i => nth i (mulmv T (column (fst jr) M)) zero)), HT.
Qed.

Lemma shape_matmul (n : nat) (T M : list (list A)) :
  shape (length T) n (matmul n T M).
Proof.
  split; unfold matmul.
  - now rewrite length_map.
  - apply Forall_forall; intros row Hr. apply in_map_iff in Hr as (t & <- & _).
    apply map_seq_length.
Qed.

Lemma entry_upd_eq (M : list (list A)) (i k : nat) (row : list A) :
  i < length M -> entry (upd i row M) i k = nth k row zero.
Proof. intros Hi; unfold entry; now rewrite nth_upd_eq. Qed.

Lemma entry_upd_ne (M : list (list A)) (i a k : nat) (row : list A) :
  i <> a -> entry (upd i row M) a k = entry M a k.
Proof. intros Hi; unfold entry; now rewrite nth_upd_ne. Qed.

End GenericFacts.


Lemma nth_map_lt {X Y : Type} (f : X -> Y) (l : list X) (i : nat) (d : X) (e : Y) :
  i < length l -> nth i (map f l) e = f (nth i l d).
Proof.
  intros Hi. rewrite (nth_indep _ e (f d)) by now rewrite length_map.
  apply map_nth.
Qed.

Lemma snoc_inv {X : Type} (l : list X) (m : nat) :
  length l = S m -> exists l' x, l = l' ++ [x] /\ length l' = m.
Proof.
  intros Hl. destruct (exists_last (l := l)) as (l' & x & ->).
  - intros ->; discriminate.
  - exists l', x; split; auto. rewrite length_app in Hl; simpl in Hl; lia.
Qed.

Lemma combine_snoc {X Y : Type} (u : list X) (v : list Y) (a : X) (b : Y) :
  length u = length v -> combine (u ++ [a]) (v ++ [b]) = combine u v ++ [(a, b)].
Proof.
  revert v; induction u as [|x u IH]; intros [|y v] Huv; simpl in *;
    try discriminate; auto.
  f_equal; apply IH; lia.
Qed.

Section SumFacts.
Context {F : Type} `{Arith F}.

Lemma sumn_ext (f g : nat -> F) (n : nat) :
  (forall k, k < n -> f k = g k) -> sumn f n = sumn g n.
Proof.
  induction n as [|n IH]; intros Hfg; simpl; auto.
  rewrite IH, Hfg; auto.
Qed.

Lemma dot_snoc (u v : list F) (a b : F) :
  length u = length v ->
  dot (u ++ [a]) (v ++ [b]) = add (dot u v) (mul a b).
Proof.
  intros Huv; unfold dot.
  rewrite combine_snoc by assumption. now rewrite fold_left_app.
Qed.

Lemma dot_sumn (m : nat) (u v : list F) :
  length u = m -> length v = m ->
  dot u v = sumn (fun k => mul (nth k u zero) (nth k v zero)) m.
Proof.
  revert u v; induction m as [|m IH]; intros u v Hu Hv.
  - destruct u; [reflexivity | discriminate].
  - destruct (@snoc_inv _ u m Hu) as (u' & a & -> & Hu').
    destruct (@snoc_inv _ v m Hv) as (v' & b & -> & Hv').
    rewrite dot_snoc by congruence. simpl.
    rewrite (IH u' v') by assumption.
    f_equal.
    + apply sumn_ext; intros k Hk. now rewrite !app_nth1 by lia.
    + rewrite !app_nth2 by lia. rewrite Hu', Hv', Nat.sub_diag. reflexivity.
Qed.

Lemma nth_column (M : list (list F)) (j k : nat) :
  nth k (column j M) zero = entry M k j.
Proof.
  unfold column, entry.
  destruct (Nat.lt_ge_cases k (length M)) as [Hk|Hk].
  - now rewrite nth_map_lt with (d := []).
  - rewrite (nth_overflow (map _ M)) by now rewrite length_map.
    rewrite (nth_overflow M) by assumption. destruct j; reflexivity.
Qed.

Lemma column_length (M : list (list F)) (j : nat) :
  length (column j M) = length M.
Proof. apply length_map. Qed.

Lemma nth_mulmv (m : nat) (T : list (list F)) (v : list F) (a : nat) :
  a < length T -> length (nth a T []) = m -> length v = m ->
  nth a (mulmv T v) zero = sumn (fun k => mul (entry T a k) (nth k v zero)) m.
Proof.
  intros Ha Hrow Hv. unfold mulmv.
  rewrite nth_map_lt with (d := []) by assumption.
  now apply dot_sumn.
Qed.

Lemma entry_matmul (m n : nat) (T M : list (list F)) (a b : nat) :
  a < length T -> length (nth a T []) = m -> length M = m -> b < n ->
  entry (matmul n T M) a b = prod_entry m T M a b.
Proof.
  intros Ha Hrow HM Hb. unfold entry at 1, matmul.
  rewrite nth_map_lt with (d := []) by assumption.
  rewrite nth_map_seq by assumption.
  rewrite (dot_sumn (m := m)); auto.
  - apply sumn_ext; intros k Hk. now rewrite nth_column.
  - now rewrite column_length.
Qed.

End SumFacts.

Lemma nth_swap {X : Type} (d : X) (l : list X) (i r a : nat) :
  i < length l -> r < length l ->
  nth a (swap d l i r) d = nth (transpose_index i r a) l d.
Proof.
  intros Hi Hr; unfold swap, transpose_index.
  destruct (Nat.eqb_spec a r) as [->|Har].
  - rewrite nth_upd_eq; auto. now rewrite upd_length.
  - rewrite nth_upd_ne by congruence.
    destruct (Nat.eqb_spec a i) as [->|Hai].
    + now rewrite nth_upd_eq.
    + now rewrite nth_upd_ne by congruence.
Qed.

Lemma transpose_index_lt (i r a m : nat) :
  i < m -> r < m -> a < m -> transpose_index i r a < m.
Proof.
  intros; unfold transpose_index.
  destruct (Nat.eqb a r); auto. destruct (Nat.eqb a i); auto.
Qed.

Lemma transpose_index_ge (i r a : nat) :
  r <= i -> r <= a -> r <= transpose_index i r a.
Proof.
  intros; unfold transpose_index.
  destruct (Nat.eqb a r); auto. destruct (Nat.eqb a i); auto.
Qed.

Lemma transpose_index_invol (i r a : nat) :
  transpose_index i r (transpose_index i r a) = a.
Proof.
  unfold transpose_index.
  destruct (Nat.eqb_spec a r) as [->|Har].
  - destruct (Nat.eqb_spec i r) as [->|Hir]; auto. now rewrite Nat.eqb_refl.
  - destruct (Nat.eqb_spec a i) as [->|Hai].
    + now rewrite Nat.eqb_refl.
    + destruct (Nat.eqb_spec a r); [congruence|].
      destruct (Nat.eqb_spec a i); congruence.
Qed.

Section EntryFacts.
Context {A : Type} `{Arith A}.

Lemma entry_row_sub (m : nat) (T : list (list A)) (l r : nat) (c : A) (a k : nat) :
  l < length T -> k < m ->
  entry (row_sub m T l r c) a k =
  if Nat.eqb a l then sub (entry T l k) (mul c (entry T r k)) else entry T a k.
Proof.
  intros Hl Hk; unfold row_sub.
  destruct (Nat.eqb_spec a l) as [->|Hal].
  - rewrite entry_upd_eq by assumption. now rewrite nth_map_seq.
  - now rewrite entry_upd_ne by congruence.
Qed.

Lemma entry_row_div (m : nat) (T : list (list A)) (r : nat) (c : A) (a k : nat) :
  r < length T -> k < m ->
  entry (row_div m T r c) a k =
  if Nat.eqb a r then div (entry T r k) c else entry T a k.
Proof.
  intros Hr Hk; unfold row_div.
  destruct (Nat.eqb_spec a r) as [->|Har].
  - rewrite entry_upd_eq by assumption. now rewrite nth_map_seq.
  - now rewrite entry_upd_ne by congruence.
Qed.

Lemma entry_swap (T : list (list A)) (i r a k : nat) :
  i < length T -> r < length T ->
  entry (swap [] T i r) a k = entry T (transpose_index i r a) k.
Proof. intros Hi Hr; unfold entry. now rewrite nth_swap. Qed.

Lemma entry_fold_row_sub (m r : nat) (c : nat -> A) (ls : list nat)
      (T : list (list A)) (a k : nat) :
  length T = m -> NoDup ls -> ~ In r ls -> (forall l, In l ls -> l < m) -> k < m ->
  entry (fold_left (fun T' l => row_sub m T' l r (c l)) ls T) a k =
  if existsb (Nat.eqb a) ls
  then sub (entry T a k) (mul (c a) (entry T r k))
  else entry T a k.
Proof.
  revert T; induction ls as [|l ls IH]; intros T HT Hnd Hr Hlt Hk; simpl; auto.
  apply NoDup_cons_iff in Hnd as [Hl Hnd'].
  assert (Hrl : r <> l) by (intros ->; apply Hr; now left).
  rewrite IH; auto.
  - rewrite !entry_row_sub by (auto; rewrite HT; apply Hlt; now left).
    destruct (Nat.eqb_spec r l) as [?|_]; [congruence|].
    destruct (Nat.eqb_spec a l) as [->|Hal]; simpl; auto.
    destruct (existsb (Nat.eqb l) ls) eqn:E; auto.
    exfalso; apply Hl. apply existsb_exists in E as (x & Hx & Ex).
    apply Nat.eqb_eq in Ex; now subst.
  - unfold row_sub; now rewrite upd_length.
  - intros Hin; apply Hr; now right.
  - intros x Hx; apply Hlt; now right.
Qed.

Lemma existsb_seq (a r n : nat) :
  existsb (Nat.eqb a) (seq r n) = (r <=? a) && (a <? r + n).
Proof.
  destruct (existsb (Nat.eqb a) (seq r n)) eqn:E.
  - apply existsb_exists in E as (x & Hx & Ex). apply Nat.eqb_eq in Ex; subst x.
    apply in_seq in Hx. symmetry; apply andb_true_iff; split.
    + apply Nat.leb_le; lia.
    + apply Nat.ltb_lt; lia.
  - symmetry; apply andb_false_iff.
    destruct (Nat.leb_spec r a); auto. right.
    destruct (Nat.ltb_spec a (r + n)); auto.
    exfalso. assert (In a (seq r n)) by (apply in_seq; lia).
    assert (existsb (Nat.eqb a) (seq r n) = true).
    { apply existsb_exists; exists a; split; auto. apply Nat.eqb_refl. }
    congruence.
Qed.

(** The rows of [T] after a pivot step: rows above [r] are kept, row [r] is
    the chosen row divided by the pivot, the rows below are reduced. *)
Lemma entry_pivot_step (m : nat) (T : list (list A)) (col : list A) (i r a k : nat) :
  length T = m -> length col = m -> r <= i -> i < m -> a < m -> k < m ->
  entry (pivot_step m T col i r) a k =
  if a <? r then entry T a k
  else if Nat.eqb a r then div (entry T i k) (nth i col zero)
  else sub (entry T (transpose_index i r a) k)
           (mul (nth (transpose_index i r a) col zero)
                (div (entry T i k) (nth i col zero))).
Proof.
  intros HT Hcol Hri Hi Ha Hk. unfold pivot_step.
  assert (Hr : r < m) by lia.
  assert (Hsw : length (swap [] T i r) = m) by (unfold swap; now rewrite !upd_length).
  assert (Hdv : forall c, length (row_div m (swap [] T i r) r c) = m)
    by (intros c; unfold row_div; now rewrite upd_length).
  rewrite entry_fold_row_sub with (c := fun l => nth l (swap zero col i r) zero); auto.
  - rewrite existsb_seq.
    rewrite !entry_row_div by (auto; lia).
    rewrite Nat.eqb_refl.
    rewrite !entry_swap by lia.
    rewrite !nth_swap by lia.
    assert (Et : transpose_index i r r = i)
      by (unfold transpose_index; now rewrite Nat.eqb_refl).
    rewrite Et.
    destruct (Nat.ltb_spec a r) as [Har|Har].
    + replace (r + 1 <=? a) with false by (symmetry; apply Nat.leb_gt; lia).
      simpl. destruct (Nat.eqb_spec a r); [lia|].
      unfold transpose_index.
      destruct (Nat.eqb_spec a r); [lia|]. destruct (Nat.eqb_spec a i); [lia|auto].
    + destruct (Nat.eqb_spec a r) as [->|Hne].
      * replace (r + 1 <=? r) with false by (symmetry; apply Nat.leb_gt; lia).
        simpl. reflexivity.
      * replace (r + 1 <=? a) with true by (symmetry; apply Nat.leb_le; lia).
        replace (a <? r + 1 + (m - (r + 1))) with true
          by (symmetry; apply Nat.ltb_lt; lia).
        simpl. reflexivity.
  - apply seq_NoDup.
  - rewrite in_seq; lia.
  - intros l Hl; apply in_seq in Hl; lia.
Qed.

End EntryFacts.

(* ================================================================== *)
(** ** Sums and products over the field of true values *)

Section FieldFacts.
Context {F : Type} `{Field F}.

Add Field true_values : field_laws.

Lemma div_def (x y : F) : div x y = mul x (inv y).
Proof. apply (Fdiv_def field_laws). Qed.

Lemma inv_l (x : F) : x <> zero -> mul (inv x) x = one.
Proof. apply (Finv_l field_laws). Qed.

Lemma one_neq_zero : (one : F) <> zero.
Proof. apply (F_1_neq_0 field_laws). Qed.

Lemma div_self (x : F) : x <> zero -> div x x = one.
Proof. intros Hx. rewrite div_def. rewrite <- (inv_l Hx). ring. Qed.

Lemma sumn_zero (n : nat) : sumn (fun _ => zero : F) n = zero.
Proof. induction n as [|n IH]; simpl; auto. rewrite IH; ring. Qed.

Lemma sumn_add (f g : nat -> F) (n : nat) :
  sumn (fun k => add (f k) (g k)) n = add (sumn f n) (sumn g n).
Proof. induction n as [|n IH]; simpl; [ring | rewrite IH; ring]. Qed.

Lemma sumn_sub (f g : nat -> F) (n : nat) :
  sumn (fun k => sub (f k) (g k)) n = sub (sumn f n) (sumn g n).
Proof. induction n as [|n IH]; simpl; [ring | rewrite IH; ring]. Qed.

Lemma sumn_scale (c : F) (f : nat -> F) (n : nat) :
  sumn (fun k => mul c (f k)) n = mul c (sumn f n).
Proof. induction n as [|n IH]; simpl; [ring | rewrite IH; ring]. Qed.

Lemma sumn_scale_r (c : F) (f : nat -> F) (n : nat) :
  sumn (fun k => mul (f k) c) n = mul (sumn f n) c.
Proof. induction n as [|n IH]; simpl; [ring | rewrite IH; ring]. Qed.

Lemma sumn_delta (f : nat -> F) (a n : nat) :
  sumn (fun k => mul (delta a k) (f k)) n = if a <? n then f a else zero.
Proof.
  induction n as [|n IH]; simpl; auto.
  rewrite IH. unfold delta.
  destruct (Nat.eqb_spec a n) as [->|Han].
  - rewrite Nat.ltb_irrefl.
    replace (n <? S n) with true by (symmetry; apply Nat.ltb_lt; lia). ring.
  - destruct (Nat.ltb_spec a n); destruct (Nat.ltb_spec a (S n)); try lia; ring.
Qed.

Lemma sumn_delta_r (f : nat -> F) (b n : nat) :
  sumn (fun k => mul (f k) (delta k b)) n = if b <? n then f b else zero.
Proof.
  rewrite <- sumn_delta. apply sumn_ext; intros k _. unfold delta.
  rewrite (Nat.eqb_sym b k). ring.
Qed.

Lemma sumn_swap (f : nat -> nat -> F) (m n : nat) :
  sumn (fun a => sumn (fun b => f a b) n) m =
  sumn (fun b => sumn (fun a => f a b) m) n.
Proof.
  induction m as [|m IH]; simpl.
  - now rewrite sumn_zero.
  - now rewrite IH, sumn_add.
Qed.

(** Products of matrices seen as functions. *)
Lemma fmul_assoc (m : nat) (X Y Z : @fmat F) (a b : nat) :
  fmul m (fmul m X Y) Z a b = fmul m X (fmul m Y Z) a b.
Proof.
  unfold fmul.
  transitivity (sumn (fun k => sumn (fun l => mul (mul (X a l) (Y l k)) (Z k b)) m) m).
  - apply sumn_ext; intros k _. rewrite <- sumn_scale_r.
    apply sumn_ext; intros l _. ring.
  - rewrite sumn_swap. apply sumn_ext; intros l _. rewrite <- sumn_scale.
    apply sumn_ext; intros k _. ring.
Qed.

Lemma fmul_ext (m : nat) (X X' Y Y' : @fmat F) :
  feq m X X' -> feq m Y Y' -> feq m (fmul m X Y) (fmul m X' Y').
Proof.
  intros HX HY a b Ha Hb; unfold fmul.
  apply sumn_ext; intros k Hk. now rewrite HX, HY.
Qed.

Lemma fmul_delta_l (m : nat) (X : @fmat F) : feq m (fmul m delta X) X.
Proof.
  intros a b Ha Hb; unfold fmul. rewrite sumn_delta.
  now replace (a <? m) with true by (symmetry; apply Nat.ltb_lt; lia).
Qed.

Lemma fmul_delta_r (m : nat) (X : @fmat F) : feq m (fmul m X delta) X.
Proof.
  intros a b Ha Hb; unfold fmul. rewrite sumn_delta_r.
  now replace (b <? m) with true by (symmetry; apply Nat.ltb_lt; lia).
Qed.

Lemma feq_refl (m : nat) (X : @fmat F) : feq m X X.
Proof. intros a b _ _; reflexivity. Qed.

Lemma feq_sym (m : nat) (X Y : @fmat F) : feq m X Y -> feq m Y X.
Proof. intros HXY a b Ha Hb; symmetry; now apply HXY. Qed.

Lemma feq_trans (m : nat) (X Y Z : @fmat F) : feq m X Y -> feq m Y Z -> feq m X Z.
Proof. intros HXY HYZ a b Ha Hb; rewrite HXY, HYZ; auto. Qed.

Lemma finvertible_delta (m : nat) : finvertible m (delta (F := F)).
Proof. exists delta; split; apply fmul_delta_l. Qed.

Lemma finvertible_ext (m : nat) (X Y : @fmat F) :
  feq m X Y -> finvertible m X -> finvertible m Y.
Proof.
  intros HXY (U & HU1 & HU2). exists U; split.
  - eapply feq_trans; [|exact HU1]. apply fmul_ext; [apply feq_refl | now apply feq_sym].
  - eapply feq_trans; [|exact HU2]. apply fmul_ext; [now apply feq_sym | apply feq_refl].
Qed.

Lemma finvertible_mul (m : nat) (X Y : @fmat F) :
  finvertible m X -> finvertible m Y -> finvertible m (fmul m X Y).
Proof.
  intros (U & HU1 & HU2) (V & HV1 & HV2). exists (fmul m V U); split.
  - intros a b Ha Hb.
    rewrite fmul_assoc.
    transitivity (fmul m V Y a b); [|now apply HV1].
    apply fmul_ext; auto using feq_refl.
    intros c d Hc Hd. rewrite <- fmul_assoc.
    transitivity (fmul m delta Y c d); [|now apply fmul_delta_l].
    apply fmul_ext; auto using feq_refl.
  - intros a b Ha Hb.
    rewrite fmul_assoc.
    transitivity (fmul m X U a b); [|now apply HU2].
    apply fmul_ext; auto using feq_refl.
    intros c d Hc Hd. rewrite <- fmul_assoc.
    transitivity (fmul m delta U c d); [|now apply fmul_delta_l].
    apply fmul_ext; auto using feq_refl.
Qed.

End FieldFacts.

(* ================================================================== *)
(** ** Row operations keep a matrix invertible *)

Section RowOperations.
Context {F : Type} `{Field F}.

Add Field true_values_rows : field_laws.

Lemma f_sub_as_mul (m l r : nat) (c : F) (X : @fmat F) :
  l < m -> r < m -> feq m (f_sub l r c X) (fmul m (f_sub l r c delta) X).
Proof.
  intros Hl Hr a b Ha Hb; unfold fmul, f_sub.
  destruct (Nat.eqb a l).
  - transitivity (sub (sumn (fun k => mul (delta l k) (X k b)) m)
                      (mul c (sumn (fun k => mul (delta r k) (X k b)) m))).
    + rewrite !sumn_delta.
      replace (l <? m) with true by (symmetry; apply Nat.ltb_lt; lia).
      now replace (r <? m) with true by (symmetry; apply Nat.ltb_lt; lia).
    + rewrite <- sumn_scale, <- sumn_sub. apply sumn_ext; intros k _. ring.
  - rewrite sumn_delta.
    now replace (a <? m) with true by (symmetry; apply Nat.ltb_lt; lia).
Qed.

Lemma f_scale_as_mul (m r : nat) (c : F) (X : @fmat F) :
  r < m -> feq m (f_scale r c X) (fmul m (f_scale r c delta) X).
Proof.
  intros Hr a b Ha Hb; unfold fmul, f_scale.
  destruct (Nat.eqb a r).
  - transitivity (mul c (sumn (fun k => mul (delta r k) (X k b)) m)).
    + rewrite sumn_delta.
      now replace (r <? m) with true by (symmetry; apply Nat.ltb_lt; lia).
    + rewrite <- sumn_scale. apply sumn_ext; intros k _. ring.
  - rewrite sumn_delta.
    now replace (a <? m) with true by (symmetry; apply Nat.ltb_lt; lia).
Qed.

Lemma f_swap_as_mul (m i r : nat) (X : @fmat F) :
  i < m -> r < m -> feq m (f_swap i r X) (fmul m (f_swap i r delta) X).
Proof.
  intros Hi Hr a b Ha Hb; unfold fmul, f_swap.
  rewrite sumn_delta.
  assert (Ht := transpose_index_lt Hi Hr Ha).
  now replace (transpose_index i r a <? m) with true
    by (symmetry; apply Nat.ltb_lt; lia).
Qed.

Lemma finvertible_sub_delta (m l r : nat) (c : F) :
  l < m -> r < m -> l <> r -> finvertible m (f_sub l r c delta).
Proof.
  intros Hl Hr Hlr. exists (f_sub l r (opp c) delta); split.
  - eapply feq_trans; [apply feq_sym, f_sub_as_mul; auto|].
    intros a b _ _; unfold f_sub.
    destruct (Nat.eqb_spec a l) as [->|_]; auto.
    rewrite Nat.eqb_refl. destruct (Nat.eqb_spec r l); [congruence|]. ring.
  - eapply feq_trans; [apply feq_sym, f_sub_as_mul; auto|].
    intros a b _ _; unfold f_sub.
    destruct (Nat.eqb_spec a l) as [->|_]; auto.
    rewrite Nat.eqb_refl. destruct (Nat.eqb_spec r l); [congruence|]. ring.
Qed.

Lemma finvertible_scale_delta (m r : nat) (c : F) :
  r < m -> c <> zero -> finvertible m (f_scale r (inv c) delta).
Proof.
  intros Hr Hc. exists (f_scale r c delta); split.
  - eapply feq_trans; [apply feq_sym, f_scale_as_mul; auto|].
    intros a b _ _; unfold f_scale.
    destruct (Nat.eqb_spec a r) as [->|_]; auto.
    rewrite Nat.eqb_refl.
    transitivity (mul (mul (inv c) c) (delta r b)); [ring|].
    rewrite inv_l by assumption. ring.
  - eapply feq_trans; [apply feq_sym, f_scale_as_mul; auto|].
    intros a b _ _; unfold f_scale.
    destruct (Nat.eqb_spec a r) as [->|_]; auto.
    rewrite Nat.eqb_refl.
    transitivity (mul (mul (inv c) c) (delta r b)); [ring|].
    rewrite inv_l by assumption. ring.
Qed.

Lemma finvertible_swap_delta (m i r : nat) :
  i < m -> r < m -> finvertible m (f_swap i r (delta (F := F))).
Proof.
  intros Hi Hr. exists (f_swap i r delta); split.
  - eapply feq_trans; [apply feq_sym, f_swap_as_mul; auto|].
    intros a b _ _; unfold f_swap. now rewrite transpose_index_invol.
  - eapply feq_trans; [apply feq_sym, f_swap_as_mul; auto|].
    intros a b _ _; unfold f_swap. now rewrite transpose_index_invol.
Qed.

(** The same on lists of rows. *)
Definition inv_rows (m : nat) (T : list (list F)) : Prop :=
  finvertible m (of_rows T).

Lemma inv_rows_row_sub (m : nat) (T : list (list F)) (l r : nat) (c : F) :
  length T = m -> l < m -> r < m -> l <> r ->
  inv_rows m T -> inv_rows m (row_sub m T l r c).
Proof.
  intros HT Hl Hr Hlr HI; unfold inv_rows.
  apply finvertible_ext with (X := fmul m (f_sub l r c delta) (of_rows T)).
  - eapply feq_trans; [apply feq_sym, f_sub_as_mul; auto|].
    intros a b Ha Hb; unfold of_rows, f_sub.
    rewrite entry_row_sub by (auto; lia). reflexivity.
  - apply finvertible_mul; auto. now apply finvertible_sub_delta.
Qed.

Lemma inv_rows_row_div (m : nat) (T : list (list F)) (r : nat) (c : F) :
  length T = m -> r < m -> c <> zero ->
  inv_rows m T -> inv_rows m (row_div m T r c).
Proof.
  intros HT Hr Hc HI; unfold inv_rows.
  apply finvertible_ext with (X := fmul m (f_scale r (inv c) delta) (of_rows T)).
  - eapply feq_trans; [apply feq_sym, f_scale_as_mul; auto|].
    intros a b Ha Hb; unfold of_rows, f_scale.
    rewrite entry_row_div by (auto; lia).
    destruct (Nat.eqb a r); auto. rewrite div_def; ring.
  - apply finvertible_mul; auto. now apply finvertible_scale_delta.
Qed.

Lemma inv_rows_swap (m : nat) (T : list (list F)) (i r : nat) :
  length T = m -> i < m -> r < m ->
  inv_rows m T -> inv_rows m (swap [] T i r).
Proof.
  intros HT Hi Hr HI; unfold inv_rows.
  apply finvertible_ext with (X := fmul m (f_swap i r delta) (of_rows T)).
  - eapply feq_trans; [apply feq_sym, f_swap_as_mul; auto|].
    intros a b Ha Hb; unfold of_rows, f_swap.
    rewrite entry_swap by lia. reflexivity.
  - apply finvertible_mul; auto. now apply finvertible_swap_delta.
Qed.

Lemma inv_rows_fold_row_sub (m r : nat) (c : nat -> F) (ls : list nat)
      (T : list (list F)) :
  length T = m -> r < m -> ~ In r ls -> (forall l, In l ls -> l < m) ->
  inv_rows m T ->
  inv_rows m (fold_left (fun T' l => row_sub m T' l r (c l)) ls T).
Proof.
  revert T; induction ls as [|l ls IH]; intros T HT Hr Hnr Hlt HI; simpl; auto.
  apply IH; auto.
  - unfold row_sub; now rewrite upd_length.
  - intros Hin; apply Hnr; now right.
  - intros x Hx; apply Hlt; now right.
  - apply inv_rows_row_sub; auto.
    + apply Hlt; now left.
    + intros ->; apply Hnr; now left.
Qed.

Lemma inv_rows_pivot_step (m : nat) (T : list (list F)) (col : list F) (i r : nat) :
  length T = m -> length col = m -> r <= i -> i < m -> nth i col zero <> zero ->
  inv_rows m T -> inv_rows m (pivot_step m T col i r).
Proof.
  intros HT Hcol Hri Hi Hc HI; unfold pivot_step.
  assert (Hr : r < m) by lia.
  assert (Hsw : length (swap [] T i r) = m) by (unfold swap; now rewrite !upd_length).
  apply inv_rows_fold_row_sub with (c := fun l => nth l (swap zero col i r) zero); auto.
  - unfold row_div; now rewrite upd_length.
  - rewrite in_seq; lia.
  - intros l Hl; apply in_seq in Hl; lia.
  - apply inv_rows_row_div; auto.
    + rewrite nth_swap by lia. unfold transpose_index. now rewrite Nat.eqb_refl.
    + now apply inv_rows_swap.
Qed.

Lemma inv_rows_replay_col (M : list (list F)) (m r : nat) (T : list (list F))
      (jr : nat * nat) :
  length T = m -> snd jr < r -> r <= m ->
  inv_rows m T -> inv_rows m (replay_col M m r T jr).
Proof.
  intros HT Hpj Hr HI; unfold replay_col.
  destruct (Nat.eq_dec r m) as [->|Hne].
  - now rewrite Nat.sub_diag.
  - apply inv_rows_fold_row_sub
      with (c := fun i => nth i (mulmv T (column (fst jr) M)) zero); auto; try lia.
    + rewrite in_seq; lia.
    + intros l Hl; apply in_seq in Hl; lia.
Qed.

Lemma inv_rows_identity (m : nat) : inv_rows m (identity m).
Proof.
  apply finvertible_ext with (X := delta); [|apply finvertible_delta].
  intros a b Ha Hb; unfold of_rows, entry, identity.
  rewrite nth_map_seq with (d := []) by assumption.
  now rewrite nth_map_seq by assumption.
Qed.

End RowOperations.

(* ================================================================== *)
(** ** The pivots REF builds *)

Lemma mem_key_In (j : nat) (p : pivots) :
  mem_key j p = true <-> In j (map fst p).
Proof.
  unfold mem_key; rewrite existsb_exists; split.
  - intros (jr & Hin & E). apply Nat.eqb_eq in E; subst. now apply in_map.
  - intros Hin. apply in_map_iff in Hin as (jr & <- & Hin).
    exists jr; split; auto. apply Nat.eqb_refl.
Qed.

Lemma wf_pivots_nil (m n : nat) : wf_pivots m n [].
Proof.
  repeat split; simpl; auto using NoDup_nil; try lia; try (intros j []).
Qed.

Lemma NoDup_snoc {X : Type} (l : list X) (x : X) :
  NoDup l -> ~ In x l -> NoDup (l ++ [x]).
Proof.
  induction l as [|h t IH]; intros Hnd Hx; simpl.
  - constructor; auto using NoDup_nil.
  - apply NoDup_cons_iff in Hnd as [Hh Ht]. constructor.
    + intros Hin. apply in_app_or in Hin as [Hin|[->|[]]]; auto.
      apply Hx; now left.
    + apply IH; auto. intros Hin; apply Hx; now right.
Qed.

Lemma wf_pivots_snoc (m n : nat) (p : pivots) (j : nat) :
  wf_pivots m n p -> mem_key j p = false -> j < n -> length p < m ->
  wf_pivots m n (p ++ [(j, length p)]).
Proof.
  intros (Hrows & Hnd & Hlt & Hlen) Hj Hjn Hm.
  assert (Hnin : ~ In j (map fst p)).
  { intros Hin. apply mem_key_In in Hin. congruence. }
  repeat split.
  - rewrite map_app, length_app, Hrows; simpl.
    now rewrite Nat.add_1_r, seq_S.
  - rewrite map_app; simpl. now apply NoDup_snoc.
  - intros k Hk. rewrite map_app in Hk. apply in_app_or in Hk as [Hk|[<-|[]]]; auto.
  - rewrite length_app; simpl; lia.
Qed.

Lemma wf_pivots_row (m n : nat) (p : pivots) (j pj : nat) :
  wf_pivots m n p -> In (j, pj) p -> pj < length p /\ j < n.
Proof.
  intros (Hrows & _ & Hlt & _) Hin; split.
  - assert (H : In pj (map snd p)) by (apply in_map_iff; now exists (j, pj)).
    rewrite Hrows in H. apply in_seq in H; lia.
  - apply Hlt, in_map_iff. now exists (j, pj).
Qed.

Lemma wf_pivots_valid {B : Type} `{Ball B} (m n : nat) (p : pivots) :
  wf_pivots m n p -> valid_pivots m n p = true.
Proof.
  intros Hwf. unfold valid_pivots. apply forallb_forall; intros [j pj] Hin.
  destruct (@wf_pivots_row m n p j pj Hwf Hin) as [Hp Hj]. destruct Hwf as (_ & _ & _ & Hm).
  simpl. apply andb_true_iff; split; apply Nat.ltb_lt; lia.
Qed.

Section PivotFacts.
Context {B : Type} `{Ball B}.

Lemma argmax_first_In (key : nat -> Q) (cands : list nat) (i : nat) :
  argmax_first key cands = Some i -> In i cands.
Proof.
  destruct cands as [|c cs]; simpl; [discriminate|].
  intros E; injection E as <-.
  revert c; induction cs as [|l cs IH]; intros c; simpl; auto.
  destruct (Qle_bool (key l) (key c)).
  - destruct (IH c) as [<-|Hin]; auto.
  - destruct (IH l) as [<-|Hin]; auto.
Qed.

Lemma find_pivot_Some (r m : nat) (col : list B) (i : nat) :
  find_pivot r m col = Some i ->
  r <= i /\ i < m /\ is_nonzero (nth i col zero) = true.
Proof.
  intros E. apply argmax_first_In in E. apply filter_In in E as [Hin Hnz].
  apply in_seq in Hin. repeat split; auto; lia.
Qed.

Lemma find_pivot_None (r m : nat) (col : list B) :
  (forall l, r <= l < m -> is_nonzero (nth l col zero) = false) ->
  find_pivot r m col = None.
Proof.
  intros Hz. unfold find_pivot.
  replace (filter _ (seq r (m - r))) with (@nil nat); auto.
  symmetry. induction (seq r (m - r)) as [|l ls IH] eqn:E in Hz |- *; auto.
  assert (Hin : forall x, In x (l :: ls) -> r <= x < m).
  { intros x Hx. rewrite <- E in Hx. apply in_seq in Hx. lia. }
  clear E. revert Hin. generalize (l :: ls). clear l ls IH.
  induction l as [|x xs IHx]; intros Hin; simpl; auto.
  rewrite Hz by (apply Hin; now left). apply IHx. intros y Hy; apply Hin; now right.
Qed.

Lemma ref_col_pivots (M : list (list B)) (m n : nat) (T : list (list B))
      (p : pivots) (j : nat) :
  wf_pivots m n p -> j < n ->
  wf_pivots m n (snd (ref_col M m (T, p) j)) /\
  exists q, snd (ref_col M m (T, p) j) = p ++ q.
Proof.
  intros Hwf Hj. unfold ref_col.
  destruct (mem_key j p) eqn:Ek; simpl.
  - split; auto. exists []. now rewrite app_nil_r.
  - destruct (find_pivot _ _ _) as [i|] eqn:Ef; simpl.
    + apply find_pivot_Some in Ef as (Hri & Him & _). split.
      * apply wf_pivots_snoc; auto. lia.
      * now exists [(j, length p)].
    + split; auto. exists []. now rewrite app_nil_r.
Qed.

Lemma fold_ref_col_pivots (M : list (list B)) (m n : nat) (js : list nat)
      (st : list (list B) * pivots) :
  wf_pivots m n (snd st) -> (forall j, In j js -> j < n) ->
  wf_pivots m n (snd (fold_left (ref_col M m) js st)) /\
  exists q, snd (fold_left (ref_col M m) js st) = snd st ++ q.
Proof.
  revert st; induction js as [|j js IH]; intros [T p] Hwf Hjs; cbn [fold_left snd].
  - split; auto. exists []. now rewrite app_nil_r.
  - cbn [snd] in Hwf.
    destruct (@ref_col_pivots M m n T p j Hwf (Hjs j (or_introl eq_refl))) as [Hwf' [q Hq]].
    destruct (ref_col M m (T, p) j) as [T' p'] eqn:E. cbn [snd] in Hwf', Hq.
    assert (Hjs' : forall x, In x js -> x < n) by (intros x Hx; apply Hjs; now right).
    destruct (IH (T', p') Hwf' Hjs') as [Hwf'' [q' Hq']].
    split; auto. exists (q ++ q'). rewrite Hq'. cbn [snd]. rewrite Hq.
    symmetry; apply app_assoc.
Qed.

Lemma REF_state_pivots (mat : matrix B) (p0 : pivots) :
  wf_pivots (nrows mat) (ncols mat) p0 ->
  wf_pivots (nrows mat) (ncols mat) (snd (REF_state mat p0)) /\
  exists q, snd (REF_state mat p0) = p0 ++ q.
Proof.
  intros Hwf. unfold REF_state.
  apply fold_ref_col_pivots; auto.
  intros j Hj; apply in_seq in Hj; lia.
Qed.

Lemma fold_ref_col_shape (M : list (list B)) (m n : nat) (js : list nat)
      (st : list (list B) * pivots) :
  shape m m (fst st) ->
  shape m m (fst (fold_left (ref_col M m) js st)).
Proof.
  revert st; induction js as [|j js IH]; intros [T p] HT; simpl; auto.
  apply IH. unfold ref_col.
  destruct (mem_key j p); auto.
  destruct (find_pivot _ _ _) as [i|] eqn:Ef; auto. simpl.
  apply find_pivot_Some in Ef as (Hri & Him & _).
  apply shape_pivot_step; auto; lia.
Qed.

Lemma fold_replay_shape (M : list (list B)) (m r : nat) (p : pivots)
      (T : list (list B)) :
  shape m m T -> shape m m (fold_left (replay_col M m r) p T).
Proof.
  revert T; induction p as [|jr p IH]; intros T HT; simpl; auto.
  apply IH, shape_replay_col, HT.
Qed.

Lemma REF_state_shape (mat : matrix B) (p0 : pivots) :
  shape (nrows mat) (nrows mat) (fst (REF_state mat p0)).
Proof.
  unfold REF_state. apply fold_ref_col_shape with (n := ncols mat). simpl.
  apply fold_replay_shape, shape_identity.
Qed.

End PivotFacts.

(* ================================================================== *)
(** ** The entries REF writes into R *)

Section WrittenEntries.
Context {A : Type} `{Arith A}.

Lemma shape_set_entry (m n : nat) (R : list (list A)) (i j : nat) (x : A) :
  shape m n R -> i < m -> shape m n (set_entry R i j x).
Proof.
  intros HR Hi; unfold set_entry. apply shape_upd; auto.
  rewrite upd_length. now apply shape_row with (m := m).
Qed.

Lemma entry_set_entry (m n : nat) (R : list (list A)) (i j : nat) (x : A) (a b : nat) :
  shape m n R -> i < m -> j < n ->
  entry (set_entry R i j x) a b =
  if Nat.eqb a i && Nat.eqb b j then x else entry R a b.
Proof.
  intros HR Hi Hj; unfold set_entry.
  assert (Hrow := shape_row HR Hi). destruct HR as [Hm _].
  destruct (Nat.eqb_spec a i) as [->|Hai]; simpl.
  - rewrite entry_upd_eq by lia.
    destruct (Nat.eqb_spec b j) as [->|Hbj].
    + rewrite nth_upd_eq; auto. lia.
    + rewrite nth_upd_ne by congruence. reflexivity.
  - now rewrite entry_upd_ne by congruence.
Qed.

Lemma fold_set_zero (m n j : nat) (ls : list nat) (R : list (list A)) :
  shape m n R -> j < n -> (forall l, In l ls -> l < m) ->
  shape m n (fold_left (fun R' i => set_entry R' i j zero) ls R) /\
  forall a b,
    entry (fold_left (fun R' i => set_entry R' i j zero) ls R) a b =
    if Nat.eqb b j && existsb (Nat.eqb a) ls then zero else entry R a b.
Proof.
  revert R; induction ls as [|l ls IH]; intros R HR Hj Hls; simpl.
  - split; auto. intros a b. now rewrite andb_false_r.
  - assert (Hl : l < m) by (apply Hls; now left).
    destruct (IH (set_entry R l j zero)) as [Hsh Hen]; auto.
    + now apply shape_set_entry.
    + intros x Hx; apply Hls; now right.
    + split; auto. intros a b. rewrite Hen.
      rewrite (entry_set_entry zero a b HR Hl Hj).
      destruct (Nat.eqb_spec b j) as [->|Hbj]; simpl.
      * destruct (Nat.eqb_spec a l) as [->|Hal]; simpl;
          now destruct (existsb _ ls).
      * now rewrite andb_false_r.
Qed.

Lemma set_pivot_spec (m n : nat) (R : list (list A)) (j pj : nat) :
  shape m n R -> j < n -> pj < m ->
  shape m n (set_pivot m R (j, pj)) /\
  forall a b,
    entry (set_pivot m R (j, pj)) a b =
    if Nat.eqb b j
    then if Nat.eqb a pj then one
         else if (pj <? a) && (a <? m) then zero else entry R a b
    else entry R a b.
Proof.
  intros HR Hj Hpj; unfold set_pivot; simpl.
  destruct (@fold_set_zero m n j (seq (pj + 1) (m - (pj + 1)))
              (set_entry R pj j one)) as [Hsh Hen]; auto.
  - now apply shape_set_entry.
  - intros l Hl; apply in_seq in Hl; lia.
  - split; auto. intros a b. rewrite Hen, existsb_seq.
    rewrite (entry_set_entry one a b HR Hpj Hj).
    destruct (Nat.eqb_spec b j) as [->|Hbj]; simpl.
    + destruct (Nat.eqb_spec a pj) as [->|Hap]; simpl.
      * replace (pj + 1 <=? pj) with false by (symmetry; apply Nat.leb_gt; lia).
        reflexivity.
      * destruct (Nat.leb_spec (pj + 1) a), (Nat.ltb_spec pj a); try lia; simpl; auto.
        destruct (Nat.ltb_spec a (pj + 1 + (m - (pj + 1)))),
                 (Nat.ltb_spec a m); try lia; auto.
    + now rewrite andb_false_r.
Qed.

(** Every entry of R: what lines 148-150 wrote, or the product's entry. *)
Lemma fold_set_pivot_spec (m n : nat) (p : pivots) (R : list (list A)) :
  shape m n R -> NoDup (map fst p) ->
  (forall j pj, In (j, pj) p -> j < n /\ pj < m) ->
  shape m n (fold_left (set_pivot m) p R) /\
  forall a b,
    entry (fold_left (set_pivot m) p R) a b =
    match lookup b p with
    | Some pj => if Nat.eqb a pj then one
                 else if (pj <? a) && (a <? m) then zero else entry R a b
    | None => entry R a b
    end.
Proof.
  revert R; induction p as [|[j pj] p IH]; intros R HR Hnd Hin; simpl.
  - split; auto.
  - apply NoDup_cons_iff in Hnd as [Hj Hnd].
    destruct (Hin j pj (or_introl eq_refl)) as [Hjn Hpm].
    destruct (set_pivot_spec HR Hjn Hpm) as [Hsh Hen].
    destruct (IH (set_pivot m R (j, pj))) as [Hsh' Hen']; auto.
    { intros j' pj' H'; apply Hin; now right. }
    split; auto. intros a b. rewrite Hen', Hen. unfold lookup; simpl.
    rewrite (Nat.eqb_sym b j).
    destruct (Nat.eqb_spec j b) as [->|Hjb]; simpl.
    + fold (lookup b p). replace (lookup b p) with (@None nat); auto.
      unfold lookup. destruct (find _ p) as [[j' pj']|] eqn:Ef; auto.
      apply find_some in Ef as [Hin' Eq]. simpl in Eq. apply Nat.eqb_eq in Eq; subst.
      exfalso; apply Hj. apply in_map_iff. now exists (b, pj').
    + fold (lookup b p). destruct (lookup b p); auto.
Qed.

Lemma lookup_In (p : pivots) (j pj : nat) :
  NoDup (map fst p) -> In (j, pj) p -> lookup j p = Some pj.
Proof.
  induction p as [|[j' pj'] p IH]; intros Hnd Hin; [destruct Hin|].
  apply NoDup_cons_iff in Hnd as [Hj Hnd]. unfold lookup; simpl.
  destruct Hin as [E|Hin].
  - injection E as -> ->. now rewrite Nat.eqb_refl.
  - destruct (Nat.eqb_spec j' j) as [->|Hne].
    + exfalso; apply Hj. apply in_map_iff. now exists (j, pj).
    + now apply IH.
Qed.

Lemma lookup_None (p : pivots) (j : nat) :
  mem_key j p = false -> lookup j p = None.
Proof.
  intros Hk. unfold lookup. destruct (find _ p) as [jr|] eqn:Ef; auto.
  apply find_some in Ef as [Hin E]. apply Nat.eqb_eq in E.
  assert (mem_key j p = true); [|congruence].
  apply mem_key_In. subst. now apply in_map.
Qed.

End WrittenEntries.

(* ================================================================== *)
(** ** The two enclosure arithmetics are conservative *)

Lemma Qc_zero_iff (x : Qc) : (this x == 0)%Q <-> x = Q2Qc 0.
Proof.
  split.
  - intros Hx. apply Qc_is_canon. simpl. now rewrite Hx.
  - intros ->. reflexivity.
Qed.

Module ExactFacts.
Import Exact.

#[export] Instance exact_enclosure : @Enclosure Qc Qc exact_ball Qc_field.
Proof.
  refine {| contains := fun b x => b = x |}.
  - intros a b x y -> ->; reflexivity.
  - intros a b x y -> ->; reflexivity.
  - intros a b x y -> ->; reflexivity.
  - intros a b x y -> -> _; reflexivity.
  - intros b x Hnz -> Hx. simpl in Hnz.
    apply Qc_zero_iff in Hx. apply Qeq_bool_iff in Hx. now rewrite Hx in Hnz.
  - intros b; simpl. rewrite Qeq_bool_iff. apply Qc_zero_iff.
  - intros x; split; intros Hx; now subst.
  - intros x; split; intros Hx; now subst.
Defined.

#[export] Instance exact_units : @ExactUnits Qc exact_ball.
Proof.
  split; intros x; simpl.
  - apply Qcplus_0_l.
  - apply Qcplus_0_r.
  - apply Qcmult_0_l.
  - apply Qcmult_1_l.
  - unfold Qcminus. change (- Q2Qc 0)%Qc with (Q2Qc 0). apply Qcplus_0_r.
Qed.

End ExactFacts.

Module MidRadFacts.
Import MidRad.
Local Open Scope Q_scope.

Lemma this_add (x y : Qc) : this (Qcplus x y) == this x + this y.
Proof. exact (Qred_correct (this x + this y)). Qed.

Lemma this_sub (x y : Qc) : this (Qcminus x y) == this x - this y.
Proof.
  unfold Qcminus. rewrite this_add.
  now rewrite (Qred_correct (- this y) : this (Qcopp y) == - this y).
Qed.

Lemma this_mul (x y : Qc) : this (Qcmult x y) == this x * this y.
Proof. exact (Qred_correct (this x * this y)). Qed.

Lemma this_inv (x : Qc) : this (Qcinv x) == / this x.
Proof. exact (Qred_correct (/ this x)). Qed.

Lemma mid_mk (m r : Q) : mid (mk m r) == m.
Proof. exact (Qred_correct m). Qed.

Lemma rad_mk (m r : Q) : rad (mk m r) == r.
Proof. exact (Qred_correct r). Qed.

Lemma madd_sound (a b : mball) (x y : Qc) :
  mcontains a x -> mcontains b y -> mcontains (madd a b) (Qcplus x y).
Proof.
  unfold mcontains, madd. rewrite mid_mk, rad_mk, this_add.
  rewrite !Qabs_Qle_condition. intros [? ?] [? ?]; split; lra.
Qed.

Lemma msub_sound (a b : mball) (x y : Qc) :
  mcontains a x -> mcontains b y -> mcontains (msub a b) (Qcminus x y).
Proof.
  unfold mcontains, msub. rewrite mid_mk, rad_mk, this_sub.
  rewrite !Qabs_Qle_condition. intros [? ?] [? ?]; split; lra.
Qed.

Lemma mmul_sound (a b : mball) (x y : Qc) :
  mcontains a x -> mcontains b y -> mcontains (mmul a b) (Qcmult x y).
Proof.
  unfold mcontains, mmul. rewrite mid_mk, rad_mk, this_mul.
  rewrite !Qabs_Qle_condition.
  generalize (this x) (this y) (mid a) (mid b) (rad a) (rad b).
  intros u v m1 m2 r1 r2 [? ?] [? ?].
  apply (Qabs_case m1); apply (Qabs_case m2); intros; split; nra.
Qed.

Lemma minv_sound (b : mball) (y : Qc) :
  mcontains b y -> Qlt_bool (rad b) (Qabs (mid b)) = true ->
  mcontains (minv b) (Qcinv y).
Proof.
  unfold mcontains, minv, Qlt_bool. rewrite mid_mk, rad_mk, this_inv.
  generalize (this y) (mid b) (rad b). intros v m r Hv Hnz.
  apply negb_true_iff in Hnz.
  assert (Hlt : r < Qabs m).
  { apply Qnot_le_lt. intros Hle. apply Qle_bool_iff in Hle. congruence. }
  assert (Hr : 0 <= r) by (eapply Qle_trans; [apply Qabs_nonneg | exact Hv]).
  apply Qabs_Qle_condition in Hv as [Hv1 Hv2].
  set (d := m * m - r * r).
  assert (Hd : 0 < d).
  { unfold d. revert Hlt. apply (Qabs_case m); intros; nra. }
  assert (Hdn : ~ d == 0) by lra.
  assert (Hwd : 0 < / d) by now apply Qinv_lt_0_compat.
  assert (Hvn : ~ v == 0).
  { revert Hlt. apply (Qabs_case m); intros; lra. }
  assert (E1 : r / d - (/ v - m / d) == (/ v * / d) * ((r + m) * (v - (m - r)))).
  { unfold d. field. split; auto. }
  assert (E2 : / v - m / d + r / d == (/ v * / d) * ((m - r) * (m + r - v))).
  { unfold d. field. split; auto. }
  apply Qabs_Qle_condition.
  revert Hlt. apply (Qabs_case m); intros Hm Hlt.
  - assert (Hz : 0 < / v) by (apply Qinv_lt_0_compat; lra).
    assert (H1 : 0 <= (/ v * / d) * ((r + m) * (v - (m - r)))).
    { apply Qmult_le_0_compat; [nra | nra]. }
    assert (H2 : 0 <= (/ v * / d) * ((m - r) * (m + r - v))).
    { apply Qmult_le_0_compat; [nra | nra]. }
    split; lra.
  - assert (Hz : 0 < / - v) by (apply Qinv_lt_0_compat; lra).
    assert (Ez : / - v == - / v) by (field; auto).
    assert (H1 : 0 <= (/ v * / d) * ((r + m) * (v - (m - r)))).
    { setoid_replace ((/ v * / d) * ((r + m) * (v - (m - r))))
        with ((/ - v * / d) * ((- (r + m)) * (v - (m - r)))) by (rewrite Ez; ring).
      apply Qmult_le_0_compat; [nra | nra]. }
    assert (H2 : 0 <= (/ v * / d) * ((m - r) * (m + r - v))).
    { setoid_replace ((/ v * / d) * ((m - r) * (m + r - v)))
        with ((/ - v * / d) * ((r - m) * (m + r - v))) by (rewrite Ez; ring).
      apply Qmult_le_0_compat; [nra | nra]. }
    split; lra.
Qed.

Lemma mdiv_sound (a b : mball) (x y : Qc) :
  mcontains a x -> mcontains b y -> Qlt_bool (rad b) (Qabs (mid b)) = true ->
  mcontains (mdiv a b) (Qcdiv x y).
Proof.
  intros Ha Hb Hnz. unfold mdiv, Qcdiv.
  apply mmul_sound; auto. now apply minv_sound.
Qed.

#[export] Instance mball_enclosure : @Enclosure mball Qc mball_ball Qc_field.
Proof.
  refine {| contains := mcontains |}.
  - exact madd_sound.
  - exact msub_sound.
  - exact mmul_sound.
  - exact mdiv_sound.
  - intros b x Hnz Hx ->. unfold mcontains in Hx.
    change (this zero) with 0 in Hx.
    change (Qlt_bool (rad b) (Qabs (mid b)) = true) in Hnz.
    unfold Qlt_bool in Hnz. apply negb_true_iff in Hnz.
    assert (Hle : Qabs (mid b) <= rad b).
    { apply Qabs_Qle_condition in Hx. apply Qabs_Qle_condition. lra. }
    apply Qle_bool_iff in Hle. congruence.
  - intros b. change (Qle_bool (Qabs (mid b)) (rad b) = true <-> mcontains b zero).
    unfold mcontains. change (this zero) with 0.
    rewrite Qle_bool_iff, !Qabs_Qle_condition. split; intros [? ?]; split; lra.
  - intros x. change (mcontains (MB 0 0) x <-> x = Q2Qc 0).
    unfold mcontains; cbn [mid rad].
    rewrite <- Qc_zero_iff, Qabs_Qle_condition.
    split; [intros [? ?]; lra | intros ->; split; lra].
  - intros x. change (mcontains (MB 1 0) x <-> x = Q2Qc 1).
    unfold mcontains; cbn [mid rad]. rewrite Qabs_Qle_condition. split.
    + intros [? ?]. apply Qc_is_canon. change (this (Q2Qc 1)) with 1. lra.
    + intros ->. change (this (Q2Qc 1)) with 1. split; lra.
Defined.

End MidRadFacts.

(* ================================================================== *)
(** ** What REF returns *)

Section REFResults.
Context {B : Type} `{Ball B}.

Lemma REF_Ok (mat : matrix B) (tr pv : bool) (pp : pivots) (o : REF_out) :
  REF mat tr pv pp = Ok o ->
  valid_pivots (nrows mat) (ncols mat) pp = true /\
  out_R o = REF_R mat (fst (REF_state mat pp)) (snd (REF_state mat pp)) /\
  out_p o = (if pv then Some (snd (REF_state mat pp)) else None) /\
  out_T o = (if tr then Some (Mat (nrows mat) (nrows mat) (fst (REF_state mat pp)))
             else None) /\
  (tr = true -> contains_zero (det (fst (REF_state mat pp))) = false).
Proof.
  unfold REF. destruct (valid_pivots _ _ pp); simpl; [|discriminate].
  destruct (REF_state mat pp) as [T p]; simpl.
  destruct tr.
  - destruct (contains_zero (det T)) eqn:Ed; [discriminate|].
    intros E; injection E as <-; simpl. repeat split; auto.
  - intros E; injection E as <-; simpl. repeat split; auto. discriminate.
Qed.

Lemma REF_R_spec (mat : matrix B) (T : list (list B)) (p : pivots) :
  length T = nrows mat -> wf_pivots (nrows mat) (ncols mat) p ->
  shape (nrows mat) (ncols mat) (rows (REF_R mat T p)) /\
  forall a b,
    entry (rows (REF_R mat T p)) a b =
    match lookup b p with
    | Some pj => if Nat.eqb a pj then one
                 else if (pj <? a) && (a <? nrows mat) then zero
                      else entry (matmul (ncols mat) T (rows mat)) a b
    | None => entry (matmul (ncols mat) T (rows mat)) a b
    end.
Proof.
  intros HT Hwf. unfold REF_R; cbn [rows].
  apply fold_set_pivot_spec.
  - rewrite <- HT. apply shape_matmul.
  - apply Hwf.
  - intros j pj Hin. destruct (wf_pivots_row j pj Hwf Hin) as [Hp Hj].
    destruct Hwf as (_ & _ & _ & Hm). split; lia.
Qed.

End REFResults.

Import Exact MidRad ExactFacts MidRadFacts.

(** C2, as amended: when [REF(mat, pivots=True)] returns [(R, p)], for each
    pivot column [j] the entry [R[p[j], j]] is the exact ball 1 and every entry
    [R[i, j]] below it is the exact ball 0; in particular the rows beyond the
    first [len(p)] ones are 0 in every pivot column. *)
Theorem REF_pivot_columns {B : Type} `{Ball B} (mat : matrix B)
        (transformation : bool) (o : REF_out) (p : pivots) :
  REF mat transformation true [] = Ok o -> out_p o = Some p ->
  forall j pj, In (j, pj) p ->
    entry (rows (out_R o)) pj j = one /\
    (forall i, pj < i < nrows mat -> entry (rows (out_R o)) i j = zero) /\
    (forall i, length p <= i < nrows mat -> entry (rows (out_R o)) i j = zero).
Proof.
  intros E Hp j pj Hin.
  apply REF_Ok in E as (_ & HR & Hp' & _).
  rewrite Hp in Hp'; injection Hp' as ->.
  destruct (REF_state_pivots mat (wf_pivots_nil (nrows mat) (ncols mat))) as [Hwf _].
  assert (HT := REF_state_shape mat []). destruct HT as [HT _].
  destruct (REF_R_spec mat _ HT Hwf) as [_ Hen].
  rewrite HR.
  assert (Hl : lookup j (snd (REF_state mat [])) = Some pj)
    by (apply lookup_In; auto; apply Hwf).
  destruct (wf_pivots_row j pj Hwf Hin) as [Hpj _].
  assert (Hbelow : forall i, pj < i < nrows mat ->
            entry (rows (REF_R mat (fst (REF_state mat [])) (snd (REF_state mat [])))) i j = zero).
  { intros i Hi. rewrite Hen, Hl.
    destruct (Nat.eqb_spec i pj); [lia|].
    destruct (Nat.ltb_spec pj i), (Nat.ltb_spec i (nrows mat)); try lia. reflexivity. }
  repeat split.
  - rewrite Hen, Hl. now rewrite Nat.eqb_refl.
  - exact Hbelow.
  - intros i Hi. apply Hbelow. lia.
Qed.

Lemma REF_pivot_columns_witness :
  exists o, REF Exact.sample false true [] = Ok o /\
            entry (rows (out_R o)) 1 1 = Q2Qc 1 /\
            entry (rows (out_R o)) 2 1 = Q2Qc 0.
Proof.
  destruct (REF Exact.sample false true []) as [o|e] eqn:E;
    [|vm_compute in E; discriminate].
  exists o; split; auto.
  assert (Hp : out_p o = Some [(0, 0); (1, 1)])
    by (vm_compute in E; injection E as <-; reflexivity).
  destruct (@REF_pivot_columns _ _ Exact.sample false o _ E Hp 1 1) as (H1 & H2 & _).
  - simpl; auto.
  - split; [exact H1 | apply H2; simpl; lia].
Defined.

(** C2, as stated, fails: the row of [vague] lies beyond the pivots (there is
    none) and its entry contains 1. *)
Lemma zero_rows_beyond_pivots_fails : ~ zero_rows_beyond_pivots MidRad.vague.
Proof.
  intros Hz.
  assert (H0 := Hz _ [] eq_refl eq_refl 0 0).
  cbv beta in H0.
  assert (H1 : Q2Qc 1 = Q2Qc 0).
  { apply H0; simpl; try lia.
    unfold MidRad.mcontains; simpl. discriminate. }
  discriminate H1.
Qed.

(** On [late] the last row of R is not even a row that may be zero: its
    middle entry is the exact ball 1/2. *)
Lemma late_row_certified_nonzero :
  exists o, REF MidRad.late false true [] = Ok o /\
            out_p o = Some [(0, 0); (2, 1)] /\
            is_nonzero (entry (rows (out_R o)) 2 1) = true.
Proof.
  destruct (REF MidRad.late false true []) as [o|e] eqn:E;
    [|vm_compute in E; discriminate].
  exists o. vm_compute in E. injection E as <-.
  repeat split; vm_compute; reflexivity.
Qed.

(** C5, as stated, fails: a second run on the output for [late] finds a
    pivot in the column the first run left aside. *)
Lemma REF_idempotent_fails : ~ REF_idempotent MidRad.late.
Proof.
  intros Hi. unfold REF_idempotent in Hi.
  destruct (REF MidRad.late false true []) as [o|e] eqn:E;
    [|vm_compute in E; discriminate].
  assert (H0 := Hi o [(0, 0); (2, 1)] eq_refl).
  vm_compute in E. injection E as <-.
  specialize (H0 eq_refl).
  vm_compute in H0. discriminate H0.
Qed.

(** C4: with indices of [prec_pivots] in range, REF raises PrecisionError
    exactly when a transformation is asked for and the enclosure of its
    determinant contains zero; it raises nothing else, and without
    [transformation] (and without [prec_pivots]) it returns on every matrix. *)
Theorem REF_raises_iff {B : Type} `{Ball B} (mat : matrix B)
        (transformation pivots_flag : bool) (prec_pivots : pivots) :
  valid_pivots (nrows mat) (ncols mat) prec_pivots = true ->
  (REF mat transformation pivots_flag prec_pivots = Raise PrecisionError <->
   transformation = true /\
   contains_zero (det (fst (REF_state mat prec_pivots))) = true) /\
  (forall e, REF mat transformation pivots_flag prec_pivots = Raise e ->
             e = PrecisionError) /\
  (exists o, REF mat false pivots_flag [] = Ok o).
Proof.
  intros Hv. unfold REF. rewrite Hv; simpl.
  destruct (REF_state mat prec_pivots) as [T p]; simpl.
  repeat split.
  - destruct transformation; [|discriminate].
    destruct (contains_zero (det T)); [auto|discriminate].
  - destruct transformation; [|discriminate].
    destruct (contains_zero (det T)); [auto|discriminate].
  - intros [-> ->]. reflexivity.
  - intros e. destruct transformation.
    + destruct (contains_zero (det T)); [|discriminate]. now intros [= <-].
    + discriminate.
  - destruct (REF_state mat []) as [T0 p0]. eexists; reflexivity.
Qed.

Lemma REF_raises_iff_witness :
  REF MidRad.late true true [] <> Raise PrecisionError /\
  exists o, REF MidRad.late false true [] = Ok o.
Proof.
  destruct (@REF_raises_iff _ _ MidRad.late true true [] eq_refl) as (H1 & _ & H3).
  split; [|exact H3].
  intros E. apply H1 in E as [_ E]. vm_compute in E. discriminate E.
Defined.

(* ================================================================== *)
(** ** The exact effect of the steps of REF *)

Section GenericSteps.
Context {A : Type} `{Arith A}.

Lemma entry_replay_col (M : list (list A)) (m r : nat) (T : list (list A))
      (j pj a k : nat) :
  length T = m -> pj < r -> r <= m -> k < m ->
  entry (replay_col M m r T (j, pj)) a k =
  if (r <=? a) && (a <? m)
  then sub (entry T a k)
           (mul (nth a (mulmv T (column j M)) zero) (entry T pj k))
  else entry T a k.
Proof.
  intros HT Hpj Hr Hk. unfold replay_col; cbn [fst snd].
  rewrite entry_fold_row_sub
    with (c := fun i => nth i (mulmv T (column j M)) zero); auto.
  - rewrite existsb_seq. now replace (r + (m - r)) with m by lia.
  - apply seq_NoDup.
  - rewrite in_seq; lia.
  - intros l Hl; apply in_seq in Hl; lia.
Qed.

Lemma nth_mulmv_column (m : nat) (T M : list (list A)) (j l : nat) :
  shape m m T -> length M = m -> l < m ->
  nth l (mulmv T (column j M)) zero = prod_entry m T M l j.
Proof.
  intros HT HM Hl. unfold prod_entry.
  rewrite (nth_mulmv (m := m)).
  - apply sumn_ext; intros k _. now rewrite nth_column.
  - destruct HT; lia.
  - now apply shape_row with (m := m).
  - now rewrite column_length.
Qed.

End GenericSteps.

Section ExactSteps.
Context {F : Type} `{Field F}.

Add Field true_values_steps : field_laws.

Lemma div_zero_l (c : F) : div zero c = zero.
Proof. rewrite div_def; ring. Qed.

Lemma prod_entry_pivot_step (m : nat) (T : list (list F)) (col : list F)
      (M : list (list F)) (i r a b : nat) :
  length T = m -> length col = m -> r <= i -> i < m -> a < m ->
  prod_entry m (pivot_step m T col i r) M a b =
  if a <? r then prod_entry m T M a b
  else if Nat.eqb a r then div (prod_entry m T M i b) (nth i col zero)
  else sub (prod_entry m T M (transpose_index i r a) b)
           (mul (nth (transpose_index i r a) col zero)
                (div (prod_entry m T M i b) (nth i col zero))).
Proof.
  intros HT Hcol Hri Hi Ha. unfold prod_entry.
  rewrite (sumn_ext
    (fun k => mul (entry (pivot_step m T col i r) a k) (entry M k b))
    (fun k => mul (if a <? r then entry T a k
                   else if Nat.eqb a r then div (entry T i k) (nth i col zero)
                   else sub (entry T (transpose_index i r a) k)
                            (mul (nth (transpose_index i r a) col zero)
                                 (div (entry T i k) (nth i col zero))))
                  (entry M k b))).
  2:{ intros k Hk. now rewrite entry_pivot_step. }
  destruct (a <? r); auto.
  destruct (Nat.eqb a r).
  - rewrite div_def, <- sumn_scale_r. apply sumn_ext; intros k _.
    rewrite div_def; ring.
  - rewrite div_def.
    rewrite <- sumn_scale_r, <- sumn_scale, <- sumn_sub.
    apply sumn_ext; intros k _. rewrite div_def; ring.
Qed.

Lemma prod_entry_replay_col (M' M : list (list F)) (m r : nat) (T : list (list F))
      (j pj a b : nat) :
  length T = m -> pj < r -> r <= m ->
  prod_entry m (replay_col M' m r T (j, pj)) M a b =
  if (r <=? a) && (a <? m)
  then sub (prod_entry m T M a b)
           (mul (nth a (mulmv T (column j M')) zero) (prod_entry m T M pj b))
  else prod_entry m T M a b.
Proof.
  intros HT Hpj Hr. unfold prod_entry.
  rewrite (sumn_ext
    (fun k => mul (entry (replay_col M' m r T (j, pj)) a k) (entry M k b))
    (fun k => mul (if (r <=? a) && (a <? m)
                   then sub (entry T a k)
                            (mul (nth a (mulmv T (column j M')) zero) (entry T pj k))
                   else entry T a k)
                  (entry M k b))).
  2:{ intros k Hk. now rewrite entry_replay_col. }
  destruct ((r <=? a) && (a <? m)); auto.
  rewrite <- sumn_scale, <- sumn_sub. apply sumn_ext; intros k _. ring.
Qed.

(** A row of the identity picks a row of [M]. *)
Lemma prod_entry_unit_row (m : nat) (T M : list (list F)) (a b : nat) :
  a < m -> (forall k, k < m -> entry T a k = delta a k) ->
  prod_entry m T M a b = entry M a b.
Proof.
  intros Ha Hrow. unfold prod_entry.
  rewrite (sumn_ext _ (fun k => mul (delta a k) (entry M k b))).
  - rewrite sumn_delta.
    now replace (a <? m) with true by (symmetry; apply Nat.ltb_lt; lia).
  - intros k Hk. now rewrite Hrow.
Qed.

End ExactSteps.

(* ================================================================== *)
(** ** The balls of REF contain the exact computation *)

Section Soundness.
Context {B F : Type} `{Enclosure B F}.

Add Field true_values_sound : field_laws.

Lemma contains_zero_zero : contains (zero : B) (zero : F).
Proof. now apply zero_exact. Qed.

Lemma contains_one_one : contains (one : B) (one : F).
Proof. now apply one_exact. Qed.

Lemma sumn_contains (f : nat -> B) (g : nat -> F) (n : nat) :
  (forall k, k < n -> contains (f k) (g k)) ->
  contains (sumn f n) (sumn g n).
Proof.
  induction n as [|n IH]; intros Hfg; simpl.
  - apply contains_zero_zero.
  - apply add_sound; auto.
Qed.

Lemma encloses_entry (m n : nat) (T : list (list B)) (Tx : list (list F)) (a k : nat) :
  encloses m n T Tx -> a < m -> k < n -> contains (entry T a k) (entry Tx a k).
Proof. intros (_ & _ & He); auto. Qed.

Lemma encloses_identity (m : nat) : encloses m m (identity m) (identity m).
Proof.
  repeat split; try apply shape_identity.
  intros a k Ha Hk. unfold entry, identity.
  rewrite !nth_map_seq with (d := []) by assumption.
  rewrite !nth_map_seq by assumption.
  destruct (Nat.eqb a k); [apply contains_one_one | apply contains_zero_zero].
Qed.

Lemma column_contains (m n : nat) (T M : list (list B)) (Tx Mx : list (list F))
      (j l : nat) :
  encloses m m T Tx -> encloses m n M Mx -> j < n -> l < m ->
  contains (nth l (mulmv T (column j M)) zero)
           (nth l (mulmv Tx (column j Mx)) zero).
Proof.
  intros (HT & HTx & HeT) (HM & HMx & HeM) Hj Hl.
  rewrite !nth_mulmv_column with (m := m); auto;
    try (destruct HM; assumption); try (destruct HMx; assumption).
  apply sumn_contains; intros k Hk. apply mul_sound; auto.
Qed.

Lemma encloses_pivot_step (m : nat) (T : list (list B)) (Tx : list (list F))
      (col : list B) (colx : list F) (i r : nat) :
  encloses m m T Tx -> length col = m -> length colx = m ->
  (forall l, l < m -> contains (nth l col zero) (nth l colx zero)) ->
  r <= i -> i < m -> is_nonzero (nth i col zero) = true ->
  encloses m m (pivot_step m T col i r) (pivot_step m Tx colx i r).
Proof.
  intros (HT & HTx & He) Hc Hcx Hcol Hri Hi Hnz.
  repeat split; try (apply shape_pivot_step; auto; lia).
  intros a k Ha Hk.
  rewrite !entry_pivot_step; auto; try (destruct HT; assumption);
    try (destruct HTx; assumption).
  assert (Ht := @transpose_index_lt i r a m Hi ltac:(lia) Ha).
  destruct (a <? r); auto.
  destruct (Nat.eqb a r).
  - apply div_sound; auto.
  - apply sub_sound; auto. apply mul_sound; auto. apply div_sound; auto.
Qed.

Lemma encloses_replay_col (m n r : nat) (T M : list (list B))
      (Tx Mx : list (list F)) (j pj : nat) :
  encloses m m T Tx -> encloses m n M Mx -> j < n -> pj < r -> r <= m ->
  encloses m m (replay_col M m r T (j, pj)) (replay_col Mx m r Tx (j, pj)).
Proof.
  intros HTT HMM Hj Hpj Hr.
  assert (HTT' := HTT). destruct HTT' as (HT & HTx & He).
  repeat split; try (apply shape_replay_col; auto).
  intros a k Ha Hk.
  rewrite !entry_replay_col; auto; try (destruct HT; assumption);
    try (destruct HTx; assumption).
  destruct ((r <=? a) && (a <? m)); auto.
  apply sub_sound; auto. apply mul_sound.
  - apply (column_contains HTT HMM); auto.
  - apply He; auto; lia.
Qed.

Lemma mulmv_length {A : Type} `{Arith A} (T : list (list A)) (v : list A) :
  length (mulmv T v) = length T.
Proof. apply length_map. Qed.

End Soundness.

(* ================================================================== *)
(** ** The invariant of the loops of REF *)

Section Invariant.
Context {B F : Type} `{Enclosure B F}.

Add Field true_values_inv : field_laws.

Variables (m n r0 : nat).
Variable M : list (list B).
Variable Mx : list (list F).
Hypothesis HM : encloses m n M Mx.

(** What the exact transformation [Tx] satisfies along the loop over the
    columns, for the pivots [p] found so far. *)
Definition ref_inv (Tx : list (list F)) (p : pivots) : Prop :=
  shape m m Tx /\ keeps_rows m r0 Tx /\
  has_pivots m (prod_entry m Tx Mx) p /\ inv_rows m Tx.

Lemma Mx_length : length Mx = m.
Proof. destruct HM as (_ & [Hl _] & _); exact Hl. Qed.

Lemma M_length : length M = m.
Proof. destruct HM as ([Hl _] & _); exact Hl. Qed.

Lemma ref_col_sound (T : list (list B)) (Tx : list (list F)) (p : pivots) (j : nat) :
  j < n -> wf_pivots m n p -> r0 <= length p ->
  encloses m m T Tx -> ref_inv Tx p ->
  exists Tx', encloses m m (fst (ref_col M m (T, p) j)) Tx' /\
              ref_inv Tx' (snd (ref_col M m (T, p) j)).
Proof.
  intros Hj Hwf Hr0 HT (HTx & Hkeep & Hpiv & Hinv).
  unfold ref_col.
  destruct (mem_key j p) eqn:Ek;
    [exists Tx; split; [exact HT | unfold ref_inv; tauto]|].
  destruct (find_pivot _ _ _) as [i|] eqn:Ef;
    [|exists Tx; split; [exact HT | unfold ref_inv; tauto]].
  apply find_pivot_Some in Ef as (Hri & Him & Hnz).
  set (r := length p) in *.
  set (col := mulmv T (column j M)) in *.
  set (colx := mulmv Tx (column j Mx)).
  assert (HlT : length T = m) by (destruct HT as ([? _] & _); assumption).
  assert (HlTx : length Tx = m) by (destruct HTx; assumption).
  assert (Hcl : length col = m) by (unfold col; now rewrite mulmv_length).
  assert (Hclx : length colx = m) by (unfold colx; now rewrite mulmv_length).
  assert (Hcc : forall l, l < m -> contains (nth l col zero) (nth l colx zero)).
  { intros l Hl. now apply (column_contains HT HM). }
  assert (Hcx : forall l, l < m -> nth l colx zero = prod_entry m Tx Mx l j).
  { intros l Hl. apply nth_mulmv_column; auto. apply Mx_length. }
  assert (Hc0 : nth i colx zero <> zero).
  { apply (is_nonzero_sound (nth i col zero)); auto. }
  exists (pivot_step m Tx colx i r). cbn [fst snd]. split.
  - now apply encloses_pivot_step.
  - split; [|split; [|split]].
    + apply shape_pivot_step; auto; lia.
    + intros a k Ha Hk. rewrite entry_pivot_step; auto; try lia.
      replace (a <? r) with true by (symmetry; apply Nat.ltb_lt; lia).
      now apply Hkeep.
    + intros j' pj' Hin. apply in_app_or in Hin as [Hin|[E|[]]].
      * destruct (wf_pivots_row j' pj' Hwf Hin) as [Hpj' _]. fold r in Hpj'.
        destruct (Hpiv j' pj' Hin) as [Hone Hzer]. split.
        -- rewrite prod_entry_pivot_step; auto; try lia.
           now replace (pj' <? r) with true by (symmetry; apply Nat.ltb_lt; lia).
        -- intros a Hpa Ha. rewrite prod_entry_pivot_step; auto.
           assert (Ht := @transpose_index_lt i r a m Him ltac:(lia) Ha).
           destruct (Nat.ltb_spec a r) as [Har|Har]; [now apply Hzer|].
           assert (Hg := @transpose_index_ge i r a Hri Har).
           rewrite (Hzer i) by lia. rewrite div_zero_l.
           destruct (Nat.eqb a r); auto.
           rewrite (Hzer (transpose_index i r a)) by lia. ring.
      * injection E as <- <-. split.
        -- rewrite prod_entry_pivot_step; auto; try lia.
           rewrite Nat.ltb_irrefl, Nat.eqb_refl.
           rewrite <- Hcx by assumption. now apply div_self.
        -- intros a Hra Ha. rewrite prod_entry_pivot_step; auto.
           assert (Ht := @transpose_index_lt i r a m Him ltac:(lia) Ha).
           replace (a <? r) with false by (symmetry; apply Nat.ltb_ge; lia).
           destruct (Nat.eqb_spec a r); [lia|].
           rewrite <- !Hcx by assumption. rewrite div_self by assumption. ring.
    + apply inv_rows_pivot_step; auto.
Qed.

Lemma fold_ref_col_sound (js : list nat) (T : list (list B)) (Tx : list (list F))
      (p : pivots) :
  (forall j, In j js -> j < n) -> wf_pivots m n p -> r0 <= length p ->
  encloses m m T Tx -> ref_inv Tx p ->
  exists Tx', encloses m m (fst (fold_left (ref_col M m) js (T, p))) Tx' /\
              ref_inv Tx' (snd (fold_left (ref_col M m) js (T, p))).
Proof.
  revert T Tx p; induction js as [|j js IH]; intros T Tx p Hjs Hwf Hr0 HT Hinv.
  - exists Tx; split; auto.
  - cbn [fold_left].
    assert (Hj : j < n) by (apply Hjs; now left).
    destruct (@ref_col_sound T Tx p j Hj Hwf Hr0 HT Hinv) as (Tx' & HT' & Hinv').
    destruct (@ref_col_pivots _ _ M m n T p j Hwf Hj) as [Hwf' [q Hq]].
    destruct (ref_col M m (T, p) j) as [T' p'] eqn:E. cbn [fst snd] in *.
    apply (IH T' Tx' p'); auto.
    + intros x Hx; apply Hjs; now right.
    + rewrite Hq, length_app; lia.
Qed.

End Invariant.

Lemma pivots_split_rows (p q rest : pivots) (j pj : nat) :
  map snd p = seq 0 (length p) -> p = q ++ (j, pj) :: rest ->
  pj = length q /\ forall j' pj', In (j', pj') q -> pj' < length q.
Proof.
  intros Hrows ->. rewrite map_app, length_app in Hrows. cbn in Hrows.
  assert (Hn : nth (length q) (map snd q ++ pj :: map snd rest) 0 = pj).
  { rewrite app_nth2 by (rewrite length_map; lia).
    now rewrite length_map, Nat.sub_diag. }
  rewrite Hrows in Hn. rewrite seq_nth in Hn by lia. split; [lia|].
  intros j' pj' Hin.
  assert (Hin' : In pj' (map snd q)) by (apply in_map_iff; now exists (j', pj')).
  apply In_nth with (d := 0) in Hin' as (k & Hk & Ek).
  rewrite length_map in Hk.
  assert (E : nth k (map snd q ++ pj :: map snd rest) 0 = pj')
    by (rewrite app_nth1; auto; now rewrite length_map).
  rewrite Hrows, seq_nth in E by lia. lia.
Qed.

Lemma lookup_Some_In (p : pivots) (j pj : nat) :
  lookup j p = Some pj -> In (j, pj) p.
Proof.
  unfold lookup. destruct (find _ p) as [[j' pj']|] eqn:Ef; [|discriminate].
  intros [= <-]. apply find_some in Ef as [Hin E]. cbn in E.
  apply Nat.eqb_eq in E; now subst.
Qed.

Section Replay.
Context {B F : Type} `{Enclosure B F}.

Add Field true_values_replay : field_laws.

Variables (m n : nat).
Variable M : list (list B).
Variable Mx : list (list F).
Hypothesis HM : encloses m n M Mx.
Variable p0 : pivots.
Hypothesis Hwf : wf_pivots m n p0.
Hypothesis Hassume : has_pivots (length p0) (of_rows Mx) p0.

(** After the pivots [q] of [prec_pivots] are replayed. *)
Definition replay_inv (Tx : list (list F)) (q : pivots) : Prop :=
  shape m m Tx /\ keeps_rows m (length p0) Tx /\
  (forall j pj, In (j, pj) q -> forall i, length p0 <= i -> i < m ->
                prod_entry m Tx Mx i j = zero) /\
  inv_rows m Tx.

Lemma replay_col_sound (T : list (list B)) (Tx : list (list F))
      (q rest : pivots) (j pj : nat) :
  p0 = q ++ (j, pj) :: rest ->
  encloses m m T Tx -> replay_inv Tx q ->
  encloses m m (replay_col M m (length p0) T (j, pj))
               (replay_col Mx m (length p0) Tx (j, pj)) /\
  replay_inv (replay_col Mx m (length p0) Tx (j, pj)) (q ++ [(j, pj)]).
Proof.
  intros Hp HT (HTx & Hkeep & Hz & Hinv).
  assert (Hwf' := Hwf). destruct Hwf' as (Hrows & _ & _ & Hlen).
  destruct (@pivots_split_rows p0 q rest j pj Hrows Hp) as [Epj Hq].
  assert (Hin0 : In (j, pj) p0) by (rewrite Hp; apply in_or_app; right; now left).
  destruct (wf_pivots_row j pj Hwf Hin0) as [Hpj Hj].
  assert (HlTx : length Tx = m) by (destruct HTx; assumption).
  assert (HlMx : length Mx = m) by (destruct HM as (_ & [? _] & _); assumption).
  assert (Hunit : forall b, prod_entry m Tx Mx pj b = entry Mx pj b).
  { intros b. apply prod_entry_unit_row; [lia|]. intros k Hk. now apply Hkeep. }
  split; [now apply encloses_replay_col with (n := n)|].
  split; [|split; [|split]].
  - now apply shape_replay_col.
  - intros a k Ha Hk. rewrite entry_replay_col; auto.
    replace (length p0 <=? a) with false by (symmetry; apply Nat.leb_gt; lia).
    now apply Hkeep.
  - intros j' pj' Hin i Hi Him.
    rewrite prod_entry_replay_col; auto.
    replace (length p0 <=? i) with true by (symmetry; apply Nat.leb_le; lia).
    replace (i <? m) with true by (symmetry; apply Nat.ltb_lt; lia). cbn.
    rewrite Hunit.
    apply in_app_or in Hin as [Hin|[E|[]]].
    + rewrite (Hz j' pj' Hin i Hi Him).
      assert (Hin' : In (j', pj') p0) by (rewrite Hp; apply in_or_app; now left).
      destruct (Hassume j' pj' Hin') as [_ Hbelow].
      unfold of_rows in Hbelow. rewrite (Hbelow pj); [ring| |lia].
      specialize (Hq j' pj' Hin). lia.
    + injection E as <- <-.
      destruct (Hassume j pj Hin0) as [Hone _]. unfold of_rows in Hone.
      rewrite Hone. rewrite nth_mulmv_column with (m := m); auto. ring.
  - apply inv_rows_replay_col; auto.
Qed.

Lemma fold_replay_sound (rest q : pivots) (T : list (list B)) (Tx : list (list F)) :
  p0 = q ++ rest -> encloses m m T Tx -> replay_inv Tx q ->
  exists Tx', encloses m m (fold_left (replay_col M m (length p0)) rest T) Tx' /\
              replay_inv Tx' p0.
Proof.
  revert q T Tx; induction rest as [|[j pj] rest IH]; intros q T Tx Hp HT Hinv.
  - rewrite app_nil_r in Hp; subst q. exists Tx; split; auto.
  - cbn [fold_left].
    destruct (@replay_col_sound T Tx q rest j pj Hp HT Hinv) as [HT' Hinv'].
    apply (IH (q ++ [(j, pj)]) _ (replay_col Mx m (length p0) Tx (j, pj))); auto.
    rewrite Hp, <- app_assoc. reflexivity.
Qed.

Lemma replay_sound :
  exists Tx, encloses m m (fold_left (replay_col M m (length p0)) p0 (identity m)) Tx /\
             ref_inv m (length p0) Mx Tx p0.
Proof.
  destruct (@fold_replay_sound p0 [] (identity m) (identity m)) as (Tx & HT & Hinv); auto.
  - apply encloses_identity.
  - split; [|split; [|split]].
    + apply shape_identity.
    + intros a k Ha Hk. unfold entry, identity, delta.
      destruct Hwf as (_ & _ & _ & Hlen).
      rewrite nth_map_seq with (d := []) by lia. now rewrite nth_map_seq.
    + intros j pj [].
    + apply inv_rows_identity.
  - exists Tx; split; auto.
    destruct Hinv as (HTx & Hkeep & Hz & Hinv).
    split; [|split; [|split]]; auto.
    intros j pj Hin.
    destruct (wf_pivots_row j pj Hwf Hin) as [Hpj Hj].
    destruct Hwf as (_ & _ & _ & Hlen).
    destruct (Hassume j pj Hin) as [Hone Hbelow]. unfold of_rows in Hone, Hbelow.
    split.
    + rewrite prod_entry_unit_row;
        [exact Hone | lia | intros k Hk; now apply Hkeep].
    + intros i Hi Him. destruct (Nat.lt_ge_cases i (length p0)) as [Hlt|Hge].
      * rewrite prod_entry_unit_row;
          [now apply Hbelow | lia | intros k Hk; now apply Hkeep].
      * now apply (Hz j pj Hin).
Qed.

End Replay.

(* ================================================================== *)
(** ** REF is sound *)

Lemma Forall2_of_nth {X Y : Type} (P : X -> Y -> Prop) (d : X) (e : Y)
      (u : list X) (v : list Y) :
  length u = length v ->
  (forall k, k < length u -> P (nth k u d) (nth k v e)) -> Forall2 P u v.
Proof.
  revert v; induction u as [|x u IH]; intros [|y v] Hl Hn; simpl in *;
    try discriminate; constructor.
  - apply (Hn 0); lia.
  - apply IH; [lia|]. intros k Hk. apply (Hn (S k)); lia.
Qed.

Lemma Forall2_nth_rel {X Y : Type} (P : X -> Y -> Prop) (d : X) (e : Y)
      (u : list X) (v : list Y) (k : nat) :
  Forall2 P u v -> k < length u -> P (nth k u d) (nth k v e).
Proof.
  intros HF; revert k; induction HF; intros [|k] Hk; simpl in *; try lia; auto.
  apply IHHF; lia.
Qed.

Lemma rows_ext {X : Type} (d : X) (m n : nat) (U V : list (list X)) :
  shape m n U -> shape m n V ->
  (forall a b, a < m -> b < n -> nth b (nth a U []) d = nth b (nth a V []) d) ->
  U = V.
Proof.
  intros HU HV He.
  apply nth_ext with (d := []) (d' := []).
  - destruct HU, HV; congruence.
  - intros a Ha. assert (Ha' : a < m) by (destruct HU; lia).
    apply nth_ext with (d := d) (d' := d).
    + now rewrite (shape_row HU Ha'), (shape_row HV Ha').
    + intros b Hb. rewrite (shape_row HU Ha') in Hb. now apply He.
Qed.

Section Conversions.
Context {B F : Type} `{Enclosure B F}.

Lemma encloses_rows (m n : nat) (T : list (list B)) (Tx : list (list F)) :
  encloses m n T Tx -> contains_rows T Tx.
Proof.
  intros (HT & HTx & He).
  apply Forall2_of_nth with (d := []) (e := []).
  - destruct HT, HTx; congruence.
  - intros a Ha. assert (Ha' : a < m) by (destruct HT; lia).
    apply Forall2_of_nth with (d := zero) (e := zero).
    + now rewrite (shape_row HT Ha'), (shape_row HTx Ha').
    + intros k Hk. rewrite (shape_row HT Ha') in Hk. now apply He.
Qed.

Lemma rows_encloses (m n : nat) (T : list (list B)) (Tx : list (list F)) :
  shape m n T -> contains_rows T Tx -> encloses m n T Tx.
Proof.
  intros HT HF.
  assert (HTx : shape m n Tx).
  { destruct HT as [Hm Hn]. split.
    - rewrite <- Hm. symmetry. eapply Forall2_length; eauto.
    - clear Hm. induction HF; constructor; inversion Hn; subst; auto.
      symmetry. eapply Forall2_length; eauto. }
  split; [|split]; auto.
  intros a k Ha Hk. unfold entry.
  apply Forall2_nth_rel.
  - apply (Forall2_nth_rel (P := contains_vec)); auto. destruct HT; lia.
  - now rewrite (shape_row HT Ha).
Qed.

Lemma contains_mat_encloses (M : matrix B) (Mx : matrix F) :
  wf_matrix M -> contains_mat M Mx ->
  encloses (nrows M) (ncols M) (rows M) (rows Mx).
Proof. intros Hwf (_ & _ & HF). now apply rows_encloses. Qed.

End Conversions.

Section REFSound.
Context {B F : Type} `{Enclosure B F}.

Add Field true_values_ref : field_laws.

Lemma REF_sound (mat : matrix B) (Mx : list (list F)) (p0 : pivots) :
  encloses (nrows mat) (ncols mat) (rows mat) Mx ->
  wf_pivots (nrows mat) (ncols mat) p0 ->
  has_pivots (length p0) (of_rows Mx) p0 ->
  exists Tx,
    encloses (nrows mat) (nrows mat) (fst (REF_state mat p0)) Tx /\
    ref_inv (nrows mat) (length p0) Mx Tx (snd (REF_state mat p0)) /\
    encloses (nrows mat) (ncols mat)
      (rows (REF_R mat (fst (REF_state mat p0)) (snd (REF_state mat p0))))
      (matmul (ncols mat) Tx Mx).
Proof.
  intros HM Hwf Hass.
  destruct (REF_state_pivots mat Hwf) as [Hwf' _].
  assert (HlT := REF_state_shape mat p0). destruct HlT as [HlT _].
  destruct (REF_R_spec mat _ HlT Hwf') as [HshR HenR].
  unfold REF_state in *.
  destruct (@replay_sound _ _ _ _ _ (nrows mat) (ncols mat) (rows mat) Mx HM p0 Hwf Hass)
    as (Tx1 & HT1 & Hinv1).
  assert (Hjs : forall j, In j (seq 0 (ncols mat)) -> j < ncols mat)
    by (intros j Hj; apply in_seq in Hj; lia).
  destruct (@fold_ref_col_sound _ _ _ _ _ (nrows mat) (ncols mat) (length p0)
              (rows mat) Mx HM (seq 0 (ncols mat))
              (fold_left (replay_col (rows mat) (nrows mat) (length p0)) p0
                         (identity (nrows mat)))
              Tx1 p0 Hjs Hwf (le_n _) HT1 Hinv1) as (Tx & HT & Hinv).
  exists Tx. split; [exact HT|]. split; [exact Hinv|].
  set (T := fst (fold_left (ref_col (rows mat) (nrows mat)) (seq 0 (ncols mat))
                   (fold_left (replay_col (rows mat) (nrows mat) (length p0)) p0
                      (identity (nrows mat)), p0))) in *.
  set (p := snd (fold_left (ref_col (rows mat) (nrows mat)) (seq 0 (ncols mat))
                   (fold_left (replay_col (rows mat) (nrows mat) (length p0)) p0
                      (identity (nrows mat)), p0))) in *.
  destruct Hinv as (HTx & _ & Hpiv & _).
  assert (HlTx : length Tx = nrows mat) by (destruct HTx; assumption).
  assert (HlM : length (rows mat) = nrows mat) by (destruct HM as ([? _] & _); assumption).
  assert (HlMx : length Mx = nrows mat) by (destruct HM as (_ & [? _] & _); assumption).
  split; [exact HshR|]. split.
  { rewrite <- HlTx. apply shape_matmul. }
  intros a b Ha Hb. rewrite HenR.
  rewrite (entry_matmul (m := nrows mat) (n := ncols mat) Tx Mx); auto;
    try lia; try (now apply shape_row with (m := nrows mat)).
  assert (Hprod : contains (entry (matmul (ncols mat) T (rows mat)) a b)
                           (prod_entry (nrows mat) Tx Mx a b)).
  { rewrite (entry_matmul (m := nrows mat) (n := ncols mat) T (rows mat)); auto;
      try lia.
    - apply sumn_contains; intros k Hk. apply mul_sound.
      + now apply (encloses_entry HT).
      + now apply (encloses_entry HM).
    - destruct HT as (HsT & _). now apply shape_row with (m := nrows mat). }
  destruct (lookup b p) as [pj|] eqn:El; auto.
  apply lookup_Some_In in El. destruct (Hpiv b pj El) as [Hone Hzer].
  destruct (Nat.eqb_spec a pj) as [->|Hne].
  - rewrite Hone. apply contains_one_one.
  - destruct (Nat.ltb_spec pj a), (Nat.ltb_spec a (nrows mat));
      cbn [andb]; auto; try lia.
    rewrite Hzer by assumption. apply contains_zero_zero.
Qed.

End REFSound.

(* ================================================================== *)
(** ** The transformation of REF *)

Section Invertible.
Context {F : Type} `{Field F}.

Lemma inv_rows_invertible (m : nat) (Tx : list (list F)) :
  shape m m Tx -> inv_rows m Tx -> invertible (Mat m m Tx).
Proof.
  intros HTx (U & HU1 & HU2). split; [reflexivity|]. cbn [nrows rows].
  set (Ul := map (fun a => map (fun k => U a k) (seq 0 m)) (seq 0 m)).
  assert (HUl : shape m m Ul).
  { split; [apply map_seq_length|].
    apply Forall_forall; intros row Hr. apply in_map_iff in Hr as (a & <- & _).
    apply map_seq_length. }
  assert (HeU : forall a k, a < m -> k < m -> entry Ul a k = U a k).
  { intros a k Ha Hk. unfold entry, Ul.
    rewrite nth_map_seq with (d := []) by assumption. now rewrite nth_map_seq. }
  assert (HeI : forall a b, a < m -> b < m ->
            entry (identity m) a b = (delta a b : F)).
  { intros a b Ha Hb. unfold entry, identity.
    rewrite nth_map_seq with (d := []) by assumption. now rewrite nth_map_seq. }
  assert (HlT : length Tx = m) by (destruct HTx; assumption).
  assert (HlU : length Ul = m) by (destruct HUl; assumption).
  exists Ul. split; [exact HUl|]. split.
  - apply rows_ext with (d := zero) (m := m) (n := m).
    + rewrite <- HlU at 1. apply shape_matmul.
    + apply shape_identity.
    + intros a b Ha Hb.
      change (entry (matmul m Ul Tx) a b = entry (identity m) a b).
      rewrite (entry_matmul (m := m)); auto; try lia;
        [|now apply shape_row with (m := m)].
      rewrite HeI by assumption. rewrite <- (HU1 a b Ha Hb).
      unfold prod_entry, fmul, of_rows. apply sumn_ext; intros k Hk.
      now rewrite HeU.
  - apply rows_ext with (d := zero) (m := m) (n := m).
    + rewrite <- HlT at 1. apply shape_matmul.
    + apply shape_identity.
    + intros a b Ha Hb.
      change (entry (matmul m Tx Ul) a b = entry (identity m) a b).
      rewrite (entry_matmul (m := m)); auto; try lia;
        [|now apply shape_row with (m := m)].
      rewrite HeI by assumption. rewrite <- (HU2 a b Ha Hb).
      unfold prod_entry, fmul, of_rows. apply sumn_ext; intros k Hk.
      now rewrite HeU.
Qed.

End Invertible.

(** Soundness of the transformation (point ii of the docstring of REF): when
    [REF(mat, transformation=True)] returns [(R, T)], every true matrix
    contained in [mat] has an invertible true matrix [Tx] contained in [T]
    whose product with it is a true matrix contained in [R]. *)
Theorem REF_transformation_sound {B F : Type} `{Enclosure B F}
        (mat : matrix B) (pivots_flag : bool) (o : REF_out) (T : matrix B)
        (matx : matrix F) :
  wf_matrix mat ->
  REF mat true pivots_flag [] = Ok o -> out_T o = Some T ->
  contains_mat mat matx ->
  exists Rx Tx : matrix F,
    contains_mat (out_R o) Rx /\ contains_mat T Tx /\
    Rx = mat_mul Tx matx /\ invertible Tx.
Proof.
  intros Hwf E HT Hc.
  assert (HM := contains_mat_encloses Hwf Hc).
  destruct Hc as (Hnr & Hnc & _).
  apply REF_Ok in E as (_ & HR & _ & HT' & _).
  rewrite HT in HT'; injection HT' as ->.
  assert (Hnil : has_pivots (length (@nil (nat * nat))) (of_rows (rows matx)) [])
    by (intros j pj []).
  destruct (@REF_sound _ _ _ _ _ mat (rows matx) [] HM
              (wf_pivots_nil (nrows mat) (ncols mat)) Hnil)
    as (Tx & HTT & Hinv & HRR).
  destruct Hinv as (HTx & _ & _ & Hinv).
  exists (mat_mul (Mat (nrows mat) (nrows mat) Tx) matx), (Mat (nrows mat) (nrows mat) Tx).
  split; [|split; [|split]].
  - rewrite HR. unfold contains_mat, mat_mul; cbn [nrows ncols rows].
    split; [reflexivity|]. split; [exact Hnc|].
    rewrite <- Hnc. eapply encloses_rows; eauto.
  - unfold contains_mat; cbn [nrows ncols rows].
    split; [reflexivity|]. split; [reflexivity|]. eapply encloses_rows; eauto.
  - reflexivity.
  - now apply inv_rows_invertible.
Qed.

Lemma REF_transformation_sound_witness :
  exists o Rx Tx,
    REF MidRad.late true true [] = Ok o /\
    contains_mat (out_R o) Rx /\ Rx = mat_mul Tx MidRad.late_true /\ invertible Tx.
Proof.
  destruct (REF MidRad.late true true []) as [o|e] eqn:E;
    [|vm_compute in E; discriminate].
  assert (HT : exists T, out_T o = Some T)
    by (vm_compute in E; injection E as <-; eexists; reflexivity).
  destruct HT as [T HT].
  assert (Hwf : wf_matrix MidRad.late) by (repeat constructor).
  assert (Hc : contains_mat MidRad.late MidRad.late_true).
  { split; [reflexivity|]. split; [reflexivity|].
    repeat constructor; apply Qle_bool_iff; reflexivity. }
  destruct (@REF_transformation_sound _ _ _ _ _ MidRad.late true o T
              MidRad.late_true Hwf E HT Hc) as (Rx & Tx & HR & _ & HRx & Hinv).
  exists o, Rx, Tx. auto.
Defined.

(* ================================================================== *)
(** ** The shape of what REF returns *)

Lemma NoDup_bounded_length (l : list nat) (n : nat) :
  NoDup l -> (forall x, In x l -> x < n) -> length l <= n.
Proof.
  intros Hnd Hlt.
  replace n with (length (seq 0 n)) at 1 by apply length_seq.
  apply NoDup_incl_length; auto.
  intros x Hx. apply in_seq. specialize (Hlt x Hx). lia.
Qed.

(** The pivot dictionary of REF: it starts with [prec_pivots], its keys are
    distinct columns of [mat], the pivot inserted in position [i] lies in row
    [i], and there are at most [min(m, n)] pivots. *)
Theorem REF_pivots_well_formed {B : Type} `{Ball B} (mat : matrix B)
        (transformation : bool) (prec_pivots : pivots) (o : REF_out) (p : pivots) :
  wf_pivots (nrows mat) (ncols mat) prec_pivots ->
  REF mat transformation true prec_pivots = Ok o -> out_p o = Some p ->
  (exists q, p = prec_pivots ++ q) /\
  NoDup (map fst p) /\
  (forall j, In j (map fst p) -> j < ncols mat) /\
  map snd p = seq 0 (length p) /\
  length p <= nrows mat /\ length p <= ncols mat.
Proof.
  intros Hwf E Hp.
  apply REF_Ok in E as (_ & _ & Hp' & _).
  rewrite Hp in Hp'; injection Hp' as ->.
  destruct (REF_state_pivots mat Hwf) as [(Hrows & Hnd & Hlt & Hlen) Hq].
  repeat split; auto.
  rewrite <- (length_map fst). now apply NoDup_bounded_length.
Qed.

Lemma REF_pivots_well_formed_witness :
  exists o, REF MidRad.late false true [(0, 0)] = Ok o /\
            exists q, out_p o = Some ([(0, 0)] ++ q).
Proof.
  destruct (REF MidRad.late false true [(0, 0)]) as [o|e] eqn:E;
    [|vm_compute in E; discriminate].
  exists o; split; auto.
  assert (Hp : exists p, out_p o = Some p)
    by (vm_compute in E; injection E as <-; eexists; reflexivity).
  destruct Hp as [p Hp].
  assert (Hwf : wf_pivots (nrows MidRad.late) (ncols MidRad.late) [(0, 0)]).
  { unfold wf_pivots; simpl. split; [reflexivity|].
    split; [constructor; [intros []|constructor]|].
    split; [intros j [<-|[]]; lia | lia]. }
  destruct (@REF_pivots_well_formed _ _ MidRad.late false [(0, 0)] o p Hwf E Hp)
    as ((q & ->) & _).
  now exists q.
Defined.

(** The dimensions of what REF returns: [R] has the dimensions of [mat] and
    rows of equal length, [T] is a square matrix of the size of the rows of
    [mat]. *)
Theorem REF_dimensions {B : Type} `{Ball B} (mat : matrix B)
        (transformation pivots_flag : bool) (prec_pivots : pivots) (o : REF_out) :
  wf_pivots (nrows mat) (ncols mat) prec_pivots ->
  REF mat transformation pivots_flag prec_pivots = Ok o ->
  nrows (out_R o) = nrows mat /\ ncols (out_R o) = ncols mat /\
  wf_matrix (out_R o) /\
  forall T, out_T o = Some T ->
            nrows T = nrows mat /\ ncols T = nrows mat /\ wf_matrix T.
Proof.
  intros Hwf E.
  apply REF_Ok in E as (_ & HR & _ & HT & _).
  destruct (REF_state_pivots mat Hwf) as [Hwf' _].
  assert (Hsh := REF_state_shape mat prec_pivots).
  assert (HlT : length (fst (REF_state mat prec_pivots)) = nrows mat)
    by (destruct Hsh; assumption).
  destruct (REF_R_spec mat _ HlT Hwf') as [HshR _].
  rewrite HR. split; [reflexivity|]. split; [reflexivity|]. split; [exact HshR|].
  intros T ET. rewrite ET in HT. destruct transformation; [|discriminate].
  injection HT as ->. split; [reflexivity|]. split; [reflexivity|]. exact Hsh.
Qed.

Lemma REF_dimensions_witness :
  exists o, REF Exact.sample true false [] = Ok o /\
            nrows (out_R o) = 3 /\ ncols (out_R o) = 3.
Proof.
  destruct (REF Exact.sample true false []) as [o|e] eqn:E;
    [|vm_compute in E; discriminate].
  exists o; split; auto.
  destruct (@REF_dimensions _ _ Exact.sample true false [] o
              (wf_pivots_nil _ _) E) as (H1 & H2 & _).
  split; assumption.
Defined.

(* ================================================================== *)
(** ** Resuming REF from certified pivots *)

(** REF resumed from [prec_pivots] (the docstring's assumption: the first
    [len(prec_pivots)] rows of the true matrix have a 1 at each pivot and zeros
    below it up to that row).  Then some invertible true matrix [Tx],
    contained in [T], maps the true matrix to a true matrix [Tx * matx]
    contained in [R]; that product keeps the first [len(prec_pivots)] rows of
    [matx] and has, for all the pivots returned, a 1 at the pivot and zeros
    below it down to the last row. *)
Theorem REF_resume_sound {B F : Type} `{Enclosure B F}
        (mat : matrix B) (transformation pivots_flag : bool)
        (prec_pivots : pivots) (o : REF_out) (matx : matrix F) :
  wf_matrix mat ->
  wf_pivots (nrows mat) (ncols mat) prec_pivots ->
  contains_mat mat matx ->
  has_pivots (length prec_pivots) (of_rows (rows matx)) prec_pivots ->
  REF mat transformation pivots_flag prec_pivots = Ok o ->
  exists Tx : matrix F,
    invertible Tx /\
    contains_mat (out_R o) (mat_mul Tx matx) /\
    (forall T, out_T o = Some T -> contains_mat T Tx) /\
    (forall a b, a < length prec_pivots -> b < ncols mat ->
       entry (rows (mat_mul Tx matx)) a b = entry (rows matx) a b) /\
    (forall p, out_p o = Some p ->
       has_pivots (nrows mat) (of_rows (rows (mat_mul Tx matx))) p).
Proof.
  intros Hwf Hwfp Hc Hass E.
  assert (HM := contains_mat_encloses Hwf Hc).
  destruct Hc as (Hnr & Hnc & _).
  apply REF_Ok in E as (_ & HR & Hp & HT & _).
  destruct (@REF_sound _ _ _ _ _ mat (rows matx) prec_pivots HM Hwfp Hass)
    as (Tx & HTT & Hinv & HRR).
  destruct (REF_state_pivots mat Hwfp) as [Hwf' _].
  destruct Hinv as (HTx & Hkeep & Hpiv & Hinv).
  assert (HlTx : length Tx = nrows mat) by (destruct HTx; assumption).
  assert (HlMx : length (rows matx) = nrows mat)
    by (destruct HM as (_ & [? _] & _); assumption).
  assert (Hent : forall a b, a < nrows mat -> b < ncols mat ->
            entry (matmul (ncols matx) Tx (rows matx)) a b =
            prod_entry (nrows mat) Tx (rows matx) a b).
  { intros a b Ha Hb. apply entry_matmul; auto; try lia.
    now apply shape_row with (m := nrows mat). }
  exists (Mat (nrows mat) (nrows mat) Tx).
  split; [now apply inv_rows_invertible|].
  unfold mat_mul; cbn [nrows ncols rows].
  split; [|split; [|split]].
  - rewrite HR. unfold contains_mat; cbn [nrows ncols rows].
    split; [reflexivity|]. split; [exact Hnc|].
    rewrite <- Hnc. eapply encloses_rows; eauto.
  - intros T ET. rewrite ET in HT. destruct transformation; [|discriminate].
    injection HT as ->. unfold contains_mat; cbn [nrows ncols rows].
    split; [reflexivity|]. split; [reflexivity|]. eapply encloses_rows; eauto.
  - intros a b Ha Hb. destruct Hwfp as (_ & _ & _ & Hlen).
    rewrite Hent by lia.
    apply prod_entry_unit_row; [lia|]. intros k Hk. now apply Hkeep.
  - intros p Ep. rewrite Ep in Hp. destruct pivots_flag; [|discriminate].
    injection Hp as ->. intros j pj Hin.
    destruct (wf_pivots_row j pj Hwf' Hin) as [Hpj Hj].
    destruct Hwf' as (_ & _ & _ & Hlen).
    destruct (Hpiv j pj Hin) as [Hone Hzer]. unfold of_rows. split.
    + rewrite Hent by lia. exact Hone.
    + intros i Hi Him. rewrite Hent by lia. now apply Hzer.
Qed.

Lemma REF_resume_sound_witness :
  exists o (Tx : matrix Qc),
    REF MidRad.late true true [(0, 0)] = Ok o /\ invertible Tx /\
    contains_mat (out_R o) (mat_mul Tx MidRad.late_true).
Proof.
  destruct (REF MidRad.late true true [(0, 0)]) as [o|e] eqn:E;
    [|vm_compute in E; discriminate].
  assert (Hwf : wf_matrix MidRad.late) by (repeat constructor).
  assert (Hwfp : wf_pivots (nrows MidRad.late) (ncols MidRad.late) [(0, 0)]).
  { unfold wf_pivots; simpl. split; [reflexivity|].
    split; [constructor; [intros []|constructor]|].
    split; [intros j [<-|[]]; lia | lia]. }
  assert (Hc : contains_mat MidRad.late MidRad.late_true).
  { split; [reflexivity|]. split; [reflexivity|].
    repeat constructor; apply Qle_bool_iff; reflexivity. }
  assert (Hass : has_pivots (length [(0, 0)]) (of_rows (rows MidRad.late_true)) [(0, 0)]).
  { intros j pj [[= <- <-]|[]]. split; [reflexivity|]. simpl; intros i Hi Hi'; lia. }
  destruct (@REF_resume_sound _ _ _ _ _ MidRad.late true true [(0, 0)] o
              MidRad.late_true Hwf Hwfp Hc Hass E) as (Tx & Hinv & HR & _).
  exists o, Tx. auto.
Defined.

(* ================================================================== *)
(** ** The pivots of REF and the rank *)

Lemma Forall_of_nth {X : Type} (P : X -> Prop) (d : X) (l : list X) :
  (forall k, k < length l -> P (nth k l d)) -> Forall P l.
Proof.
  induction l as [|x l IH]; intros Hn; constructor.
  - apply (Hn 0); simpl; lia.
  - apply IH. intros k Hk. apply (Hn (S k)); simpl; lia.
Qed.

Section Lincomb.
Context {F : Type} `{Field F}.

Add Field true_values_lincomb : field_laws.

Lemma vec_add_length (u v : list F) :
  length u = length v -> length (vec_add u v) = length u.
Proof.
  intros Huv. unfold vec_add. rewrite length_map, length_combine. lia.
Qed.

Lemma nth_vec_add (u v : list F) (b : nat) :
  length u = length v -> b < length u ->
  nth b (vec_add u v) zero = add (nth b u zero) (nth b v zero).
Proof.
  intros Huv Hb. unfold vec_add.
  rewrite nth_map_lt with (d := (zero, zero))
    by (rewrite length_combine; lia).
  now rewrite combine_nth.
Qed.

Lemma nth_vec_scale (c : F) (v : list F) (b : nat) :
  b < length v -> nth b (vec_scale c v) zero = mul c (nth b v zero).
Proof. intros Hb. unfold vec_scale. now rewrite nth_map_lt with (d := zero). Qed.

Lemma nth_vec_zero (n b : nat) : nth b (vec_zero n) zero = (zero : F).
Proof.
  unfold vec_zero. destruct (Nat.lt_ge_cases b n).
  - now rewrite nth_repeat_lt.
  - rewrite nth_overflow; auto. now rewrite repeat_length.
Qed.

Lemma lincomb_snoc (n : nat) (cs : list F) (vs : list (list F)) (c : F) (v : list F) :
  length cs = length vs ->
  lincomb n (cs ++ [c]) (vs ++ [v]) = vec_add (lincomb n cs vs) (vec_scale c v).
Proof.
  intros Hl. unfold lincomb. rewrite combine_snoc by assumption.
  now rewrite fold_left_app.
Qed.

Lemma lincomb_spec (n : nat) (vs : list (list F)) (cs : list F) :
  Forall (fun v => length v = n) vs -> length cs = length vs ->
  length (lincomb n cs vs) = n /\
  forall b, b < n ->
    nth b (lincomb n cs vs) zero =
    sumn (fun k => mul (nth k cs zero) (nth b (nth k vs []) zero)) (length vs).
Proof.
  revert cs; induction vs as [|v vs IH] using rev_ind; intros cs Hvs Hl.
  - destruct cs; [|discriminate]. split; [apply repeat_length|].
    intros b Hb. cbn. apply nth_vec_zero.
  - rewrite length_app in Hl; cbn in Hl.
    destruct (@snoc_inv _ cs (length vs)) as (cs' & c & -> & Hcs'); [lia|].
    apply Forall_app in Hvs as [Hvs Hv]. inversion Hv as [|? ? Hlv _]; subst.
    destruct (IH cs' Hvs Hcs') as [Hlen Hnth].
    rewrite lincomb_snoc by assumption.
    assert (Hsc : length (vec_scale c v) = length v) by apply length_map.
    split.
    + rewrite vec_add_length; congruence.
    + intros b Hb. rewrite nth_vec_add by congruence.
      rewrite nth_vec_scale by assumption.
      rewrite length_app; cbn. rewrite Nat.add_1_r. cbn [sumn].
      rewrite Hnth by assumption. f_equal.
      * apply sumn_ext; intros k Hk. now rewrite !app_nth1 by lia.
      * rewrite !app_nth2 by lia. rewrite Hcs', !Nat.sub_diag. reflexivity.
Qed.

Lemma sumn_single (f : nat -> F) (n t : nat) :
  t < n -> (forall k, k < n -> k <> t -> f k = zero) -> sumn f n = f t.
Proof.
  intros Ht Hz.
  rewrite (sumn_ext f (fun k => mul (delta t k) (f t))).
  - rewrite sumn_scale_r.
    transitivity (mul (sumn (fun k => mul (delta t k) one) n) (f t)).
    + f_equal. apply sumn_ext; intros k _. ring.
    + rewrite sumn_delta.
      replace (t <? n) with true by (symmetry; apply Nat.ltb_lt; lia). ring.
  - intros k Hk. unfold delta. destruct (Nat.eqb_spec t k) as [->|Hne].
    + ring.
    + rewrite Hz by auto. ring.
Qed.

(** The rows of a product lie in the row space of the right factor. *)
Lemma matmul_row_in_span (m n : nat) (Tx Mx : list (list F)) (a : nat) :
  shape m m Tx -> shape m n Mx -> a < m ->
  in_span n Mx (nth a (matmul n Tx Mx) []).
Proof.
  intros HTx HMx Ha. exists (nth a Tx []).
  assert (HlT : length Tx = m) by (destruct HTx; assumption).
  assert (HlM : length Mx = m) by (destruct HMx; assumption).
  assert (Hrow := shape_row HTx Ha).
  split; [congruence|].
  destruct (@lincomb_spec n Mx (nth a Tx [])) as [Hlen Hnth];
    [destruct HMx; assumption | congruence |].
  assert (Hsh : shape m n (matmul n Tx Mx)) by (rewrite <- HlT at 1; apply shape_matmul).
  apply nth_ext with (d := zero) (d' := zero).
  - rewrite (shape_row Hsh Ha). now rewrite Hlen.
  - intros b Hb. rewrite (shape_row Hsh Ha) in Hb.
    change (entry (matmul n Tx Mx) a b = nth b (lincomb n (nth a Tx []) Mx) zero).
    rewrite (entry_matmul (m := m)); auto; try lia.
    rewrite Hnth by assumption. rewrite HlM. reflexivity.
Qed.

(** Rows with a 1 at their pivot and zeros below it are independent. *)
Lemma pivot_rows_independent (m n : nat) (X : list (list F)) (p : pivots) :
  shape m n X -> wf_pivots m n p -> has_pivots m (of_rows X) p ->
  lin_indep n (firstn (length p) X).
Proof.
  intros HX Hwf Hpiv cs Hl Hz.
  assert (Hwf' := Hwf). destruct Hwf' as (Hrows & _ & _ & Hlen).
  assert (HlX : length X = m) by (destruct HX; assumption).
  assert (Hlf : length (firstn (length p) X) = length p)
    by (rewrite length_firstn; lia).
  rewrite Hlf in Hl.
  assert (Hall : Forall (fun v => length v = n) (firstn (length p) X)).
  { apply Forall_forall; intros v Hv.
    assert (Hv' : In v X).
    { rewrite <- (firstn_skipn (length p) X). apply in_or_app; now left. }
    destruct HX as [_ HX]. rewrite Forall_forall in HX; auto. }
  destruct (@lincomb_spec n (firstn (length p) X) cs Hall) as [_ Hnth];
    [congruence|].
  rewrite Hlf in Hnth.
  assert (Hcs : forall t, t < length p -> nth t cs zero = zero).
  { intros t. induction t as [t IHt] using lt_wf_ind. intros Ht.
    destruct (nth t p (0, 0)) as [j pj] eqn:Et.
    assert (Hin : In (j, pj) p) by (rewrite <- Et; apply nth_In; lia).
    assert (Epj : pj = t).
    { assert (E1 : nth t (map snd p) 0 = pj).
      { change 0 with (snd (0, 0)) at 1. rewrite map_nth. now rewrite Et. }
      rewrite Hrows, seq_nth in E1 by lia. lia. }
    subst pj.
    destruct (wf_pivots_row j t Hwf Hin) as [_ Hj].
    destruct (Hpiv j t Hin) as [Hone Hzer]. unfold of_rows in Hone, Hzer.
    specialize (Hnth j Hj). rewrite Hz, nth_vec_zero in Hnth.
    rewrite (sumn_single _ Ht) in Hnth.
    - rewrite nth_firstn in Hnth.
      replace (t <? length p) with true in Hnth by (symmetry; apply Nat.ltb_lt; lia).
      change (nth j (nth t X []) zero) with (entry X t j) in Hnth.
      rewrite Hone in Hnth.
      transitivity (mul (nth t cs zero) one); [ring | symmetry; exact Hnth].
    - intros k Hk Hne. rewrite nth_firstn.
      replace (k <? length p) with true by (symmetry; apply Nat.ltb_lt; lia).
      change (nth j (nth k X []) zero) with (entry X k j).
      destruct (Nat.lt_ge_cases k t) as [Hlt|Hge].
      + rewrite IHt by lia. ring.
      + rewrite Hzer by lia. ring. }
  apply Forall_of_nth with (d := zero). intros k Hk. apply Hcs. lia.
Qed.

End Lincomb.

(** The pivots and the rank (point iii of the docstring of REF): when
    [REF(mat, pivots=True)] returns [(R, p)], the row space of every true
    matrix contained in [mat] has [len(p)] linearly independent vectors, so
    [len(p)] is at most its rank. *)
Theorem REF_pivots_le_rank {B F : Type} `{Enclosure B F}
        (mat : matrix B) (transformation : bool) (o : REF_out) (p : pivots)
        (matx : matrix F) :
  wf_matrix mat ->
  REF mat transformation true [] = Ok o -> out_p o = Some p ->
  contains_mat mat matx ->
  (exists vs, length vs = length p /\
              Forall (in_span (ncols matx) (rows matx)) vs /\
              lin_indep (ncols matx) vs) /\
  (forall k, is_rank matx k -> length p <= k).
Proof.
  intros Hwf E Hp Hc.
  assert (HM := contains_mat_encloses Hwf Hc).
  destruct Hc as (Hnr & Hnc & _).
  apply REF_Ok in E as (_ & _ & Hp' & _).
  rewrite Hp in Hp'; injection Hp' as ->.
  assert (Hnil : has_pivots (length (@nil (nat * nat))) (of_rows (rows matx)) [])
    by (intros j pj []).
  destruct (@REF_sound _ _ _ _ _ mat (rows matx) [] HM
              (wf_pivots_nil (nrows mat) (ncols mat)) Hnil)
    as (Tx & _ & Hinv & _).
  destruct (REF_state_pivots mat (wf_pivots_nil (nrows mat) (ncols mat))) as [Hwf' _].
  set (p := snd (REF_state mat [])) in *.
  destruct Hinv as (HTx & _ & Hpiv & _).
  assert (HMx : shape (nrows mat) (ncols mat) (rows matx))
    by (destruct HM as (_ & ? & _); assumption).
  assert (HlTx : length Tx = nrows mat) by (destruct HTx; assumption).
  assert (HlMx : length (rows matx) = nrows mat) by (destruct HMx; assumption).
  set (X := matmul (ncols mat) Tx (rows matx)).
  assert (HX : shape (nrows mat) (ncols mat) X)
    by (unfold X; rewrite <- HlTx at 1; apply shape_matmul).
  assert (HlX : length X = nrows mat) by (destruct HX; assumption).
  assert (Hlen : length p <= nrows mat) by (destruct Hwf' as (_ & _ & _ & ?); assumption).
  assert (HpX : has_pivots (nrows mat) (of_rows X) p).
  { assert (Hent : forall a b, a < nrows mat -> b < ncols mat ->
              entry X a b = prod_entry (nrows mat) Tx (rows matx) a b).
    { intros a b Ha Hb. unfold X. apply entry_matmul; auto; try lia.
      now apply shape_row with (m := nrows mat). }
    intros j pj Hin. destruct (wf_pivots_row j pj Hwf' Hin) as [Hpj Hj].
    destruct (Hpiv j pj Hin) as [Hone Hzer]. unfold of_rows. split.
    - rewrite Hent by lia. exact Hone.
    - intros i Hi Him. rewrite Hent by lia. now apply Hzer. }
  assert (Hex : exists vs, length vs = length p /\
              Forall (in_span (ncols matx) (rows matx)) vs /\
              lin_indep (ncols matx) vs).
  { exists (firstn (length p) X). rewrite <- Hnc. split; [|split].
    - rewrite length_firstn; lia.
    - apply Forall_forall; intros v Hv.
      apply In_nth with (d := []) in Hv as (a & Ha & <-).
      rewrite length_firstn in Ha. rewrite nth_firstn.
      replace (a <? length p) with true by (symmetry; apply Nat.ltb_lt; lia).
      apply matmul_row_in_span with (m := nrows mat); auto; lia.
    - now apply pivot_rows_independent with (m := nrows mat). }
  split; [exact Hex|].
  intros k [_ Hmax]. destruct Hex as (vs & <- & Hspan & Hind). now apply Hmax.
Qed.

Lemma REF_pivots_le_rank_witness :
  exists vs, length vs = 2 /\
             Forall (in_span 3 (rows Exact.sample)) vs /\ lin_indep 3 vs.
Proof.
  destruct (REF Exact.sample false true []) as [o|e] eqn:E;
    [|vm_compute in E; discriminate].
  assert (Hp : out_p o = Some [(0, 0); (1, 1)])
    by (vm_compute in E; injection E as <-; reflexivity).
  assert (Hwf : wf_matrix Exact.sample) by (repeat constructor).
  assert (Hc : contains_mat Exact.sample Exact.sample).
  { split; [reflexivity|]. split; [reflexivity|]. repeat constructor. }
  destruct (@REF_pivots_le_rank _ _ _ _ _ Exact.sample false o _ Exact.sample
              Hwf E Hp Hc) as [Hex _].
  exact Hex.
Defined.

(* ================================================================== *)
(** ** Matrices and vectors that may be zero *)

Lemma fold_left_fixed {X Y : Type} (f : X -> Y -> X) (l : list Y) (x : X) :
  (forall y, In y l -> f x y = x) -> fold_left f l x = x.
Proof.
  induction l as [|y l IH]; intros Hf; simpl; auto.
  rewrite Hf by (now left). apply IH. intros z Hz; apply Hf; now right.
Qed.

Section PossiblyZero.
Context {B F : Type} `{Enclosure B F}.

Add Field true_values_zero : field_laws.

Lemma is_nonzero_contains_zero (b : B) :
  contains b zero -> is_nonzero b = false.
Proof.
  intros Hb. destruct (is_nonzero b) eqn:E; auto.
  exfalso. now apply (@is_nonzero_sound _ _ _ _ _ b zero E Hb).
Qed.

Lemma contains_zero_one : contains_zero (one : B) = false.
Proof.
  destruct (contains_zero (one : B)) eqn:E; auto.
  apply contains_zero_spec in E. apply one_exact in E.
  exfalso. now apply one_neq_zero.
Qed.

Lemma REF_state_possibly_zero (mat : matrix B) :
  wf_matrix mat ->
  (forall a b, a < nrows mat -> b < ncols mat ->
               contains (entry (rows mat) a b) zero) ->
  REF_state mat [] = (identity (nrows mat), []).
Proof.
  intros Hwf Hz. unfold REF_state. cbn [fold_left length].
  apply fold_left_fixed. intros j Hj. apply in_seq in Hj.
  unfold ref_col. cbn [mem_key existsb length].
  rewrite find_pivot_None; auto.
  intros l Hl. apply is_nonzero_contains_zero.
  set (Zx := map (fun _ : nat => map (fun _ : nat => (zero : F)) (seq 0 (ncols mat)))
                 (seq 0 (nrows mat))).
  assert (HZ : encloses (nrows mat) (ncols mat) (rows mat) Zx).
  { split; [exact Hwf|]. split.
    - split; [apply map_seq_length|].
      apply Forall_forall; intros row Hr. apply in_map_iff in Hr as (a & <- & _).
      apply map_seq_length.
    - intros a k Ha Hk. unfold entry at 2, Zx.
      rewrite nth_map_seq with (d := []) by assumption.
      rewrite nth_map_seq by assumption. now apply Hz. }
  assert (Hc := column_contains (encloses_identity (nrows mat)) HZ
                  (proj2 Hj : j < ncols mat) (proj2 Hl)).
  replace (nth l (mulmv (identity (nrows mat)) (column j Zx)) zero)
    with (zero : F) in Hc; [exact Hc|].
  rewrite nth_mulmv_column with (m := nrows mat);
    [|apply shape_identity | apply map_seq_length | lia].
  unfold prod_entry. symmetry.
  rewrite (sumn_ext _ (fun _ => zero)); [apply sumn_zero|].
  intros k Hk. unfold entry at 2, Zx.
  rewrite nth_map_seq with (d := []) by assumption.
  rewrite nth_map_seq by lia. ring.
Qed.

End PossiblyZero.

(** A matrix all of whose entries may be zero gets no pivot: REF returns
    normally, with the empty pivot dictionary and [R = 1 * mat]. *)
Theorem REF_of_possibly_zero_matrix {B F : Type} `{Enclosure B F}
        (mat : matrix B) (pivots_flag : bool) :
  wf_matrix mat ->
  (forall a b, a < nrows mat -> b < ncols mat ->
               contains (entry (rows mat) a b) zero) ->
  REF mat false pivots_flag [] =
  Ok (RefOut (Mat (nrows mat) (ncols mat)
                  (matmul (ncols mat) (identity (nrows mat)) (rows mat)))
             None (if pivots_flag then Some [] else None)).
Proof.
  intros Hwf Hz. unfold REF. cbn [valid_pivots forallb negb].
  rewrite (REF_state_possibly_zero Hwf Hz). reflexivity.
Qed.

Lemma REF_of_possibly_zero_matrix_witness :
  REF MidRad.vague false true [] =
  Ok (RefOut (Mat 1 1 (matmul 1 (identity 1) (rows MidRad.vague))) None (Some [])).
Proof.
  assert (Hw : wf_matrix MidRad.vague) by (repeat constructor).
  assert (Hz : forall a b, a < nrows MidRad.vague -> b < ncols MidRad.vague ->
                 contains (entry (rows MidRad.vague) a b) zero).
  { intros a b Ha Hb. simpl in Ha, Hb.
    assert (a = 0) by lia. assert (b = 0) by lia. subst.
    apply Qle_bool_iff. reflexivity. }
  exact (@REF_of_possibly_zero_matrix _ _ _ _ _ MidRad.vague true Hw Hz).
Defined.

(** A seed all of whose entries may be zero ("vec contains the null vector",
    line 238): [orbit] returns the empty basis, and the empty list of
    operators when [transition] is set, whatever the matrices are. *)
Theorem orbit_of_possibly_zero_seed {B F : Type} `{Enclosure B F}
        (Mats : list (matrix B)) (vec : list B) (transition : bool) :
  (forall k, k < length vec -> contains (nth k vec zero) zero) ->
  orbit Mats vec transition =
  Some (Ok ([], if transition then Some [] else None)).
Proof.
  intros Hz. unfold orbit, REF. cbn [valid_pivots forallb negb nrows ncols].
  rewrite (@REF_state_possibly_zero _ _ _ _ _ (Mat 1 (length vec) [vec])).
  - cbn [det length det_rec identity]. cbn.
    rewrite contains_zero_one. reflexivity.
  - repeat constructor.
  - intros a b Ha Hb. cbn in Ha, Hb. assert (a = 0) by lia. subst a.
    cbn. now apply Hz.
Qed.

Lemma orbit_of_possibly_zero_seed_witness :
  orbit [MidRad.late] [MidRad.unit_ball; MidRad.point 0; MidRad.unit_ball] true =
  Some (Ok ([], Some [])).
Proof.
  assert (Hz : forall k,
             k < length [MidRad.unit_ball; MidRad.point 0; MidRad.unit_ball] ->
             contains (nth k [MidRad.unit_ball; MidRad.point 0; MidRad.unit_ball] zero)
                      zero).
  { intros k Hk. simpl in Hk.
    destruct k as [|[|[|k]]]; try lia; apply Qle_bool_iff; reflexivity. }
  exact (@orbit_of_possibly_zero_seed _ _ _ _ _ [MidRad.late]
           [MidRad.unit_ball; MidRad.point 0; MidRad.unit_ball] true Hz).
Defined.

(* ================================================================== *)
(** ** The loops of orbit and generated_algebra *)

Section EchelonStep.
Context {B : Type} `{Ball B}.

Lemma wf_pivots_more_rows (m m' n : nat) (p : pivots) :
  wf_pivots m n p -> m <= m' -> wf_pivots m' n p.
Proof. intros (H1 & H2 & H3 & H4) Hm. repeat split; auto. lia. Qed.

Lemma wf_pivots_length_cols (m n : nat) (p : pivots) :
  wf_pivots m n p -> length p <= n.
Proof.
  intros (_ & Hnd & Hlt & _). rewrite <- (length_map fst).
  now apply NoDup_bounded_length.
Qed.

Lemma entry_firstn (L : nat) (R : list (list B)) (a k : nat) :
  a < L -> entry (firstn L R) a k = entry R a k.
Proof.
  intros Ha. unfold entry. rewrite nth_firstn.
  now replace (a <? L) with true by (symmetry; apply Nat.ltb_lt; lia).
Qed.

(** One call of REF on the stacked rows [b1], resumed from [p], followed by
    [matrix_from_rows(range(len(p)))]. *)
Lemma REF_echelon_step (n : nat) (b1 : list (list B)) (tr : bool) (p : pivots)
      (o : REF_out) :
  wf_pivots (length b1) n p ->
  REF (Mat (length b1) n b1) tr true p = Ok o ->
  let p' := pivots_of o in
  let b' := firstn (length p') (rows (out_R o)) in
  (exists q, p' = p ++ q) /\
  length b' = length p' /\ length p' <= length b1 /\ length p' <= n /\
  wf_pivots (length b') n p' /\ written_pivots b' p' /\
  Forall (fun v => length v = n) b' /\
  (tr = true -> shape (length b1) (length b1) (transformation_of o)).
Proof.
  intros Hwf E p' b'.
  assert (E' := E). apply REF_Ok in E' as (_ & HR & Hp & HT & _).
  cbn [nrows ncols rows] in *.
  assert (Ep : p' = snd (REF_state (Mat (length b1) n b1) p))
    by (unfold p', pivots_of; now rewrite Hp).
  destruct (REF_state_pivots (Mat (length b1) n b1) Hwf) as [Hwf' Hq].
  cbn [nrows ncols] in Hwf'. rewrite <- Ep in Hwf', Hq.
  assert (Hsh := REF_state_shape (Mat (length b1) n b1) p). cbn [nrows] in Hsh.
  assert (HlT : length (fst (REF_state (Mat (length b1) n b1) p)) = length b1)
    by (destruct Hsh; assumption).
  destruct (REF_R_spec (Mat (length b1) n b1) _ HlT
              (eq_ind _ (wf_pivots (length b1) n) Hwf' _ Ep)) as [HshR HenR].
  cbn [nrows ncols] in HshR, HenR. rewrite <- HR, <- Ep in *.
  assert (Hlen : length p' <= length b1) by (destruct Hwf' as (_ & _ & _ & ?); assumption).
  assert (HlR : length (rows (out_R o)) = length b1) by (destruct HshR; assumption).
  assert (Hlb : length b' = length p') by (unfold b'; rewrite length_firstn; lia).
  split; [exact Hq|]. split; [exact Hlb|]. split; [exact Hlen|].
  split; [now apply wf_pivots_length_cols with (m := length b1)|].
  split; [|split; [|split]].
  - rewrite Hlb. destruct Hwf' as (H1 & H2 & H3 & _). repeat split; auto.
  - intros j pj Hin. destruct (wf_pivots_row j pj Hwf' Hin) as [Hpj Hj].
    assert (Hl : lookup j p' = Some pj) by (apply lookup_In; auto; apply Hwf').
    split.
    + unfold b'. rewrite entry_firstn by assumption.
      rewrite HenR, Hl. now rewrite Nat.eqb_refl.
    + intros i Hi Hib. rewrite Hlb in Hib. unfold b'.
      rewrite entry_firstn by assumption. rewrite HenR, Hl.
      destruct (Nat.eqb_spec i pj); [lia|].
      destruct (Nat.ltb_spec pj i), (Nat.ltb_spec i (length b1)); try lia.
      reflexivity.
  - apply Forall_forall; intros v Hv.
    assert (Hv' : In v (rows (out_R o))).
    { rewrite <- (firstn_skipn (length p') (rows (out_R o))).
      apply in_or_app; now left. }
    destruct HshR as [_ HF]. rewrite Forall_forall in HF; auto.
  - intros ->. unfold transformation_of. rewrite HT. exact Hsh.
Qed.

End EchelonStep.

Section OrbitLoop.
Context {B : Type} `{Ball B}.

Variable Mats : list (matrix B).
Variable n : nat.
Variable tr : bool.

(** What the variables of the loop of [orbit] satisfy at line 243. *)
Definition orbit_ok (st : orbit_state) : Prop :=
  orank st = length (op st) /\ 1 <= length (op st) /\
  length (ob st) = length (op st) /\ length (op st) <= n /\
  wf_pivots (length (ob st)) n (op st) /\ written_pivots (ob st) (op st) /\
  Forall (fun v => length v = n) (ob st) /\
  (tr = true -> length (oT st) = length (op st)).

Lemma stack_length (k : nat) (b l b1 : list (list B)) :
  stack k b l = Ok b1 -> length b <= length b1.
Proof.
  unfold stack. destruct l as [|x l].
  - destruct (Nat.eqb k 0); [|discriminate]. intros [= <-]; lia.
  - intros [= <-]. rewrite length_app; lia.
Qed.

Lemma orbit_body_ok (st st' : orbit_state) :
  orbit_ok st -> orbit_body Mats n tr st = Ok st' ->
  orbit_ok st' /\ orank st <= orank st' /\
  onew st' = seq (orank st) (orank st' - orank st).
Proof.
  intros (Hr & H1 & Hlb & Hln & Hwf & _ & _ & HT) E.
  unfold orbit_body in E.
  destruct (stack n (ob st) _) as [b1|e] eqn:Es; [|discriminate].
  apply stack_length in Es.
  destruct (REF (Mat (length b1) n b1) tr true (op st)) as [o|e] eqn:ER;
    [|discriminate].
  injection E as <-. cbn [ob oT op orank onew].
  assert (Hwf1 : wf_pivots (length b1) n (op st))
    by (apply wf_pivots_more_rows with (m := length (ob st)); auto).
  destruct (@REF_echelon_step _ _ n b1 tr (op st) o Hwf1 ER)
    as ((q & Hq) & Hlb' & Hle1 & Hlen' & Hwf' & Hwr & Hall & _).
  assert (Hge : length (op st) <= length (pivots_of o))
    by (rewrite Hq, length_app; lia).
  split; [|split; [lia|reflexivity]].
  unfold orbit_ok; cbn [ob oT op orank onew].
  split; [reflexivity|]. split; [lia|]. split; [exact Hlb'|].
  split; [exact Hlen'|]. split; [exact Hwf'|]. split; [exact Hwr|].
  split; [exact Hall|].
  intros ->. specialize (HT eq_refl).
  rewrite length_app, length_firstn, length_map, length_seq, length_app. lia.
Qed.

Lemma orbit_loop_terminates (fuel : nat) (st : orbit_state) :
  orbit_ok st ->
  (0 < length (onew st) -> n + 1 <= fuel + orank st) ->
  exists res, orbit_loop fuel Mats n tr st = Some res /\
              forall st', res = Ok st' -> orbit_ok st'.
Proof.
  revert st; induction fuel as [|fuel IH]; intros st Hok Hm.
  - cbn [orbit_loop].
    destruct (Nat.ltb_spec 0 (length (onew st))) as [Hn|Hn]; cbn [andb negb].
    + destruct (Nat.ltb_spec (orank st) n) as [Hr|Hr]; cbn [negb].
      * specialize (Hm Hn). lia.
      * exists (Ok st); split; auto. now intros st' [= <-].
    + exists (Ok st); split; auto. now intros st' [= <-].
  - cbn [orbit_loop].
    destruct (Nat.ltb_spec 0 (length (onew st))) as [Hn|Hn]; cbn [andb negb].
    + destruct (Nat.ltb_spec (orank st) n) as [Hr|Hr]; cbn [negb].
      * destruct (orbit_body Mats n tr st) as [st1|e] eqn:Eb.
        -- destruct (@orbit_body_ok st st1 Hok Eb) as (Hok1 & Hle & Hnew).
           apply IH; auto. rewrite Hnew, length_seq. specialize (Hm Hn). lia.
        -- exists (Raise e); split; auto. discriminate.
      * exists (Ok st); split; auto. now intros st' [= <-].
    + exists (Ok st); split; auto. now intros st' [= <-].
Qed.

End OrbitLoop.

(** [orbit] always comes to an end, by a result or by raising.  A basis it
    returns has at most [n] vectors of size [n], in echelon form: each vector
    has the exact ball 1 at its pivot and the vectors after it have the exact
    ball 0 there.  The operators are returned exactly when [transition] is
    set, one per basis vector. *)
Theorem orbit_terminates {B : Type} `{Ball B} (Mats : list (matrix B))
        (vec : list B) (transition : bool) :
  exists res, orbit Mats vec transition = Some res /\
    forall b Ts, res = Ok (b, Ts) ->
      length b <= length vec /\ echelon_basis (length vec) b /\
      match Ts with
      | Some l => transition = true /\ length l = length b
      | None => transition = false
      end.
Proof.
  unfold orbit.
  destruct (REF (Mat 1 (length vec) [vec]) true true []) as [o|e] eqn:ER.
  2:{ exists (Raise e); split; auto. discriminate. }
  destruct (@REF_echelon_step _ _ (length vec) [vec] true [] o
              (wf_pivots_nil _ _) ER)
    as (_ & Hlb & Hle1 & Hlen & Hwf & Hwr & Hall & _).
  cbn [length] in Hle1.
  destruct (Nat.eqb_spec (length (pivots_of o)) 0) as [E0|E0].
  - eexists; split; [reflexivity|]. intros b Ts [= <- <-]. cbn [length].
    split; [lia|]. split.
    + split; [constructor|]. exists []. split; [apply wf_pivots_nil|].
      split; [reflexivity|]. intros j pj [].
    + destruct transition; auto.
  - assert (Hone : length (pivots_of o) = 1) by lia.
    assert (HlR : length (rows (out_R o)) = 1).
    { apply REF_Ok in ER as (_ & HR & _).
      assert (Hsh := REF_state_shape (Mat 1 (length vec) [vec]) []).
      destruct (REF_state_pivots (Mat 1 (length vec) [vec])
                  (wf_pivots_nil 1 (length vec))) as [Hwf0 _].
      destruct (REF_R_spec (Mat 1 (length vec) [vec]) _ (proj1 Hsh) Hwf0) as [[HlR _] _].
      rewrite HR. exact HlR. }
    assert (Efn : firstn (length (pivots_of o)) (rows (out_R o)) = rows (out_R o)).
    { rewrite Hone, <- HlR. apply firstn_all. }
    rewrite Efn in *.
    set (st0 := OrbitState (rows (out_R o))
                  (if transition
                   then [mat_scale (entry (transformation_of o) 0 0)
                                   (identity (length vec))]
                   else [])
                  (pivots_of o) 1 [0]).
    assert (Hok : orbit_ok (length vec) transition st0).
    { unfold orbit_ok, st0; cbn [ob oT op orank onew].
      split; [lia|]. split; [lia|]. split; [lia|]. split; [exact Hlen|].
      split; [exact Hwf|]. split; [exact Hwr|]. split; [exact Hall|].
      now intros ->. }
    destruct (@orbit_loop_terminates _ _ Mats (length vec) transition
                (length vec) st0 Hok) as (res & Eres & Hres).
    { cbn. lia. }
    rewrite Eres. destruct res as [st|e].
    + eexists; split; [reflexivity|]. intros b Ts [= <- <-].
      destruct (Hres st eq_refl) as (Hr & H1 & Hlb' & Hln & Hwf' & Hwr' & Hall' & HT).
      split; [lia|]. split.
      * split; [exact Hall'|]. exists (op st).
        split; [exact Hwf'|]. split; [now symmetry | exact Hwr'].
      * destruct transition; [|reflexivity].
        split; [reflexivity|]. rewrite (HT eq_refl). now symmetry.
    + exists (Raise e); split; auto. discriminate.
Qed.

Section AlgebraLoop.
Context {B : Type} `{Ball B}.

Variable n : nat.

(** What the variables of the loop of [generated_algebra] satisfy at
    line 317. *)
Definition algebra_ok (st : algebra_state) : Prop :=
  arank st = length (ap st) /\
  length (ab st) = length (ap st) /\ length (ap st) <= n * n /\
  wf_pivots (length (ab st)) (n * n) (ap st) /\
  written_pivots (ab st) (ap st) /\
  Forall (fun v => length v = n * n) (ab st).

Lemma algebra_body_ok (st st' : algebra_state) :
  algebra_ok st -> algebra_body n st = Ok st' ->
  algebra_ok st' /\ arank st <= arank st' /\
  anew st' = seq (arank st) (arank st' - arank st).
Proof.
  intros (Hr & Hlb & Hln & Hwf & _ & _) E.
  unfold algebra_body in E.
  destruct (stack (n * n) (ab st) _) as [b1|e] eqn:Es; [|discriminate].
  apply stack_length in Es.
  destruct (REF (Mat (length b1) (n * n) b1) false true (ap st)) as [o|e] eqn:ER;
    [|discriminate].
  injection E as <-. cbn [ab ap arank anew].
  assert (Hwf1 : wf_pivots (length b1) (n * n) (ap st))
    by (apply wf_pivots_more_rows with (m := length (ab st)); auto).
  destruct (@REF_echelon_step _ _ (n * n) b1 false (ap st) o Hwf1 ER)
    as ((q & Hq) & Hlb' & Hle1 & Hlen' & Hwf' & Hwr & Hall & _).
  assert (Hge : length (ap st) <= length (pivots_of o))
    by (rewrite Hq, length_app; lia).
  split; [|split; [lia|reflexivity]].
  unfold algebra_ok; cbn [ab ap arank anew].
  split; [reflexivity|]. split; [exact Hlb'|].
  split; [exact Hlen'|]. split; [exact Hwf'|]. split; [exact Hwr|exact Hall].
Qed.

Lemma algebra_loop_terminates (fuel : nat) (st : algebra_state) :
  algebra_ok st ->
  (0 < length (anew st) -> n * n + 1 <= fuel + arank st) ->
  exists res, algebra_loop fuel n st = Some res /\
              forall st', res = Ok st' -> algebra_ok st'.
Proof.
  revert st; induction fuel as [|fuel IH]; intros st Hok Hm.
  - cbn [algebra_loop].
    destruct (Nat.ltb_spec 0 (length (anew st))) as [Hn|Hn]; cbn [andb negb].
    + destruct (Nat.ltb_spec (arank st) (n * n)) as [Hr|Hr]; cbn [negb].
      * specialize (Hm Hn). lia.
      * exists (Ok st); split; auto. now intros st' [= <-].
    + exists (Ok st); split; auto. now intros st' [= <-].
  - cbn [algebra_loop].
    destruct (Nat.ltb_spec 0 (length (anew st))) as [Hn|Hn]; cbn [andb negb].
    + destruct (Nat.ltb_spec (arank st) (n * n)) as [Hr|Hr]; cbn [negb].
      * destruct (algebra_body n st) as [st1|e] eqn:Eb.
        -- destruct (@algebra_body_ok st st1 Hok Eb) as (Hok1 & Hle & Hnew).
           apply IH; auto. rewrite Hnew, length_seq. specialize (Hm Hn). lia.
        -- exists (Raise e); split; auto. discriminate.
      * exists (Ok st); split; auto. now intros st' [= <-].
    + exists (Ok st); split; auto. now intros st' [= <-].
Qed.

End AlgebraLoop.

(** [generated_algebra] always comes to an end, by a result or by raising;
    on the empty list it raises IndexError (line 309).  A basis it returns
    has at most [n * n] vectors of size [n * n], where [n] is the number of
    rows of [Mats[0]], in echelon form: each vector has the exact ball 1 at
    its pivot and the vectors after it have the exact ball 0 there. *)
Theorem generated_algebra_terminates {B : Type} `{Ball B}
        (Mats : list (matrix B)) :
  exists res, generated_algebra Mats = Some res /\
    match Mats with
    | [] => res = Raise IndexError
    | mat :: _ =>
        forall b, res = Ok b ->
          length b <= nrows mat * nrows mat /\
          echelon_basis (nrows mat * nrows mat) b
    end.
Proof.
  destruct Mats as [|mat Mats'].
  { exists (Raise IndexError); split; reflexivity. }
  unfold generated_algebra, generated_algebra_fuel.
  set (n := nrows mat). set (L := mat :: Mats').
  set (b0 := map (fun M => flatten (rows M)) L).
  replace (length L) with (length b0) by (unfold b0; apply length_map).
  destruct (REF (Mat (length b0) (n * n) b0) false true []) as [o|e] eqn:ER.
  2:{ exists (Raise e); split; auto. discriminate. }
  destruct (@REF_echelon_step _ _ (n * n) b0 false [] o
              (wf_pivots_nil _ _) ER)
    as (_ & Hlb & Hle1 & Hlen & Hwf & Hwr & Hall & _).
  set (st0 := AlgebraState (firstn (length (pivots_of o)) (rows (out_R o)))
                (pivots_of o) (length (pivots_of o))
                (seq 0 (length (pivots_of o)))).
  assert (Hok : algebra_ok n st0).
  { unfold algebra_ok, st0; cbn [ab ap arank anew].
    split; [reflexivity|]. split; [exact Hlb|]. split; [exact Hlen|].
    split; [exact Hwf|]. split; [exact Hwr|exact Hall]. }
  destruct (@algebra_loop_terminates _ _ n (n * n) st0 Hok)
    as (res & Eres & Hres).
  { unfold st0; cbn [anew arank]. rewrite length_seq. lia. }
  rewrite Eres. destruct res as [st|e].
  - eexists; split; [reflexivity|]. intros b [= <-].
    destruct (Hres st eq_refl) as (Hr & Hlb' & Hln & Hwf' & Hwr' & Hall').
    split; [lia|].
    split; [exact Hall'|]. exists (ap st).
    split; [exact Hwf'|]. split; [now symmetry | exact Hwr'].
  - exists (Raise e); split; auto. discriminate.
Qed.

(* ================================================================== *)
(** ** The operators of orbit *)

Section OperatorFacts.
Context {A : Type} `{Arith A}.

Lemma shape_mat_zero (n : nat) : shape n n (mat_zero n).
Proof.
  unfold mat_zero; split; [apply map_seq_length|].
  apply Forall_forall; intros row Hin. apply in_map_iff in Hin as (i & <- & _).
  apply map_seq_length.
Qed.

Lemma entry_mat_zero (n a b : nat) :
  a < n -> b < n -> entry (mat_zero n) a b = zero.
Proof.
  intros Ha Hb. unfold entry, mat_zero.
  rewrite nth_map_seq with (d := []) by assumption.
  now rewrite nth_map_seq by assumption.
Qed.

Lemma shape_mat_scale (m n : nat) (s : A) (M : list (list A)) :
  shape m n M -> shape m n (mat_scale s M).
Proof.
  intros [Hm Hn]. unfold mat_scale; split; [now rewrite length_map|].
  apply Forall_forall; intros row Hin. apply in_map_iff in Hin as (r & <- & Hr).
  rewrite length_map. rewrite Forall_forall in Hn; auto.
Qed.

Lemma entry_mat_scale (m n : nat) (s : A) (M : list (list A)) (a b : nat) :
  shape m n M -> a < m -> b < n ->
  entry (mat_scale s M) a b = mul s (entry M a b).
Proof.
  intros HM Ha Hb. unfold entry, mat_scale.
  assert (Hl : length M = m) by (destruct HM; assumption).
  rewrite nth_map_lt with (d := []) by lia.
  rewrite nth_map_lt with (d := zero); [reflexivity|].
  now rewrite (shape_row HM Ha).
Qed.

Lemma vec_add_len (u v : list A) :
  length u = length v -> length (vec_add u v) = length u.
Proof.
  intros Huv. unfold vec_add. rewrite length_map, length_combine. lia.
Qed.

Lemma nth_vec_add_gen (u v : list A) (b : nat) :
  length u = length v -> b < length u ->
  nth b (vec_add u v) zero = add (nth b u zero) (nth b v zero).
Proof.
  intros Huv Hb. unfold vec_add.
  rewrite nth_map_lt with (d := (zero, zero))
    by (rewrite length_combine; lia).
  now rewrite combine_nth by assumption.
Qed.

Lemma shape_mat_add (m n : nat) (X Y : list (list A)) :
  shape m n X -> shape m n Y -> shape m n (mat_add X Y).
Proof.
  intros HX HY. assert (HX' := HX). assert (HY' := HY).
  destruct HX' as [Hm Hn], HY' as [Hm' Hn'].
  unfold mat_add; split.
  - rewrite length_map, length_combine. lia.
  - apply Forall_of_nth with (d := []). intros k Hk.
    rewrite length_map, length_combine in Hk.
    rewrite nth_map_lt with (d := ([], [])) by (rewrite length_combine; lia).
    rewrite combine_nth by lia. cbn [fst snd].
    rewrite vec_add_len;
      rewrite !(@shape_row _ m n) by (assumption || lia); reflexivity.
Qed.

Lemma entry_mat_add (m n : nat) (X Y : list (list A)) (a b : nat) :
  shape m n X -> shape m n Y -> a < m -> b < n ->
  entry (mat_add X Y) a b = add (entry X a b) (entry Y a b).
Proof.
  intros HX HY Ha Hb. assert (HX' := HX). assert (HY' := HY).
  destruct HX' as [Hm Hn], HY' as [Hm' Hn'].
  unfold entry, mat_add.
  rewrite nth_map_lt with (d := ([], [])) by (rewrite length_combine; lia).
  rewrite combine_nth by lia. cbn [fst snd].
  apply nth_vec_add_gen;
    rewrite !(@shape_row _ m n) by (assumption || lia); auto.
Qed.

Lemma mat_lincomb_snoc (n : nat) (s : list A) (Ts : list (list (list A)))
      (T : list (list A)) :
  mat_lincomb n s (Ts ++ [T]) =
  mat_add (mat_lincomb n s Ts) (mat_scale (nth (length Ts) s zero) T).
Proof.
  unfold mat_lincomb. rewrite length_app, Nat.add_1_r, seq_S.
  rewrite combine_snoc by (now rewrite length_seq).
  now rewrite fold_left_app.
Qed.

Lemma mat_lincomb_spec (n : nat) (s : list A) (Ts : list (list (list A))) :
  Forall (shape n n) Ts ->
  shape n n (mat_lincomb n s Ts) /\
  forall a b, a < n -> b < n ->
    entry (mat_lincomb n s Ts) a b =
    sumn (fun j => mul (nth j s zero) (entry (nth j Ts []) a b)) (length Ts).
Proof.
  induction Ts as [|T Ts IH] using rev_ind; intros Hall.
  - split; [apply shape_mat_zero|]. intros a b Ha Hb.
    now apply entry_mat_zero.
  - apply Forall_app in Hall as [Hall HT].
    apply Forall_inv in HT. destruct (IH Hall) as [Hsh Hent].
    rewrite mat_lincomb_snoc. split.
    + apply shape_mat_add; [assumption | now apply shape_mat_scale].
    + intros a b Ha Hb.
      rewrite entry_mat_add with (m := n) (n := n);
        auto using shape_mat_scale.
      rewrite entry_mat_scale with (m := n) (n := n) by assumption.
      rewrite length_app, Nat.add_1_r. cbn [sumn].
      rewrite app_nth2, Nat.sub_diag by lia. cbn [nth].
      rewrite Hent by assumption. f_equal.
      apply sumn_ext. intros k Hk. now rewrite app_nth1 by assumption.
Qed.

Lemma nth_mulmv_shape (m n : nat) (T : list (list A)) (v : list A) (a : nat) :
  shape m n T -> length v = n -> a < m ->
  nth a (mulmv T v) zero = sumn (fun k => mul (entry T a k) (nth k v zero)) n.
Proof.
  intros HT Hv Ha. apply nth_mulmv; auto.
  - destruct HT; lia.
  - now apply shape_row with (m := m).
Qed.

Lemma entry_matmul_shape (m k n : nat) (T M : list (list A)) (a b : nat) :
  shape m k T -> length M = k -> a < m -> b < n ->
  entry (matmul n T M) a b = prod_entry k T M a b.
Proof.
  intros HT HM Ha Hb. apply entry_matmul; auto.
  - destruct HT; lia.
  - now apply shape_row with (m := m).
Qed.

Lemma shape_matmul_rows (m n : nat) (T M : list (list A)) :
  length T = m -> shape m n (matmul n T M).
Proof. intros <-. apply shape_matmul. Qed.

End OperatorFacts.

Section OperatorSound.
Context {B F : Type} `{Enclosure B F}.

Add Field true_values_ops : field_laws.

Lemma mulmv_contains (m n : nat) (M : list (list B)) (Mx : list (list F))
      (v : list B) (vx : list F) :
  encloses m n M Mx -> contains_vec v vx -> length v = n ->
  contains_vec (mulmv M v) (mulmv Mx vx).
Proof.
  intros (HM & HMx & He) Hv Hl.
  assert (Hlx : length vx = n)
    by (rewrite <- Hl; symmetry; eapply Forall2_length; eauto).
  assert (HlM : length M = m) by (destruct HM; assumption).
  assert (HlMx : length Mx = m) by (destruct HMx; assumption).
  apply Forall2_of_nth with (d := zero) (e := zero).
  - rewrite !mulmv_length. lia.
  - intros a Ha. rewrite mulmv_length in Ha.
    rewrite (@nth_mulmv_shape _ _ m n M v a HM Hl) by lia.
    rewrite (@nth_mulmv_shape _ _ m n Mx vx a HMx Hlx) by lia.
    apply sumn_contains. intros k Hk. apply mul_sound.
    + apply He; lia.
    + apply Forall2_nth_rel; [assumption | lia].
Qed.

Lemma matmul_encloses (m k n : nat) (X Y : list (list B))
      (Xx Yx : list (list F)) :
  encloses m k X Xx -> encloses k n Y Yx ->
  encloses m n (matmul n X Y) (matmul n Xx Yx).
Proof.
  intros (HX & HXx & HeX) (HY & HYx & HeY).
  assert (HlX : length X = m) by (destruct HX; assumption).
  assert (HlXx : length Xx = m) by (destruct HXx; assumption).
  assert (HlY : length Y = k) by (destruct HY; assumption).
  assert (HlYx : length Yx = k) by (destruct HYx; assumption).
  split; [now apply shape_matmul_rows|]. split; [now apply shape_matmul_rows|].
  intros a b Ha Hb.
  rewrite (@entry_matmul_shape _ _ m k n X Y a b HX HlY Ha Hb),
      (@entry_matmul_shape _ _ m k n Xx Yx a b HXx HlYx Ha Hb).
  apply sumn_contains. intros j Hj. apply mul_sound; auto.
Qed.

Lemma mat_scale_encloses (m n : nat) (s : B) (sx : F) (M : list (list B))
      (Mx : list (list F)) :
  contains s sx -> encloses m n M Mx ->
  encloses m n (mat_scale s M) (mat_scale sx Mx).
Proof.
  intros Hs (HM & HMx & He).
  split; [now apply shape_mat_scale|]. split; [now apply shape_mat_scale|].
  intros a b Ha Hb.
  rewrite (@entry_mat_scale _ _ m n s M a b HM Ha Hb),
      (@entry_mat_scale _ _ m n sx Mx a b HMx Ha Hb).
  apply mul_sound; auto.
Qed.

Lemma Forall2_encloses_shapes (n : nat) (Ts : list (list (list B)))
      (Tsx : list (list (list F))) :
  Forall2 (encloses n n) Ts Tsx ->
  Forall (shape n n) Ts /\ Forall (shape n n) Tsx.
Proof.
  induction 1 as [|T Tx Ts Tsx (HT & HTx & _) _ [IH1 IH2]]; split; auto.
Qed.

Lemma mat_lincomb_encloses (n : nat) (s : list B) (sx : list F)
      (Ts : list (list (list B))) (Tsx : list (list (list F))) :
  (forall j, j < length Ts -> contains (nth j s zero) (nth j sx zero)) ->
  Forall2 (encloses n n) Ts Tsx ->
  encloses n n (mat_lincomb n s Ts) (mat_lincomb n sx Tsx).
Proof.
  intros Hs HT. destruct (Forall2_encloses_shapes HT) as [Hsh Hshx].
  destruct (@mat_lincomb_spec _ _ n s Ts Hsh) as [Hs1 E1].
  destruct (@mat_lincomb_spec _ _ n sx Tsx Hshx) as [Hs2 E2].
  split; [assumption|]. split; [assumption|].
  intros a b Ha Hb. rewrite E1, E2 by assumption.
  rewrite <- (Forall2_length HT).
  apply sumn_contains. intros j Hj. apply mul_sound; [now apply Hs|].
  assert (Hj' := @Forall2_nth_rel _ _ (encloses n n) [] [] Ts Tsx j HT Hj).
  destruct Hj' as (_ & _ & He). now apply He.
Qed.

(** The exact counterparts. *)
Lemma mulmv_matmul (n : nat) (X Y : list (list F)) (v : list F) :
  shape n n X -> shape n n Y -> length v = n ->
  mulmv (matmul n X Y) v = mulmv X (mulmv Y v).
Proof.
  intros HX HY Hv.
  assert (HlX : length X = n) by (destruct HX; assumption).
  assert (HlY : length Y = n) by (destruct HY; assumption).
  apply nth_ext with (d := zero) (d' := zero).
  - rewrite !mulmv_length. unfold matmul. now rewrite length_map.
  - intros a Ha. rewrite mulmv_length in Ha. unfold matmul in Ha.
    rewrite length_map in Ha.
    rewrite (@nth_mulmv_shape _ _ n n (matmul n X Y) v a
               (@shape_matmul_rows _ _ n n X Y HlX) Hv) by lia.
    rewrite (@nth_mulmv_shape _ _ n n X (mulmv Y v) a HX)
      by (rewrite ?mulmv_length; lia).
    transitivity (sumn (fun k => sumn (fun j =>
                    mul (mul (entry X a j) (entry Y j k)) (nth k v zero)) n) n).
    { apply sumn_ext. intros k Hk.
      rewrite (@entry_matmul_shape _ _ n n n X Y a k HX HlY) by lia.
      unfold prod_entry. now rewrite sumn_scale_r. }
    rewrite sumn_swap. apply sumn_ext. intros j Hj.
    rewrite (@nth_mulmv_shape _ _ n n Y v j HY Hv) by lia.
    rewrite <- sumn_scale. apply sumn_ext. intros k Hk. ring.
Qed.

Lemma nth_mulmv_lincomb (n : nat) (s : list F) (Ts : list (list (list F)))
      (v : list F) (a : nat) :
  Forall (shape n n) Ts -> length v = n -> a < n ->
  nth a (mulmv (mat_lincomb n s Ts) v) zero =
  sumn (fun j => mul (nth j s zero) (nth a (mulmv (nth j Ts []) v) zero))
       (length Ts).
Proof.
  intros Hsh Hv Ha. destruct (@mat_lincomb_spec _ _ n s Ts Hsh) as [Hs1 E1].
  rewrite (@nth_mulmv_shape _ _ n n _ v a Hs1 Hv Ha).
  transitivity (sumn (fun k => sumn (fun j =>
                  mul (mul (nth j s zero) (entry (nth j Ts []) a k))
                      (nth k v zero)) (length Ts)) n).
  { apply sumn_ext. intros k Hk. rewrite E1 by assumption.
    now rewrite sumn_scale_r. }
  rewrite sumn_swap. apply sumn_ext. intros j Hj.
  assert (Hj' : shape n n (nth j Ts []))
    by (eapply Forall_forall; [exact Hsh | now apply nth_In]).
  rewrite (@nth_mulmv_shape _ _ n n _ v a Hj' Hv Ha).
  rewrite <- sumn_scale. apply sumn_ext. intros k Hk. ring.
Qed.

Lemma nth_mulmv_scalar (n : nat) (t : F) (v : list F) (a : nat) :
  length v = n -> a < n ->
  nth a (mulmv (mat_scale t (identity n)) v) zero = mul t (nth a v zero).
Proof.
  intros Hv Ha.
  assert (Hsh := @shape_mat_scale _ _ n n t _ (shape_identity (A := F) n)).
  rewrite (@nth_mulmv_shape _ _ n n _ v a Hsh Hv Ha).
  transitivity (sumn (fun k => mul (delta a k) (mul t (nth k v zero))) n).
  { apply sumn_ext. intros k Hk.
    rewrite (@entry_mat_scale _ _ n n t _ a k (shape_identity (A := F) n) Ha Hk).
    unfold entry, identity.
    rewrite nth_map_seq with (d := []) by assumption.
    rewrite nth_map_seq by assumption. unfold delta. ring. }
  rewrite sumn_delta. now replace (a <? n) with true
    by (symmetry; apply Nat.ltb_lt; assumption).
Qed.

Lemma polynomial_in_lincomb (n : nat) (Ms : list (list (list F)))
      (s : list F) (Ts : list (list (list F))) :
  Forall (polynomial_in n Ms) Ts -> polynomial_in n Ms (mat_lincomb n s Ts).
Proof.
  induction Ts as [|T Ts IH] using rev_ind; intros Hall.
  - apply poly_zero.
  - apply Forall_app in Hall as [Hall HT]. apply Forall_inv in HT.
    rewrite mat_lincomb_snoc. apply poly_add; [now apply IH|].
    now apply poly_scale.
Qed.

End OperatorSound.

(* ================================================================== *)
(** ** The true vectors and operators behind orbit *)

Lemma stack_app {B : Type} `{Ball B} (k : nat) (b l b1 : list (list B)) :
  stack k b l = Ok b1 -> b1 = b ++ l.
Proof.
  unfold stack. destruct l as [|x l].
  - destruct (Nat.eqb k 0); [|discriminate]. intros [= <-].
    now rewrite app_nil_r.
  - now intros [= <-].
Qed.

Lemma Forall2_flat_map {X Y U V : Type} (P : X -> Y -> Prop)
      (R : U -> V -> Prop) (f : X -> list U) (g : Y -> list V)
      (xs : list X) (ys : list Y) :
  Forall2 P xs ys -> (forall x y, P x y -> Forall2 R (f x) (g y)) ->
  Forall2 R (flat_map f xs) (flat_map g ys).
Proof.
  intros HP Hfg. induction HP as [|x y xs ys Hxy _ IH]; cbn [flat_map].
  - constructor.
  - apply Forall2_app; auto.
Qed.

Lemma Forall2_diag {X : Type} (P : X -> X -> Prop) (xs : list X) :
  (forall x, In x xs -> P x x) -> Forall2 P xs xs.
Proof.
  induction xs as [|x xs IH]; intros Hall; constructor.
  - apply Hall; now left.
  - apply IH. intros y Hy. apply Hall; now right.
Qed.

Lemma Forall2_map_same {X U V : Type} (R : U -> V -> Prop) (f : X -> U)
      (g : X -> V) (l : list X) :
  (forall i, In i l -> R (f i) (g i)) -> Forall2 R (map f l) (map g l).
Proof.
  induction l as [|x l IH]; intros Hall; cbn [map]; constructor.
  - apply Hall; now left.
  - apply IH. intros y Hy. apply Hall; now right.
Qed.

Lemma firstn_app_length {X : Type} (k : nat) (l l' : list X) :
  length l = k -> firstn k (l ++ l') = l.
Proof.
  intros <-. rewrite firstn_app, Nat.sub_diag, firstn_all. cbn [firstn].
  apply app_nil_r.
Qed.

Lemma nth_map_seq_from {X : Type} (f : nat -> X) (r k i : nat) (d : X) :
  i < k -> nth i (map f (seq r k)) d = f (r + i).
Proof.
  intros Hi. rewrite nth_map_lt with (d := 0) by (now rewrite length_seq).
  now rewrite seq_nth.
Qed.

Lemma Forall_firstn_gen {X : Type} (P : X -> Prop) (k : nat) (l : list X) :
  Forall P l -> Forall P (firstn k l).
Proof.
  intros Hall. rewrite <- (firstn_skipn k l) in Hall.
  now apply Forall_app in Hall as [Hall _].
Qed.

Lemma shape_firstn {X : Type} (m n k : nat) (R : list (list X)) :
  shape m n R -> k <= m -> shape k n (firstn k R).
Proof.
  intros [Hm Hn] Hk. split.
  - rewrite length_firstn. lia.
  - now apply Forall_firstn_gen.
Qed.

Lemma entry_firstn_gen {A : Type} `{Arith A} (L : nat) (R : list (list A))
      (a k : nat) :
  a < L -> entry (firstn L R) a k = entry R a k.
Proof.
  intros Ha. unfold entry. rewrite nth_firstn.
  now replace (a <? L) with true by (symmetry; apply Nat.ltb_lt; lia).
Qed.

Lemma encloses_firstn {B F : Type} `{Enclosure B F} (m n k : nat)
      (R : list (list B)) (Rx : list (list F)) :
  encloses m n R Rx -> k <= m -> encloses k n (firstn k R) (firstn k Rx).
Proof.
  intros (HR & HRx & He) Hk.
  split; [now apply shape_firstn with (m := m)|].
  split; [now apply shape_firstn with (m := m)|].
  intros a b Ha Hb. rewrite !entry_firstn_gen by assumption.
  apply He; lia.
Qed.

Lemma entry_app_l {A : Type} `{Arith A} (X Y : list (list A)) (a k : nat) :
  a < length X -> entry (X ++ Y) a k = entry X a k.
Proof. intros Ha. unfold entry. now rewrite app_nth1. Qed.

Lemma Forall2_In_l {X Y : Type} (P : X -> Y -> Prop) (xs : list X)
      (ys : list Y) (x : X) :
  Forall2 P xs ys -> In x xs -> exists y, In y ys /\ P x y.
Proof.
  induction 1 as [|x' y' xs ys Hxy _ IH]; intros Hin; [destruct Hin|].
  destruct Hin as [<-|Hin].
  - exists y'; split; [now left | assumption].
  - destruct (IH Hin) as (y & Hy & HP). exists y; split; [now right | assumption].
Qed.

Lemma Forall2_In_r {X Y : Type} (P : X -> Y -> Prop) (xs : list X)
      (ys : list Y) (y : Y) :
  Forall2 P xs ys -> In y ys -> exists x, In x xs /\ P x y.
Proof.
  induction 1 as [|x' y' xs ys Hxy _ IH]; intros Hin; [destruct Hin|].
  destruct Hin as [<-|Hin].
  - exists x'; split; [now left | assumption].
  - destruct (IH Hin) as (x & Hx & HP). exists x; split; [now right | assumption].
Qed.

Section OrbitSound.
Context {B F : Type} `{Enclosure B F}.

Add Field true_values_orbit : field_laws.

Variable Mats : list (matrix B).
Variable tMats : list (list (list F)).
Variable n : nat.
Variable tvec : list F.
Variable tr : bool.

Hypothesis HMats : Forall2 (fun M tM => encloses n n (rows M) tM) Mats tMats.
Hypothesis Hvec : length tvec = n.

(** A true vector with the operator that maps the seed to it. *)
Definition realizes (v : list F) (X : list (list F)) : Prop :=
  v = mulmv X tvec /\ shape n n X /\ polynomial_in n tMats X.

(** The true vectors [tb] and operators [tT] behind the variables of the
    loop of [orbit]. *)
Definition orbit_true (st : orbit_state) (tb : list (list F))
           (tT : list (list (list F))) : Prop :=
  encloses (length (op st)) n (ob st) tb /\
  has_pivots (length (op st)) (of_rows tb) (op st) /\
  Forall2 realizes tb tT /\
  (tr = true -> Forall2 (encloses n n) (oT st) tT).

Lemma tMats_shape (tM : list (list F)) : In tM tMats -> shape n n tM.
Proof.
  intros Hin. destruct (@Forall2_In_r _ _ _ _ _ _ HMats Hin) as (M & _ & HM).
  now destruct HM as (_ & HMx & _).
Qed.

Lemma realizes_nth (tb : list (list F)) (tT : list (list (list F))) (i : nat) :
  Forall2 realizes tb tT -> i < length tb ->
  realizes (nth i tb []) (nth i tT []).
Proof. intros HF Hi. now apply Forall2_nth_rel. Qed.

Lemma realizes_shapes (tb : list (list F)) (tT : list (list (list F))) :
  Forall2 realizes tb tT ->
  Forall (shape n n) tT /\ Forall (polynomial_in n tMats) tT.
Proof.
  induction 1 as [|v X tb tT (_ & Hs & Hp) _ [IH1 IH2]]; split; auto.
Qed.

(** The rows and the operators added at lines 245-247. *)
Lemma orbit_products_sound (b : list (list B)) (T : list (list (list B)))
      (tb : list (list F)) (tT : list (list (list F))) (new : list nat) (r : nat) :
  encloses r n b tb -> Forall2 realizes tb tT ->
  Forall (fun i => i < r) new ->
  let l := flat_map (fun mat => map (fun i => mulmv (rows mat) (nth i b [])) new) Mats in
  let tl := flat_map (fun tM => map (fun i => mulmv tM (nth i tb [])) new) tMats in
  let Tl := flat_map (fun mat => map (fun i => matmul n (rows mat) (nth i T [])) new) Mats in
  let tTl := flat_map (fun tM => map (fun i => matmul n tM (nth i tT [])) new) tMats in
  contains_rows l tl /\ Forall (fun v => length v = n) l /\
  Forall2 realizes tl tTl /\
  (Forall2 (encloses n n) T tT -> Forall2 (encloses n n) Tl tTl).
Proof.
  intros Hb Hreal Hnew l tl Tl tTl.
  assert (Hb' := Hb). destruct Hb' as (Hsb & Hstb & _).
  assert (Hlb : length b = r) by (exact (proj1 Hsb)).
  assert (Hltb : length tb = r) by (exact (proj1 Hstb)).
  assert (HltT : length tT = r)
    by (rewrite <- Hltb; symmetry; eapply Forall2_length; eauto).
  rewrite Forall_forall in Hnew.
  split; [|split; [|split]].
  - unfold l, tl. eapply Forall2_flat_map; [exact HMats|].
    intros M tM HM. apply Forall2_map_same. intros i Hi.
    apply (@mulmv_contains _ _ _ _ _ n n (rows M) tM _ _ HM).
    + apply Forall2_nth_rel; [now apply (encloses_rows Hb)|].
      rewrite Hlb. now apply Hnew.
    + apply shape_row with (m := r); auto.
  - unfold l. apply Forall_forall. intros v Hin.
    apply in_flat_map in Hin as (M & HM & Hin).
    apply in_map_iff in Hin as (i & <- & _).
    rewrite mulmv_length.
    destruct (@Forall2_In_l _ _ _ _ _ _ HMats HM) as (tM & _ & Hs & _).
    exact (proj1 Hs).
  - unfold tl, tTl. eapply Forall2_flat_map with (P := fun x y => x = y /\ In x tMats).
    { apply Forall2_diag. auto. }
    intros tM ? [<- HtM]. apply Forall2_map_same. intros i Hi.
    assert (Hir : i < length tb) by (rewrite Hltb; now apply Hnew).
    destruct (realizes_nth Hreal Hir) as (Ev & HsX & HpX).
    assert (HsM := @tMats_shape tM HtM).
    split; [|split].
    + rewrite Ev. symmetry. now apply mulmv_matmul.
    + apply shape_matmul_rows. now destruct HsM.
    + apply poly_mul; [now apply poly_gen | assumption].
  - intros HT. unfold Tl, tTl. eapply Forall2_flat_map; [exact HMats|].
    intros M tM HM. apply Forall2_map_same. intros i Hi.
    apply (@matmul_encloses _ _ _ _ _ n n n _ _ _ _ HM).
    apply Forall2_nth_rel; [assumption|].
    rewrite (Forall2_length HT), HltT. now apply Hnew.
Qed.


(** One round of the loop (lines 245-258) keeps true vectors and operators
    behind its variables. *)
Lemma orbit_body_sound (st st' : orbit_state) (tb : list (list F))
      (tT : list (list (list F))) :
  orbit_ok n tr st -> Forall (fun i => i < orank st) (onew st) ->
  orbit_true st tb tT ->
  orbit_body Mats n tr st = Ok st' ->
  exists tb' tT', orbit_true st' tb' tT'.
Proof.
  intros (Hr & _ & Hlb & Hln & Hwf & _ & _ & HTlen) Hnew
         (Hb & Hpiv & Hreal & HT) E.
  rewrite Hr in Hnew.
  assert (Hprod := @orbit_products_sound (ob st) (oT st) tb tT (onew st)
                     (length (op st)) Hb Hreal Hnew).
  cbv zeta in Hprod. destruct Hprod as (Hl & Hlsh & Hrl & HTl).
  assert (Hltb : length tb = length (op st)) by (exact (proj1 (proj1 (proj2 Hb)))).
  assert (HltT : length tT = length (op st))
    by (rewrite <- Hltb; symmetry; eapply Forall2_length; eauto).
  unfold orbit_body in E.
  destruct (stack n (ob st) _) as [b1|e] eqn:Es; [|discriminate].
  apply stack_app in Es. subst b1.
  set (l := flat_map (fun mat => map (fun i => mulmv (rows mat) (nth i (ob st) []))
                                     (onew st)) Mats) in *.
  set (tl := flat_map (fun tM => map (fun i => mulmv tM (nth i tb [])) (onew st))
                      tMats) in *.
  set (Tl := flat_map (fun mat => map (fun i => matmul n (rows mat) (nth i (oT st) []))
                                      (onew st)) Mats) in *.
  set (tTl := flat_map (fun tM => map (fun i => matmul n tM (nth i tT [])) (onew st))
                       tMats) in *.
  set (b1 := ob st ++ l) in *. set (m := length b1) in *.
  set (tb1 := tb ++ tl). set (tT1 := tT ++ tTl).
  destruct (REF (Mat m n b1) tr true (op st)) as [o|e] eqn:ER; [|discriminate].
  injection E as <-.
  assert (Hb1 : encloses m n b1 tb1).
  { apply rows_encloses.
    - split; [reflexivity|]. apply Forall_app; split; [|exact Hlsh].
      exact (proj2 (proj1 Hb)).
    - apply Forall2_app; [now apply (encloses_rows Hb) | exact Hl]. }
  assert (Hltb1 : length tb1 = m) by (exact (proj1 (proj1 (proj2 Hb1)))).
  assert (Hreal1 : Forall2 realizes tb1 tT1) by (now apply Forall2_app).
  assert (HltT1 : length tT1 = m)
    by (rewrite <- Hltb1; symmetry; eapply Forall2_length; eauto).
  assert (Hmr : length (op st) <= m)
    by (unfold m, b1; rewrite length_app; lia).
  assert (Hwf1 : wf_pivots m n (op st))
    by (apply wf_pivots_more_rows with (m := length (ob st)); auto; lia).
  assert (Hpiv1 : has_pivots (length (op st)) (of_rows tb1) (op st)).
  { intros j pj Hin. destruct (Hpiv j pj Hin) as [Hone Hzer].
    destruct (wf_pivots_row j pj Hwf Hin) as [Hpj _].
    unfold of_rows, tb1 in *. split.
    - rewrite entry_app_l by lia. exact Hone.
    - intros i Hi Hir. rewrite entry_app_l by lia. now apply Hzer. }
  destruct (@REF_sound _ _ _ _ _ (Mat m n b1) tb1 (op st) Hb1 Hwf1 Hpiv1)
    as (Tx & HS & Hinv & HR).
  destruct (REF_state_pivots (Mat m n b1) Hwf1) as [Hwf' (q & Hq)].
  apply REF_Ok in ER as (_ & ER & Ep & ET & _).
  cbn [nrows ncols rows] in *.
  set (S := fst (REF_state (Mat m n b1) (op st))) in *.
  set (p' := snd (REF_state (Mat m n b1) (op st))) in *.
  assert (Epo : pivots_of o = p') by (unfold pivots_of; now rewrite Ep).
  rewrite Epo.
  destruct Hinv as (HsTx & Hkeep & Hpiv' & _).
  assert (Hlp' : length p' <= m) by (exact (proj2 (proj2 (proj2 Hwf')))).
  assert (Hrp' : length (op st) <= length p')
    by (rewrite Hq, length_app; lia).
  assert (Hent : forall a k, a < m -> k < n ->
            entry (matmul n Tx tb1) a k = prod_entry m Tx tb1 a k).
  { intros a k Ha Hk. now apply (@entry_matmul_shape _ _ m m n Tx tb1 a k). }
  assert (Hshp : shape m n (matmul n Tx tb1))
    by (apply shape_matmul_rows; exact (proj1 HsTx)).
  assert (Hsh1 : Forall (shape n n) tT1 /\ Forall (polynomial_in n tMats) tT1)
    by (now apply realizes_shapes with (tb := tb1)).
  exists (firstn (length p') (matmul n Tx tb1)),
         (tT ++ map (fun i => mat_lincomb n (nth i Tx []) tT1)
                    (seq (length (op st)) (length p' - length (op st)))).
  unfold orbit_true; cbn [ob oT op].
  split; [|split; [|split]].
  - rewrite ER. cbn [rows]. now apply encloses_firstn with (m := m).
  - intros j pj Hin.
    destruct (wf_pivots_row j pj Hwf' Hin) as [Hpj Hj].
    destruct (Hpiv' j pj Hin) as [Hone Hzer]. unfold of_rows. split.
    + rewrite entry_firstn_gen by lia. rewrite Hent by lia. exact Hone.
    + intros i Hi Hi2. rewrite entry_firstn_gen by lia. rewrite Hent by lia.
      apply Hzer; lia.
  - apply Forall2_of_nth with (d := []) (e := []).
    + rewrite length_firstn, length_app, length_map, length_seq.
      rewrite (proj1 Hshp). lia.
    + intros i Hi. rewrite length_firstn, (proj1 Hshp) in Hi.
      rewrite nth_firstn.
      replace (i <? length p') with true by (symmetry; apply Nat.ltb_lt; lia).
      destruct (lt_dec i (length (op st))) as [Hir|Hir].
      * rewrite app_nth1 by lia.
        assert (Erow : nth i (matmul n Tx tb1) [] = nth i tb []).
        { transitivity (nth i tb1 []);
            [|unfold tb1; now rewrite app_nth1 by lia].
          apply nth_ext with (d := zero) (d' := zero).
          - rewrite (shape_row Hshp) by lia.
            now rewrite (shape_row (proj1 (proj2 Hb1))) by lia.
          - intros k Hk. rewrite (shape_row Hshp) in Hk by lia.
            change (entry (matmul n Tx tb1) i k = entry tb1 i k).
            rewrite Hent by lia. apply prod_entry_unit_row; [lia|].
            intros c Hc. now apply Hkeep. }
        rewrite Erow. apply realizes_nth; [assumption | lia].
      * rewrite app_nth2 by lia. rewrite HltT.
        rewrite nth_map_seq_from by lia.
        replace (length (op st) + (i - length (op st))) with i by lia.
        destruct (@mat_lincomb_spec _ _ n (nth i Tx []) tT1 (proj1 Hsh1))
          as [Hsl _].
        split; [|split]; [|exact Hsl|apply polynomial_in_lincomb; tauto].
        apply nth_ext with (d := zero) (d' := zero).
        -- rewrite (shape_row Hshp) by lia. rewrite mulmv_length.
           symmetry. exact (proj1 Hsl).
        -- intros a Ha. rewrite (shape_row Hshp) in Ha by lia.
           change (entry (matmul n Tx tb1) i a =
                   nth a (mulmv (mat_lincomb n (nth i Tx []) tT1) tvec) zero).
           rewrite Hent by lia.
           rewrite (@nth_mulmv_lincomb _ _ n (nth i Tx []) tT1 tvec a
                      (proj1 Hsh1) Hvec Ha).
           rewrite HltT1. unfold prod_entry. apply sumn_ext. intros j Hj.
           unfold entry. f_equal.
           assert (Hj' : j < length tb1) by lia.
           destruct (realizes_nth Hreal1 Hj') as (Ev & _).
           now rewrite Ev.
  - intros Htr. specialize (HT Htr). specialize (HTlen Htr).
    rewrite Htr in *. rewrite Hr.
    assert (ES : transformation_of o = S)
      by (unfold transformation_of; now rewrite ET).
    rewrite ES. fold Tl.
    rewrite firstn_app_length by assumption.
    apply Forall2_app; [exact HT|].
    apply Forall2_map_same. intros i Hi. apply in_seq in Hi.
    assert (HT1 : Forall2 (encloses n n) (oT st ++ Tl) tT1)
      by (apply Forall2_app; auto).
    apply mat_lincomb_encloses; [|exact HT1].
    intros j Hj. rewrite (Forall2_length HT1), HltT1 in Hj.
    apply (encloses_entry HS); lia.
Qed.


Lemma orbit_loop_sound (fuel : nat) (st st' : orbit_state)
      (tb : list (list F)) (tT : list (list (list F))) :
  orbit_ok n tr st -> Forall (fun i => i < orank st) (onew st) ->
  orbit_true st tb tT ->
  orbit_loop fuel Mats n tr st = Some (Ok st') ->
  orbit_ok n tr st' /\ exists tb' tT', orbit_true st' tb' tT'.
Proof.
  revert st tb tT.
  assert (Hstep : forall st tb tT st1,
            orbit_ok n tr st -> Forall (fun i => i < orank st) (onew st) ->
            orbit_true st tb tT -> orbit_body Mats n tr st = Ok st1 ->
            orbit_ok n tr st1 /\ Forall (fun i => i < orank st1) (onew st1) /\
            exists tb1 tT1, orbit_true st1 tb1 tT1).
  { intros st tb tT st1 Hok Hnew Htrue Eb.
    destruct (@orbit_body_ok _ _ Mats n tr st st1 Hok Eb) as (Hok1 & Hle & En).
    split; [assumption|]. split.
    - rewrite En. apply Forall_forall. intros i Hi. apply in_seq in Hi. lia.
    - now apply orbit_body_sound with (st := st) (tb := tb) (tT := tT). }
  induction fuel as [|fuel IH]; intros st tb tT Hok Hnew Htrue E;
    cbn [orbit_loop] in E;
    destruct (negb (Nat.ltb 0 (length (onew st)) && Nat.ltb (orank st) n)).
  - injection E as <-. split; [assumption|]. now exists tb, tT.
  - discriminate.
  - injection E as <-. split; [assumption|]. now exists tb, tT.
  - destruct (orbit_body Mats n tr st) as [st1|e] eqn:Eb; [|discriminate].
    destruct (Hstep st tb tT st1 Hok Hnew Htrue Eb)
      as (Hok1 & Hnew1 & tb1 & tT1 & Htrue1).
    now apply IH with (st := st1) (tb := tb1) (tT := tT1).
Qed.

(** Lines 235-242: the first call of REF, on the seed alone. *)
Lemma orbit_start_sound (vec : list B) (o : REF_out) :
  length vec = n -> contains_vec vec tvec ->
  REF (Mat 1 n [vec]) true true [] = Ok o ->
  length (pivots_of o) <> 0 ->
  let st0 := OrbitState (rows (out_R o))
               (if tr then [mat_scale (entry (transformation_of o) 0 0)
                                      (identity n)]
                else [])
               (pivots_of o) 1 [0] in
  orbit_ok n tr st0 /\ Forall (fun i => i < orank st0) (onew st0) /\
  exists tb tT, orbit_true st0 tb tT.
Proof.
  intros Hlv Hv ER Hne st0.
  destruct (@REF_echelon_step _ _ n [vec] true [] o (wf_pivots_nil _ _) ER)
    as (_ & Hlb & Hle1 & Hlen & Hwf & Hwr & Hall & _).
  cbn [length] in Hle1.
  assert (Hone : length (pivots_of o) = 1) by lia.
  assert (Hb1 : encloses 1 n [vec] [tvec]).
  { apply rows_encloses.
    - split; [reflexivity|]. constructor; [assumption | constructor].
    - constructor; [assumption | constructor]. }
  assert (Hp0 : has_pivots (length (@nil (nat * nat))) (of_rows [tvec]) [])
    by (intros j pj []).
  destruct (@REF_sound _ _ _ _ _ (Mat 1 n [vec]) [tvec] [] Hb1
              (wf_pivots_nil 1 n) Hp0) as (Tx & HS & Hinv & HR).
  apply REF_Ok in ER as (_ & ER & Ep & ET & _).
  cbn [nrows ncols rows] in *.
  set (S := fst (REF_state (Mat 1 n [vec]) [])) in *.
  set (p' := snd (REF_state (Mat 1 n [vec]) [])) in *.
  assert (Epo : pivots_of o = p') by (unfold pivots_of; now rewrite Ep).
  assert (ES : transformation_of o = S)
    by (unfold transformation_of; now rewrite ET).
  destruct Hinv as (HsTx & _ & Hpiv' & _).
  assert (HlR : length (rows (out_R o)) = 1) by (rewrite ER; exact (proj1 (proj1 HR))).
  assert (Efn : firstn (length (pivots_of o)) (rows (out_R o)) = rows (out_R o))
    by (rewrite Hone, <- HlR; apply firstn_all).
  rewrite Efn in *.
  assert (Hent : forall a, a < n ->
            entry (matmul n Tx [tvec]) 0 a = prod_entry 1 Tx [tvec] 0 a).
  { intros a Ha.
    apply (@entry_matmul_shape _ _ 1 1 n Tx [tvec] 0 a); auto. }
  split; [|split].
  - unfold orbit_ok, st0; cbn [ob oT op orank onew].
    split; [lia|]. split; [lia|]. split; [lia|]. split; [exact Hlen|].
    split; [exact Hwf|]. split; [exact Hwr|]. split; [exact Hall|].
    now intros ->.
  - unfold st0; cbn [orank onew]. constructor; [lia | constructor].
  - exists (matmul n Tx [tvec]), [mat_scale (entry Tx 0 0) (identity n)].
    unfold orbit_true, st0; cbn [ob oT op]. rewrite Hone.
    split; [|split; [|split]].
    + rewrite ER. exact HR.
    + rewrite Epo. intros j pj Hin.
      assert (Hwf' := proj1 (REF_state_pivots (Mat 1 n [vec]) (wf_pivots_nil 1 n))).
      cbn [nrows ncols] in Hwf'. fold p' in Hwf'.
      destruct (wf_pivots_row j pj Hwf' Hin) as [Hpj Hj].
      rewrite <- Epo, Hone in Hpj. assert (pj = 0) by lia. subst pj.
      destruct (Hpiv' j 0 Hin) as [Hone' _]. unfold of_rows. split.
      * rewrite Hent by assumption. exact Hone'.
      * intros i Hi Hi'. lia.
    + assert (Hshp : shape 1 n (matmul n Tx [tvec]))
        by (apply shape_matmul_rows; exact (proj1 HsTx)).
      apply Forall2_of_nth with (d := []) (e := []);
        [rewrite (proj1 Hshp); reflexivity|].
      intros i Hi. rewrite (proj1 Hshp) in Hi.
      assert (i = 0) by lia. subst i. cbn [nth].
      assert (Hsc : shape n n (mat_scale (entry Tx 0 0) (identity n)))
        by (apply shape_mat_scale, shape_identity).
      split; [|split]; [|exact Hsc|apply poly_scalar].
      apply nth_ext with (d := zero) (d' := zero).
      * rewrite (shape_row Hshp) by lia. rewrite mulmv_length.
        symmetry. exact (proj1 Hsc).
      * intros a Ha. rewrite (shape_row Hshp) in Ha by lia.
        change (entry (matmul n Tx [tvec]) 0 a =
                nth a (mulmv (mat_scale (entry Tx 0 0) (identity n)) tvec) zero).
        rewrite Hent by assumption.
        rewrite (@nth_mulmv_scalar _ _ n (entry Tx 0 0) tvec a Hvec Ha).
        unfold prod_entry. cbn [sumn]. unfold entry at 2. cbn [nth]. ring.
    + intros ->. rewrite ES. constructor; [|constructor].
      apply mat_scale_encloses; [|apply encloses_identity].
      apply (encloses_entry HS); lia.
Qed.

End OrbitSound.

(** The docstring of [orbit], points ii) and iii): whatever true
    matrices the balls of [Mats] contain and whatever true vector [vec]
    contains, a basis returned by [orbit] contains true vectors that are
    linearly independent, each the image of the true seed under a polynomial
    in the true matrices; when [transition] is set that polynomial is
    contained in the operator returned for the vector. *)
Theorem orbit_sound {B F : Type} `{Enclosure B F} (Mats : list (matrix B))
        (tMats : list (list (list F))) (vec : list B) (tvec : list F)
        (transition : bool) (b : list (list B))
        (Ts : option (list (list (list B)))) :
  Forall2 (fun M tM => encloses (length vec) (length vec) (rows M) tM)
          Mats tMats ->
  contains_vec vec tvec ->
  orbit Mats vec transition = Some (Ok (b, Ts)) ->
  exists (tb : list (list F)) (tT : list (list (list F))),
    contains_rows b tb /\ lin_indep (length vec) tb /\
    Forall2 (fun v X => v = mulmv X tvec /\
                        polynomial_in (length vec) tMats X) tb tT /\
    forall T, Ts = Some T -> Forall2 contains_rows T tT.
Proof.
  intros HM Hv E.
  assert (Hlv : length tvec = length vec)
    by (symmetry; eapply Forall2_length; eauto).
  unfold orbit in E.
  destruct (REF (Mat 1 (length vec) [vec]) true true []) as [o|e] eqn:ER;
    [|discriminate].
  destruct (Nat.eqb_spec (length (pivots_of o)) 0) as [E0|E0].
  - injection E as <- <-. exists [], [].
    split; [constructor|]. split.
    + intros cs Hcs _. destruct cs; [constructor | discriminate].
    + split; [constructor|]. intros T ET.
      destruct transition; [injection ET as <-; constructor | discriminate].
  - destruct (@orbit_start_sound _ _ _ _ _ tMats (length vec) tvec
                transition Hlv vec o eq_refl Hv ER E0)
      as (Hok0 & Hnew0 & tb0 & tT0 & Htrue0).
    destruct (orbit_loop _ _ _ _ _) as [[st|e]|] eqn:EL; try discriminate.
    injection E as <- <-.
    destruct (@orbit_loop_sound _ _ _ _ _ Mats tMats (length vec) tvec
                transition HM Hlv _ _ st tb0 tT0 Hok0 Hnew0 Htrue0 EL)
      as (Hok & tb & tT & Hb & Hpiv & Hreal & HT).
    destruct Hok as (_ & _ & Hlb & _ & Hwf & _).
    exists tb, tT. split; [now apply (encloses_rows Hb)|]. split; [|split].
    + assert (Hsh : shape (length (op st)) (length vec) tb)
        by (exact (proj1 (proj2 Hb))).
      rewrite Hlb in Hwf.
      assert (Hind := @pivot_rows_independent _ _ _ _ tb (op st) Hsh Hwf Hpiv).
      rewrite <- (proj1 Hsh), firstn_all in Hind. exact Hind.
    + eapply Forall2_impl; [|exact Hreal]. intros v X (Ev & _ & Hp). now split.
    + intros T ET. destruct transition; [|discriminate].
      injection ET as <-.
      eapply Forall2_impl; [|exact (HT eq_refl)].
      intros X Xx HX. now apply (encloses_rows HX).
Qed.

Lemma orbit_sound_witness :
  exists b T (tb : list (list Qc)) (tT : list (list (list Qc))),
    orbit [MidRad.late] [MidRad.point 1; MidRad.point 0; MidRad.point 0] true =
    Some (Ok (b, Some T)) /\
    contains_rows b tb /\ lin_indep 3 tb /\ Forall2 contains_rows T tT.
Proof.
  destruct (orbit [MidRad.late] [MidRad.point 1; MidRad.point 0; MidRad.point 0]
                  true) as [[[b [T|]]|e]|] eqn:E;
    try (vm_compute in E; discriminate).
  assert (HM : Forall2 (fun M tM => encloses 3 3 (rows M) tM)
                       [MidRad.late] [rows MidRad.late_true]).
  { constructor; [|constructor]. apply rows_encloses.
    - repeat constructor.
    - repeat constructor; apply Qle_bool_iff; reflexivity. }
  assert (Hv : contains_vec [MidRad.point 1; MidRad.point 0; MidRad.point 0]
                            [Q2Qc 1; Q2Qc 0; Q2Qc 0])
    by (repeat constructor; apply Qle_bool_iff; reflexivity).
  destruct (@orbit_sound _ _ _ _ _ [MidRad.late] [rows MidRad.late_true]
              [MidRad.point 1; MidRad.point 0; MidRad.point 0]
              [Q2Qc 1; Q2Qc 0; Q2Qc 0] true b (Some T) HM Hv E)
    as (tb & tT & Hb & Hind & _ & HT).
  exists b, T, tb, tT. split; [reflexivity|]. split; [exact Hb|].
  split; [exact Hind|]. now apply HT.
Defined.

(* ================================================================== *)
(** ** Matrices as vectors: flatten and reshape *)

Lemma combine_app_eq {X Y : Type} (u u' : list X) (v v' : list Y) :
  length u = length v ->
  combine (u ++ u') (v ++ v') = combine u v ++ combine u' v'.
Proof.
  revert v. induction u as [|x u IH]; intros [|y v] Hl; try discriminate.
  - reflexivity.
  - cbn [app combine]. f_equal. apply IH. now injection Hl.
Qed.

Section FlattenFacts.
Context {A : Type} `{Arith A}.

Lemma length_flatten (m n : nat) (X : list (list A)) :
  shape m n X -> length (flatten X) = m * n.
Proof.
  intros [Hm Hn]. subst m. unfold flatten.
  induction Hn as [|row X Hrow _ IH]; [reflexivity|].
  cbn [concat length]. rewrite length_app, IH, Hrow. lia.
Qed.

Lemma block_of_concat (n i : nat) (X : list (list A)) :
  Forall (fun row => length row = n) X -> i < length X ->
  firstn n (skipn (i * n) (concat X)) = nth i X [].
Proof.
  intros Hall. revert i. induction Hall as [|row X Hrow _ IH]; intros i Hi.
  - cbn [length] in Hi. lia.
  - destruct i as [|i]; cbn [concat nth].
    + cbn [Nat.mul skipn]. now apply firstn_app_length.
    + replace (Datatypes.S i * n) with (length row + i * n) by (cbn; lia).
      rewrite skipn_app, skipn_all2 by lia. cbn [app].
      replace (length row + i * n - length row) with (i * n) by lia.
      apply IH. cbn [length] in Hi. lia.
Qed.

Lemma reshape_flatten (n : nat) (X : list (list A)) :
  shape n n X -> reshape n (flatten X) = X.
Proof.
  intros [Hm Hn]. unfold reshape, flatten.
  apply nth_ext with (d := []) (d' := []).
  - now rewrite map_seq_length.
  - intros i Hi. rewrite map_seq_length in Hi.
    rewrite nth_map_seq by assumption.
    apply block_of_concat; [assumption | lia].
Qed.

Lemma shape_reshape (n : nat) (v : list A) :
  length v = n * n -> shape n n (reshape n v).
Proof.
  intros Hv. unfold reshape. split; [apply map_seq_length|].
  apply Forall_forall. intros row Hin.
  apply in_map_iff in Hin as (i & <- & Hi). apply in_seq in Hi.
  rewrite length_firstn, length_skipn, Hv. nia.
Qed.

Lemma flatten_mat_add (m n : nat) (X Y : list (list A)) :
  shape m n X -> shape m n Y ->
  flatten (mat_add X Y) = vec_add (flatten X) (flatten Y).
Proof.
  intros [Hm Hn] [Hm' Hn']. subst m. revert Y Hm' Hn'.
  unfold flatten, mat_add.
  induction Hn as [|row X Hrow _ IH]; intros Y Hm' Hn'.
  - destruct Y; [reflexivity | discriminate].
  - destruct Y as [|row' Y]; [discriminate|].
    apply Forall_cons_iff in Hn' as [Hrow' Hn'].
    cbn [combine map concat fst snd]. rewrite IH; auto.
    unfold vec_add. rewrite combine_app_eq by congruence.
    now rewrite map_app.
Qed.

Lemma flatten_mat_scale (s : A) (X : list (list A)) :
  flatten (mat_scale s X) = map (mul s) (flatten X).
Proof. unfold flatten, mat_scale. now rewrite concat_map. Qed.

Lemma nth_concat_const (row : list A) (l : list nat) (k : nat) :
  (forall j, nth j row zero = zero) ->
  nth k (concat (map (fun _ => row) l)) zero = zero.
Proof.
  intros Hrow. revert k. induction l as [|x l IH]; intros k; cbn [map concat].
  - now destruct k.
  - destruct (lt_dec k (length row)) as [Hk|Hk].
    + rewrite app_nth1 by assumption. apply Hrow.
    + rewrite app_nth2 by lia. apply IH.
Qed.

Lemma nth_flatten_zero (n k : nat) :
  nth k (flatten (mat_zero n)) zero = zero.
Proof.
  unfold flatten, mat_zero. apply nth_concat_const. intros j.
  destruct (lt_dec j n) as [Hj|Hj].
  - now rewrite nth_map_seq.
  - apply nth_overflow. rewrite map_seq_length. lia.
Qed.

Lemma nth_flatten_lincomb (n : nat) (s : list A) (Ts : list (list (list A)))
      (k : nat) :
  Forall (shape n n) Ts -> k < n * n ->
  nth k (flatten (mat_lincomb n s Ts)) zero =
  sumn (fun j => mul (nth j s zero) (nth k (flatten (nth j Ts [])) zero))
       (length Ts).
Proof.
  intros Hall Hk. induction Ts as [|T Ts IH] using rev_ind.
  - apply nth_flatten_zero.
  - apply Forall_app in Hall as [Hall HT]. apply Forall_inv in HT.
    destruct (@mat_lincomb_spec _ _ n s Ts Hall) as [Hsh _].
    rewrite mat_lincomb_snoc.
    rewrite (@flatten_mat_add n n) by (auto using shape_mat_scale).
    rewrite nth_vec_add_gen;
      rewrite ?(@length_flatten n n) by (auto using shape_mat_scale); auto.
    rewrite IH by assumption.
    rewrite length_app, Nat.add_1_r. cbn [sumn].
    rewrite app_nth2, Nat.sub_diag by lia. cbn [nth].
    rewrite flatten_mat_scale.
    rewrite nth_map_lt with (d := zero)
      by (now rewrite (@length_flatten n n)).
    f_equal. apply sumn_ext. intros j Hj. now rewrite app_nth1 by assumption.
Qed.

End FlattenFacts.

Lemma Forall2_firstn {X Y : Type} (P : X -> Y -> Prop) (k : nat)
      (u : list X) (v : list Y) :
  Forall2 P u v -> Forall2 P (firstn k u) (firstn k v).
Proof.
  intros HF. revert k. induction HF; intros [|k]; cbn [firstn]; auto.
Qed.

Lemma Forall2_skipn {X Y : Type} (P : X -> Y -> Prop) (k : nat)
      (u : list X) (v : list Y) :
  Forall2 P u v -> Forall2 P (skipn k u) (skipn k v).
Proof.
  intros HF. revert k. induction HF; intros [|k]; cbn [skipn]; auto.
Qed.

Lemma Forall2_concat {X Y : Type} (P : X -> Y -> Prop)
      (u : list (list X)) (v : list (list Y)) :
  Forall2 (Forall2 P) u v -> Forall2 P (concat u) (concat v).
Proof.
  induction 1; cbn [concat]; [constructor | now apply Forall2_app].
Qed.

Section FlattenSound.
Context {B F : Type} `{Enclosure B F}.

Lemma reshape_encloses (n : nat) (v : list B) (vx : list F) :
  contains_vec v vx -> length v = n * n ->
  encloses n n (reshape n v) (reshape n vx).
Proof.
  intros Hv Hl. apply rows_encloses; [now apply shape_reshape|].
  unfold reshape. apply Forall2_map_same. intros i _.
  now apply Forall2_firstn, Forall2_skipn.
Qed.

Lemma flatten_contains (X : list (list B)) (Xx : list (list F)) :
  contains_rows X Xx -> contains_vec (flatten X) (flatten Xx).
Proof. apply Forall2_concat. Qed.

(** What one call of REF, resumed from the pivots [p] of the first rows,
    does to the true rows [tb1] behind its argument [b1]. *)
Lemma REF_step_true (N : nat) (b1 : list (list B)) (tb1 : list (list F))
      (tr : bool) (p : pivots) (o : REF_out) :
  encloses (length b1) N b1 tb1 ->
  wf_pivots (length b1) N p ->
  has_pivots (length p) (of_rows tb1) p ->
  REF (Mat (length b1) N b1) tr true p = Ok o ->
  let p' := pivots_of o in
  exists Tx tb',
    encloses (length b1) (length b1) (fst (REF_state (Mat (length b1) N b1) p)) Tx /\
    length p <= length p' /\ length p' <= length b1 /\
    encloses (length p') N (firstn (length p') (rows (out_R o))) tb' /\
    has_pivots (length p') (of_rows tb') p' /\
    (forall i, i < length p -> nth i tb' [] = nth i tb1 []) /\
    (forall i k, i < length p' -> k < N ->
       nth k (nth i tb' []) zero =
       sumn (fun j => mul (nth j (nth i Tx []) zero) (nth k (nth j tb1 []) zero))
            (length b1)).
Proof.
  intros Hb1 Hwf1 Hpiv1 ER p'.
  set (m := length b1) in *.
  destruct (@REF_sound _ _ _ _ _ (Mat m N b1) tb1 p Hb1 Hwf1 Hpiv1)
    as (Tx & HS & Hinv & HR).
  destruct (REF_state_pivots (Mat m N b1) Hwf1) as [Hwf' (q & Hq)].
  apply REF_Ok in ER as (_ & ER & Ep & _).
  cbn [nrows ncols rows] in *.
  set (p1 := snd (REF_state (Mat m N b1) p)) in *.
  assert (Epo : p' = p1) by (unfold p', pivots_of; now rewrite Ep).
  rewrite Epo. clear Epo p'.
  destruct Hinv as (HsTx & Hkeep & Hpiv' & _).
  assert (Hltb1 : length tb1 = m) by (exact (proj1 (proj1 (proj2 Hb1)))).
  assert (Hlp' : length p1 <= m) by (exact (proj2 (proj2 (proj2 Hwf')))).
  assert (Hrp' : length p <= length p1) by (rewrite Hq, length_app; lia).
  assert (Hent : forall a k, a < m -> k < N ->
            entry (matmul N Tx tb1) a k = prod_entry m Tx tb1 a k).
  { intros a k Ha Hk. now apply (@entry_matmul_shape _ _ m m N Tx tb1 a k). }
  assert (Hshp : shape m N (matmul N Tx tb1))
    by (apply shape_matmul_rows; exact (proj1 HsTx)).
  exists Tx, (firstn (length p1) (matmul N Tx tb1)).
  split; [exact HS|]. split; [exact Hrp'|]. split; [exact Hlp'|].
  split; [|split; [|split]].
  - rewrite ER. cbn [rows]. now apply encloses_firstn with (m := m).
  - intros j pj Hin.
    destruct (wf_pivots_row j pj Hwf' Hin) as [Hpj Hj].
    destruct (Hpiv' j pj Hin) as [Hone Hzer]. unfold of_rows. split.
    + rewrite entry_firstn_gen by lia. rewrite Hent by lia. exact Hone.
    + intros i Hi Hi2. rewrite entry_firstn_gen by lia. rewrite Hent by lia.
      apply Hzer; lia.
  - intros i Hi. rewrite nth_firstn.
    replace (i <? length p1) with true by (symmetry; apply Nat.ltb_lt; lia).
    apply nth_ext with (d := zero) (d' := zero).
    + rewrite (shape_row Hshp) by lia.
      now rewrite (shape_row (proj1 (proj2 Hb1))) by lia.
    + intros k Hk. rewrite (shape_row Hshp) in Hk by lia.
      change (entry (matmul N Tx tb1) i k = entry tb1 i k).
      rewrite Hent by lia. apply prod_entry_unit_row; [lia|].
      intros c Hc. now apply Hkeep.
  - intros i k Hi Hk. rewrite nth_firstn.
    replace (i <? length p1) with true by (symmetry; apply Nat.ltb_lt; lia).
    change (entry (matmul N Tx tb1) i k =
            sumn (fun j => mul (entry Tx i j) (entry tb1 j k)) m).
    now rewrite Hent by lia.
Qed.

End FlattenSound.

(* ================================================================== *)
(** ** The true matrices behind generated_algebra *)

Lemma Forall2_map_both {X Y U V : Type} (P : X -> Y -> Prop)
      (R : U -> V -> Prop) (f : X -> U) (g : Y -> V)
      (xs : list X) (ys : list Y) :
  Forall2 P xs ys -> (forall x y, P x y -> R (f x) (g y)) ->
  Forall2 R (map f xs) (map g ys).
Proof. induction 1; intros Hfg; cbn [map]; constructor; auto. Qed.

Lemma Forall2_map_left {X U : Type} (R : U -> X -> Prop) (f : X -> U)
      (l : list X) :
  (forall x, In x l -> R (f x) x) -> Forall2 R (map f l) l.
Proof.
  induction l as [|x l IH]; intros Hall; cbn [map]; constructor.
  - apply Hall; now left.
  - apply IH. intros y Hy. apply Hall; now right.
Qed.

Section AlgebraSound.
Context {B F : Type} `{Enclosure B F}.

Add Field true_values_algebra : field_laws.

Variable tMats : list (list (list F)).
Variable n : nat.

(** A true vector of size [n * n] and the polynomial in the true matrices
    whose entries it lists. *)
Definition realizes_mat (v : list F) (X : list (list F)) : Prop :=
  v = flatten X /\ shape n n X /\ polynomial_in n tMats X.

Definition algebra_true (st : algebra_state) (tb : list (list F))
           (tX : list (list (list F))) : Prop :=
  encloses (length (ap st)) (n * n) (ab st) tb /\
  has_pivots (length (ap st)) (of_rows tb) (ap st) /\
  Forall2 realizes_mat tb tX.

Lemma realizes_mat_shapes (tb : list (list F)) (tX : list (list (list F))) :
  Forall2 realizes_mat tb tX ->
  Forall (shape n n) tX /\ Forall (polynomial_in n tMats) tX.
Proof.
  induction 1 as [|v X tb tX (_ & Hs & Hp) _ [IH1 IH2]]; split; auto.
Qed.

(** Lines 312-314 and 320-324: REF and the rows kept. *)
Lemma algebra_REF_sound (b1 : list (list B)) (tb1 : list (list F))
      (tX1 : list (list (list F))) (p : pivots) (o : REF_out) :
  encloses (length b1) (n * n) b1 tb1 -> Forall2 realizes_mat tb1 tX1 ->
  wf_pivots (length b1) (n * n) p ->
  has_pivots (length p) (of_rows tb1) p ->
  REF (Mat (length b1) (n * n) b1) false true p = Ok o ->
  exists tb' tX',
    encloses (length (pivots_of o)) (n * n)
             (firstn (length (pivots_of o)) (rows (out_R o))) tb' /\
    has_pivots (length (pivots_of o)) (of_rows tb') (pivots_of o) /\
    Forall2 realizes_mat tb' tX'.
Proof.
  intros Hb1 Hreal1 Hwf1 Hpiv1 ER.
  destruct (@REF_step_true _ _ _ _ _ (n * n) b1 tb1 false p o Hb1 Hwf1 Hpiv1 ER)
    as (Tx & tb' & _ & _ & Hlp' & Hb' & Hpiv' & _ & Hrows).
  cbv zeta in *.
  assert (Hltb1 : length tb1 = length b1) by (exact (proj1 (proj1 (proj2 Hb1)))).
  assert (HltX1 : length tX1 = length b1)
    by (rewrite <- Hltb1; symmetry; eapply Forall2_length; eauto).
  destruct (realizes_mat_shapes Hreal1) as [Hsh1 Hpol1].
  exists tb', (map (fun i => mat_lincomb n (nth i Tx []) tX1)
                   (seq 0 (length (pivots_of o)))).
  split; [exact Hb'|]. split; [exact Hpiv'|].
  assert (Hshb' : shape (length (pivots_of o)) (n * n) tb')
    by (exact (proj1 (proj2 Hb'))).
  apply Forall2_of_nth with (d := []) (e := []).
  - rewrite map_seq_length. exact (proj1 Hshb').
  - intros i Hi. rewrite (proj1 Hshb') in Hi.
    rewrite nth_map_seq by assumption.
    destruct (@mat_lincomb_spec _ _ n (nth i Tx []) tX1 Hsh1) as [Hsl _].
    split; [|split]; [|exact Hsl|now apply polynomial_in_lincomb].
    apply nth_ext with (d := zero) (d' := zero).
    + rewrite (shape_row Hshb') by assumption.
      now rewrite (@length_flatten _ n n).
    + intros k Hk. rewrite (shape_row Hshb') in Hk by assumption.
      rewrite Hrows by assumption.
      rewrite nth_flatten_lincomb by assumption.
      rewrite HltX1. apply sumn_ext. intros j Hj. f_equal.
      assert (Hj' : j < length tb1) by lia.
      destruct (@Forall2_nth_rel _ _ realizes_mat [] [] tb1 tX1 j Hreal1 Hj')
        as (Ev & _).
      now rewrite Ev.
Qed.

(** The products of line 319. *)
Lemma algebra_products_sound (b : list (list B)) (tb : list (list F))
      (tX : list (list (list F))) (new : list nat) (r : nat) :
  encloses r (n * n) b tb -> Forall2 realizes_mat tb tX ->
  Forall (fun j => j < r) new ->
  let prods := flat_map (fun i => map (fun j =>
      flatten (matmul n (reshape n (nth i b [])) (reshape n (nth j b []))))
      new) (seq 0 r) in
  let tprods := flat_map (fun i => map (fun j =>
      flatten (matmul n (reshape n (nth i tb [])) (reshape n (nth j tb []))))
      new) (seq 0 r) in
  let tXs := flat_map (fun i => map (fun j =>
      matmul n (nth i tX []) (nth j tX [])) new) (seq 0 r) in
  contains_rows prods tprods /\ Forall (fun v => length v = n * n) prods /\
  Forall2 realizes_mat tprods tXs.
Proof.
  intros Hb Hreal Hnew prods tprods tXs.
  assert (Hsb : shape r (n * n) b) by (exact (proj1 Hb)).
  assert (Hlb : length b = r) by (exact (proj1 Hsb)).
  assert (Hltb : length tb = r) by (exact (proj1 (proj1 (proj2 Hb)))).
  rewrite Forall_forall in Hnew.
  assert (Hrow : forall i, i < r ->
            encloses n n (reshape n (nth i b [])) (reshape n (nth i tb []))).
  { intros i Hi. apply reshape_encloses.
    - apply Forall2_nth_rel; [now apply (encloses_rows Hb) | lia].
    - now apply shape_row with (m := r). }
  assert (Hx : forall i, i < r ->
            reshape n (nth i tb []) = nth i tX [] /\
            shape n n (nth i tX []) /\ polynomial_in n tMats (nth i tX [])).
  { intros i Hi. assert (Hi' : i < length tb) by lia.
    destruct (@Forall2_nth_rel _ _ realizes_mat [] [] tb tX i Hreal Hi')
      as (Ev & Hs & Hp).
    split; [|split]; auto. rewrite Ev. now apply reshape_flatten. }
  split; [|split].
  - unfold prods, tprods.
    eapply Forall2_flat_map with (P := fun x y => x = y /\ In x (seq 0 r)).
    { apply Forall2_diag. auto. }
    intros i ? [<- Hi]. apply in_seq in Hi.
    apply Forall2_map_same. intros j Hj.
    apply flatten_contains.
    apply (@encloses_rows _ _ _ _ _ n n).
    apply (@matmul_encloses _ _ _ _ _ n n n); apply Hrow; [lia | now apply Hnew].
  - unfold prods. apply Forall_forall. intros v Hin.
    apply in_flat_map in Hin as (i & _ & Hin).
    apply in_map_iff in Hin as (j & <- & _).
    apply (@length_flatten _ n n), shape_matmul_rows.
    unfold reshape. apply map_seq_length.
  - unfold tprods, tXs.
    eapply Forall2_flat_map with (P := fun x y => x = y /\ In x (seq 0 r)).
    { apply Forall2_diag. auto. }
    intros i ? [<- Hi]. apply in_seq in Hi.
    apply Forall2_map_same. intros j Hj.
    destruct (Hx i ltac:(lia)) as (Ei & Hsi & Hpi).
    destruct (Hx j (Hnew j Hj)) as (Ej & Hsj & Hpj).
    rewrite Ei, Ej. split; [reflexivity|]. split.
    + apply shape_matmul_rows. exact (proj1 Hsi).
    + now apply poly_mul.
Qed.

Lemma algebra_body_sound (st st' : algebra_state) (tb : list (list F))
      (tX : list (list (list F))) :
  algebra_ok n st -> Forall (fun j => j < arank st) (anew st) ->
  algebra_true st tb tX ->
  algebra_body n st = Ok st' ->
  exists tb' tX', algebra_true st' tb' tX'.
Proof.
  intros (Hr & Hlb & Hln & Hwf & _) Hnew (Hb & Hpiv & Hreal) E.
  rewrite Hr in Hnew.
  assert (Hprod := @algebra_products_sound (ab st) tb tX (anew st)
                     (length (ap st)) Hb Hreal Hnew).
  cbv zeta in Hprod. destruct Hprod as (Hl & Hlsh & Hrl).
  assert (Hltb : length tb = length (ap st)) by (exact (proj1 (proj1 (proj2 Hb)))).
  unfold algebra_body in E. rewrite Hr in E.
  destruct (stack (n * n) (ab st) _) as [b1|e] eqn:Es; [|discriminate].
  apply stack_app in Es. subst b1.
  match type of E with
  | context [REF (Mat _ _ (ab st ++ ?l)) _ _ _] => set (prods := l) in *
  end.
  match type of Hrl with
  | Forall2 _ ?l ?lx => set (tprods := l) in *; set (tXs := lx) in *
  end.
  destruct (REF (Mat (length (ab st ++ prods)) (n * n) (ab st ++ prods))
                false true (ap st)) as [o|e] eqn:ER; [|discriminate].
  injection E as <-.
  assert (Hb1 : encloses (length (ab st ++ prods)) (n * n)
                         (ab st ++ prods) (tb ++ tprods)).
  { apply rows_encloses.
    - split; [reflexivity|]. apply Forall_app; split; [|exact Hlsh].
      exact (proj2 (proj1 Hb)).
    - apply Forall2_app; [now apply (encloses_rows Hb) | exact Hl]. }
  assert (Hmr : length (ap st) <= length (ab st ++ prods))
    by (rewrite length_app; lia).
  assert (Hwf1 : wf_pivots (length (ab st ++ prods)) (n * n) (ap st))
    by (apply wf_pivots_more_rows with (m := length (ab st)); auto; lia).
  assert (Hpiv1 : has_pivots (length (ap st)) (of_rows (tb ++ tprods)) (ap st)).
  { intros j pj Hin. destruct (Hpiv j pj Hin) as [Hone Hzer].
    destruct (wf_pivots_row j pj Hwf Hin) as [Hpj _].
    unfold of_rows in *. split.
    - rewrite entry_app_l by lia. exact Hone.
    - intros i Hi Hir. rewrite entry_app_l by lia. now apply Hzer. }
  assert (Hreal1 : Forall2 realizes_mat (tb ++ tprods) (tX ++ tXs))
    by (now apply Forall2_app).
  destruct (@algebra_REF_sound _ _ _ (ap st) o Hb1 Hreal1 Hwf1 Hpiv1 ER)
    as (tb' & tX' & Hb' & Hpiv' & Hreal').
  exists tb', tX'. unfold algebra_true; cbn [ab ap]. auto.
Qed.

Lemma algebra_loop_sound (fuel : nat) (st st' : algebra_state)
      (tb : list (list F)) (tX : list (list (list F))) :
  algebra_ok n st -> Forall (fun j => j < arank st) (anew st) ->
  algebra_true st tb tX ->
  algebra_loop fuel n st = Some (Ok st') ->
  algebra_ok n st' /\ exists tb' tX', algebra_true st' tb' tX'.
Proof.
  revert st tb tX.
  induction fuel as [|fuel IH]; intros st tb tX Hok Hnew Htrue E;
    cbn [algebra_loop] in E;
    destruct (negb (Nat.ltb 0 (length (anew st)) && Nat.ltb (arank st) (n * n))).
  - injection E as <-. split; [assumption|]. now exists tb, tX.
  - discriminate.
  - injection E as <-. split; [assumption|]. now exists tb, tX.
  - destruct (algebra_body n st) as [st1|e] eqn:Eb; [|discriminate].
    destruct (@algebra_body_ok _ _ n st st1 Hok Eb) as (Hok1 & Hle & En).
    destruct (@algebra_body_sound st st1 tb tX Hok Hnew Htrue Eb)
      as (tb1 & tX1 & Htrue1).
    apply IH with (st := st1) (tb := tb1) (tX := tX1); auto.
    rewrite En. apply Forall_forall. intros i Hi. apply in_seq in Hi. lia.
Qed.

End AlgebraSound.

(** The docstring of [generated_algebra], points ii) and iii): whatever true
    [n] by [n] matrices the balls of [Mats] contain, a basis returned by
    [generated_algebra] contains true vectors that are linearly independent,
    each listing the entries of a polynomial in the true matrices. *)
Theorem generated_algebra_sound {B F : Type} `{Enclosure B F}
        (Mats : list (matrix B)) (tMats : list (list (list F))) (n : nat)
        (b : list (list B)) :
  Forall2 (fun M tM => nrows M = n /\ encloses n n (rows M) tM) Mats tMats ->
  generated_algebra Mats = Some (Ok b) ->
  exists (tb : list (list F)) (tX : list (list (list F))),
    contains_rows b tb /\ lin_indep (n * n) tb /\
    Forall2 (fun v X => v = flatten X /\ polynomial_in n tMats X) tb tX.
Proof.
  intros HM E. destruct Mats as [|mat Mats']; [discriminate|].
  unfold generated_algebra, generated_algebra_fuel in E.
  assert (Hn : nrows mat = n) by (inversion HM; tauto).
  rewrite Hn in E.
  set (L := mat :: Mats') in *.
  set (b0 := map (fun M => flatten (rows M)) L) in *.
  replace (length L) with (length b0) in E by (apply length_map).
  destruct (REF (Mat (length b0) (n * n) b0) false true []) as [o|e] eqn:ER;
    [|discriminate].
  destruct (@REF_echelon_step _ _ (n * n) b0 false [] o (wf_pivots_nil _ _) ER)
    as (_ & Hlb & Hle1 & Hlen & Hwf & Hwr & Hall & _).
  set (st0 := AlgebraState (firstn (length (pivots_of o)) (rows (out_R o)))
                (pivots_of o) (length (pivots_of o))
                (seq 0 (length (pivots_of o)))) in *.
  assert (Hok0 : algebra_ok n st0).
  { unfold algebra_ok, st0; cbn [ab ap arank anew].
    split; [reflexivity|]. split; [exact Hlb|]. split; [exact Hlen|].
    split; [exact Hwf|]. split; [exact Hwr|exact Hall]. }
  assert (Hnew0 : Forall (fun j => j < arank st0) (anew st0)).
  { unfold st0; cbn [arank anew]. apply Forall_forall. intros j Hj.
    apply in_seq in Hj. lia. }
  assert (Hb0 : encloses (length b0) (n * n) b0 (map flatten tMats)).
  { apply rows_encloses.
    - split; [reflexivity|]. apply Forall_forall. intros v Hin.
      apply in_map_iff in Hin as (M & <- & HinM).
      destruct (@Forall2_In_l _ _ _ _ _ _ HM HinM) as (tM & _ & _ & HMM).
      apply (@length_flatten _ n n). exact (proj1 HMM).
    - unfold b0. eapply Forall2_map_both; [exact HM|].
      intros M tM [_ HMM]. apply flatten_contains.
      now apply (encloses_rows HMM). }
  assert (Hreal0 : Forall2 (realizes_mat tMats n) (map flatten tMats) tMats).
  { apply Forall2_map_left. intros tM Hin.
    destruct (@Forall2_In_r _ _ _ _ _ _ HM Hin) as (M & _ & _ & HMM).
    split; [reflexivity|]. split; [exact (proj1 (proj2 HMM))|].
    now apply poly_gen. }
  assert (Hp0 : has_pivots (length (@nil (nat * nat)))
                           (of_rows (map flatten tMats)) [])
    by (intros j pj []).
  destruct (@algebra_REF_sound _ _ _ _ _ tMats n b0 (map flatten tMats) tMats
              [] o Hb0 Hreal0 (wf_pivots_nil _ _) Hp0 ER)
    as (tb0 & tX0 & Hbt0 & Hpiv0 & Hr0).
  assert (Htrue0 : algebra_true tMats n st0 tb0 tX0)
    by (unfold algebra_true, st0; cbn [ab ap]; auto).
  destruct (algebra_loop _ _ _) as [[st|e]|] eqn:EL; try discriminate.
  injection E as <-.
  destruct (@algebra_loop_sound _ _ _ _ _ tMats n _ st0 st tb0 tX0
              Hok0 Hnew0 Htrue0 EL)
    as (Hok & tb & tX & Hb & Hpiv & Hreal).
  destruct Hok as (_ & Hlb' & _ & Hwf' & _).
  exists tb, tX. split; [now apply (encloses_rows Hb)|]. split.
  - assert (Hsh : shape (length (ap st)) (n * n) tb)
      by (exact (proj1 (proj2 Hb))).
    rewrite Hlb' in Hwf'.
    assert (Hind := @pivot_rows_independent _ _ _ _ tb (ap st) Hsh Hwf' Hpiv).
    rewrite <- (proj1 Hsh), firstn_all in Hind. exact Hind.
  - eapply Forall2_impl; [|exact Hreal]. intros v X (Ev & _ & Hp). now split.
Qed.

Lemma generated_algebra_sound_witness :
  exists b (tb : list (list Qc)) (tX : list (list (list Qc))),
    generated_algebra [MidRad.late] = Some (Ok b) /\
    contains_rows b tb /\ lin_indep 9 tb /\
    Forall2 (fun v X => v = flatten X /\
                        polynomial_in 3 [rows MidRad.late_true] X) tb tX.
Proof.
  destruct (generated_algebra [MidRad.late]) as [[b|e]|] eqn:E;
    try (vm_compute in E; discriminate).
  assert (HM : Forall2 (fun M tM => nrows M = 3 /\ encloses 3 3 (rows M) tM)
                       [MidRad.late] [rows MidRad.late_true]).
  { constructor; [|constructor]. split; [reflexivity|]. apply rows_encloses.
    - repeat constructor.
    - repeat constructor; apply Qle_bool_iff; reflexivity. }
  destruct (@generated_algebra_sound _ _ _ _ _ [MidRad.late]
              [rows MidRad.late_true] 3 b HM E)
    as (tb & tX & Hb & Hind & Hreal).
  exists b, tb, tX. auto.
Defined.

(* ================================================================== *)
(** ** Echelon families with as many pivots as columns *)

Lemma NoDup_map_injective {X Y : Type} (f : X -> Y) (l : list X) (x y : X) :
  NoDup (map f l) -> In x l -> In y l -> f x = f y -> x = y.
Proof.
  induction l as [|a l IH]; intros Hnd Hx Hy Hf; [destruct Hx|].
  cbn [map] in Hnd. apply NoDup_cons_iff in Hnd as [Hna Hnd].
  destruct Hx as [<-|Hx], Hy as [<-|Hy]; auto.
  - exfalso. apply Hna. rewrite Hf. now apply in_map.
  - exfalso. apply Hna. rewrite <- Hf. now apply in_map.
Qed.

Lemma pivots_all_columns (N : nat) (p : pivots) (k : nat) :
  wf_pivots N N p -> length p = N -> k < N ->
  exists i, i < N /\ In (k, i) p.
Proof.
  intros Hwf Hlen Hk. assert (Hwf' := Hwf).
  destruct Hwf' as (_ & Hnd & Hcols & _).
  assert (Hin : In k (map fst p)).
  { apply (@NoDup_length_incl _ (map fst p) (seq 0 N)); auto.
    - rewrite length_seq, length_map. lia.
    - intros j Hj. apply in_seq. specialize (Hcols j Hj). lia.
    - apply in_seq. lia. }
  apply in_map_iff in Hin as ([j i] & Ej & Hin). cbn [fst] in Ej. subst j.
  exists i. split; [|assumption].
  destruct (wf_pivots_row k i Hwf Hin) as [Hi _]. lia.
Qed.

Lemma pivots_all_rows (m n : nat) (p : pivots) (t : nat) :
  wf_pivots m n p -> t < length p -> exists j, In (j, t) p.
Proof.
  intros (Hrows & _) Ht.
  assert (Hin : In t (map snd p)) by (rewrite Hrows; apply in_seq; lia).
  apply in_map_iff in Hin as ([j i] & Ei & Hin). cbn [snd] in Ei. subst i.
  now exists j.
Qed.

Lemma pivots_row_column (m n : nat) (p : pivots) (j j' t : nat) :
  wf_pivots m n p -> In (j, t) p -> In (j', t) p -> j = j'.
Proof.
  intros (Hrows & _) Hin Hin'.
  assert (Hnd : NoDup (map snd p)) by (rewrite Hrows; apply seq_NoDup).
  assert (E := @NoDup_map_injective _ _ snd p (j, t) (j', t) Hnd Hin Hin' eq_refl).
  now injection E.
Qed.

Section FullRank.
Context {F : Type} `{Field F}.

Add Field true_values_full : field_laws.

(** Forward substitution: the rows from [t] on span the vectors that vanish
    at the pivot columns of the rows before [t]. *)
Lemma echelon_span_from (N : nat) (X : @fmat F) (p : pivots) :
  wf_pivots N N p -> length p = N -> has_pivots N X p ->
  forall d t, t + d = N ->
  forall v : nat -> F,
    (forall j i, In (j, i) p -> i < t -> v j = zero) ->
    exists c : nat -> F,
      (forall i, i < t -> c i = zero) /\
      forall k, k < N -> v k = sumn (fun i => mul (c i) (X i k)) N.
Proof.
  intros Hwf Hlen Hpiv. induction d as [|d IH]; intros t Htd v Hv.
  - exists (fun _ => zero). split; [reflexivity|]. intros k Hk.
    destruct (@pivots_all_columns N p k Hwf Hlen Hk) as (i & Hi & Hin).
    rewrite (Hv k i Hin) by lia.
    transitivity (sumn (fun _ => zero : F) N);
      [symmetry; apply sumn_zero | apply sumn_ext; intros i' _; ring].
  - assert (Ht : t < length p) by lia.
    destruct (@pivots_all_rows N N p t Hwf Ht) as (jt & Hjt).
    destruct (Hpiv jt t Hjt) as [Hone Hzer].
    set (a := v jt).
    destruct (IH (Datatypes.S t) ltac:(lia)
                 (fun k => sub (v k) (mul a (X t k)))) as (c' & Hc' & Hsum).
    { intros j i Hin Hi. destruct (Nat.eq_dec i t) as [->|Hne].
      - rewrite (@pivots_row_column N N p j jt t Hwf Hin Hjt). rewrite Hone.
        unfold a. ring.
      - rewrite (Hv j i Hin) by lia.
        destruct (Hpiv j i Hin) as [_ Hz]. rewrite (Hz t) by lia. ring. }
    exists (fun i => if Nat.eqb i t then a else c' i). split.
    + intros i Hi. replace (Nat.eqb i t) with false
        by (symmetry; apply Nat.eqb_neq; lia).
      apply Hc'. lia.
    + intros k Hk.
      transitivity (add (sumn (fun i => mul (c' i) (X i k)) N)
                        (sumn (fun i => mul (delta t i) (mul a (X i k))) N)).
      * rewrite <- Hsum by assumption. rewrite sumn_delta.
        replace (t <? N) with true by (symmetry; apply Nat.ltb_lt; lia).
        ring.
      * rewrite <- sumn_add. apply sumn_ext. intros i Hi. unfold delta.
        rewrite (Nat.eqb_sym t i).
        destruct (Nat.eqb_spec i t) as [->|Hne]; [|ring].
        rewrite (Hc' t) by lia. ring.
Qed.

Lemma echelon_span (N : nat) (tb : list (list F)) (p : pivots) (v : list F) :
  wf_pivots N N p -> length p = N -> has_pivots N (of_rows tb) p ->
  exists cs, length cs = N /\
    forall k, k < N ->
      nth k v zero = sumn (fun i => mul (nth i cs zero) (entry tb i k)) N.
Proof.
  intros Hwf Hlen Hpiv.
  destruct (@echelon_span_from N (of_rows tb) p Hwf Hlen Hpiv N 0 ltac:(lia)
              (fun k => nth k v zero)) as (c & _ & Hsum).
  { intros j i _ Hi. lia. }
  exists (map c (seq 0 N)). split; [apply map_seq_length|].
  intros k Hk. rewrite Hsum by assumption.
  apply sumn_ext. intros i Hi. now rewrite nth_map_seq.
Qed.

End FullRank.

(* ================================================================== *)
(** ** Bases of full length *)

Section FullLength.
Context {B F : Type} `{Enclosure B F}.

Add Field true_values_length : field_laws.

(** The variables of [orbit] when it returns a basis that is not empty. *)
Lemma orbit_result_true (Mats : list (matrix B)) (tMats : list (list (list F)))
      (vec : list B) (tvec : list F) (transition : bool) (b : list (list B))
      (Ts : option (list (list (list B)))) :
  Forall2 (fun M tM => encloses (length vec) (length vec) (rows M) tM)
          Mats tMats ->
  contains_vec vec tvec ->
  orbit Mats vec transition = Some (Ok (b, Ts)) ->
  b = [] \/
  exists st tb tT,
    b = ob st /\ orbit_ok (length vec) transition st /\
    orbit_true tMats (length vec) tvec transition st tb tT.
Proof.
  intros HM Hv E.
  assert (Hlv : length tvec = length vec)
    by (symmetry; eapply Forall2_length; eauto).
  unfold orbit in E.
  destruct (REF (Mat 1 (length vec) [vec]) true true []) as [o|e] eqn:ER;
    [|discriminate].
  destruct (Nat.eqb_spec (length (pivots_of o)) 0) as [E0|E0].
  - injection E as <- <-. now left.
  - right.
    destruct (@orbit_start_sound _ _ _ _ _ tMats (length vec) tvec
                transition Hlv vec o eq_refl Hv ER E0)
      as (Hok0 & Hnew0 & tb0 & tT0 & Htrue0).
    destruct (orbit_loop _ _ _ _ _) as [[st|e]|] eqn:EL; try discriminate.
    injection E as <- <-.
    destruct (@orbit_loop_sound _ _ _ _ _ Mats tMats (length vec) tvec
                transition HM Hlv _ _ st tb0 tT0 Hok0 Hnew0 Htrue0 EL)
      as (Hok & tb & tT & Htrue).
    now exists st, tb, tT.
Qed.

(** The variables of [generated_algebra] when it returns. *)
Lemma algebra_result_true (Mats : list (matrix B))
      (tMats : list (list (list F))) (n : nat) (b : list (list B)) :
  Forall2 (fun M tM => nrows M = n /\ encloses n n (rows M) tM) Mats tMats ->
  generated_algebra Mats = Some (Ok b) ->
  exists st tb tX,
    b = ab st /\ algebra_ok n st /\ algebra_true tMats n st tb tX.
Proof.
  intros HM E. destruct Mats as [|mat Mats']; [discriminate|].
  unfold generated_algebra, generated_algebra_fuel in E.
  assert (Hn : nrows mat = n) by (inversion HM; tauto).
  rewrite Hn in E.
  set (L := mat :: Mats') in *.
  set (b0 := map (fun M => flatten (rows M)) L) in *.
  replace (length L) with (length b0) in E by (apply length_map).
  destruct (REF (Mat (length b0) (n * n) b0) false true []) as [o|e] eqn:ER;
    [|discriminate].
  destruct (@REF_echelon_step _ _ (n * n) b0 false [] o (wf_pivots_nil _ _) ER)
    as (_ & Hlb & Hle1 & Hlen & Hwf & Hwr & Hall & _).
  set (st0 := AlgebraState (firstn (length (pivots_of o)) (rows (out_R o)))
                (pivots_of o) (length (pivots_of o))
                (seq 0 (length (pivots_of o)))) in *.
  assert (Hok0 : algebra_ok n st0).
  { unfold algebra_ok, st0; cbn [ab ap arank anew].
    split; [reflexivity|]. split; [exact Hlb|]. split; [exact Hlen|].
    split; [exact Hwf|]. split; [exact Hwr|exact Hall]. }
  assert (Hnew0 : Forall (fun j => j < arank st0) (anew st0)).
  { unfold st0; cbn [arank anew]. apply Forall_forall. intros j Hj.
    apply in_seq in Hj. lia. }
  assert (Hb0 : encloses (length b0) (n * n) b0 (map flatten tMats)).
  { apply rows_encloses.
    - split; [reflexivity|]. apply Forall_forall. intros v Hin.
      apply in_map_iff in Hin as (M & <- & HinM).
      destruct (@Forall2_In_l _ _ _ _ _ _ HM HinM) as (tM & _ & _ & HMM).
      apply (@length_flatten _ n n). exact (proj1 HMM).
    - unfold b0. eapply Forall2_map_both; [exact HM|].
      intros M tM [_ HMM]. apply flatten_contains.
      now apply (encloses_rows HMM). }
  assert (Hreal0 : Forall2 (realizes_mat tMats n) (map flatten tMats) tMats).
  { apply Forall2_map_left. intros tM Hin.
    destruct (@Forall2_In_r _ _ _ _ _ _ HM Hin) as (M & _ & _ & HMM).
    split; [reflexivity|]. split; [exact (proj1 (proj2 HMM))|].
    now apply poly_gen. }
  assert (Hp0 : has_pivots (length (@nil (nat * nat)))
                           (of_rows (map flatten tMats)) [])
    by (intros j pj []).
  destruct (@algebra_REF_sound _ _ _ _ _ tMats n b0 (map flatten tMats) tMats
              [] o Hb0 Hreal0 (wf_pivots_nil _ _) Hp0 ER)
    as (tb0 & tX0 & Hbt0 & Hpiv0 & Hr0).
  assert (Htrue0 : algebra_true tMats n st0 tb0 tX0)
    by (unfold algebra_true, st0; cbn [ab ap]; auto).
  destruct (algebra_loop _ _ _) as [[st|e]|] eqn:EL; try discriminate.
  injection E as <-.
  destruct (@algebra_loop_sound _ _ _ _ _ tMats n _ st0 st tb0 tX0
              Hok0 Hnew0 Htrue0 EL)
    as (Hok & tb & tX & Htrue).
  now exists st, tb, tX.
Qed.

End FullLength.

(** The docstring of [orbit], last paragraph: when the basis returned has as
    many vectors as the dimension, then whatever true matrices and true seed
    the arguments contain, every vector is the image of the true seed under
    some polynomial in the true matrices: the smallest invariant subspace
    that contains the seed is the entire space. *)
Theorem orbit_full_length {B F : Type} `{Enclosure B F}
        (Mats : list (matrix B)) (tMats : list (list (list F)))
        (vec : list B) (tvec : list F) (transition : bool)
        (b : list (list B)) (Ts : option (list (list (list B)))) :
  Forall2 (fun M tM => encloses (length vec) (length vec) (rows M) tM)
          Mats tMats ->
  contains_vec vec tvec ->
  orbit Mats vec transition = Some (Ok (b, Ts)) ->
  length b = length vec ->
  forall w : list F, length w = length vec ->
    exists X, polynomial_in (length vec) tMats X /\ w = mulmv X tvec.
Proof.
  intros HM Hv E Hfull w Hw.
  assert (Hlv : length tvec = length vec)
    by (symmetry; eapply Forall2_length; eauto).
  destruct (orbit_result_true _ HM Hv E) as [->|(st & tb & tT & -> & Hok & Htrue)].
  - cbn [length] in Hfull. rewrite <- Hfull in *.
    exists (mat_zero 0). split; [apply poly_zero|].
    destruct w; [reflexivity | discriminate].
  - destruct Hok as (_ & _ & Hlb & _ & Hwf & _).
    destruct Htrue as (Hb & Hpiv & Hreal & _).
    set (n := length vec) in *.
    assert (Hlp : length (op st) = n) by lia.
    rewrite Hlb, Hlp in Hwf. rewrite Hlp in Hb, Hpiv.
    destruct (@echelon_span _ _ n tb (op st) w Hwf Hlp Hpiv) as (cs & Hcs & Hsum).
    assert (Hltb : length tb = n) by (exact (proj1 (proj1 (proj2 Hb)))).
    assert (HltT : length tT = n)
      by (rewrite <- Hltb; symmetry; eapply Forall2_length; eauto).
    destruct (@realizes_shapes _ _ tMats n tvec tb tT Hreal) as [Hsh Hpol].
    destruct (@mat_lincomb_spec _ _ n cs tT Hsh) as [Hsl _].
    exists (mat_lincomb n cs tT). split; [now apply polynomial_in_lincomb|].
    apply nth_ext with (d := zero) (d' := zero).
    + rewrite mulmv_length, Hw. symmetry. exact (proj1 Hsl).
    + intros a Ha. rewrite Hw in Ha. rewrite Hsum by assumption.
      rewrite (@nth_mulmv_lincomb _ _ n cs tT tvec a Hsh Hlv Ha).
      rewrite HltT. apply sumn_ext. intros j Hj. f_equal.
      assert (Hj' : j < length tb) by lia.
      destruct (@Forall2_nth_rel _ _ _ [] [] tb tT j Hreal Hj') as (Ev & _).
      unfold entry. now rewrite Ev.
Qed.

Lemma orbit_full_length_witness :
  exists X,
    polynomial_in 3 [rows MidRad.late_true] X /\
    [Q2Qc 0; Q2Qc 0; Q2Qc 1] = mulmv X [Q2Qc 1; Q2Qc 0; Q2Qc 0].
Proof.
  destruct (orbit [MidRad.late] [MidRad.point 1; MidRad.point 0; MidRad.point 0]
                  false) as [[[b Ts]|e]|] eqn:E;
    try (vm_compute in E; discriminate).
  assert (Hlen : length b = 3) by (vm_compute in E; now injection E as <- _).
  assert (HM : Forall2 (fun M tM => encloses 3 3 (rows M) tM)
                       [MidRad.late] [rows MidRad.late_true]).
  { constructor; [|constructor]. apply rows_encloses.
    - repeat constructor.
    - repeat constructor; apply Qle_bool_iff; reflexivity. }
  assert (Hv : contains_vec [MidRad.point 1; MidRad.point 0; MidRad.point 0]
                            [Q2Qc 1; Q2Qc 0; Q2Qc 0])
    by (repeat constructor; apply Qle_bool_iff; reflexivity).
  exact (@orbit_full_length _ _ _ _ _ [MidRad.late] [rows MidRad.late_true]
           [MidRad.point 1; MidRad.point 0; MidRad.point 0]
           [Q2Qc 1; Q2Qc 0; Q2Qc 0] false b Ts HM Hv E Hlen
           [Q2Qc 0; Q2Qc 0; Q2Qc 1] eq_refl).
Defined.

(** The docstring of [generated_algebra], last paragraph: when the basis
    returned has [n * n] vectors, then whatever true [n] by [n] matrices the
    arguments contain, every [n] by [n] matrix is a polynomial in them: they
    generate the entire algebra of matrices. *)
Theorem generated_algebra_full_length {B F : Type} `{Enclosure B F}
        (Mats : list (matrix B)) (tMats : list (list (list F))) (n : nat)
        (b : list (list B)) :
  Forall2 (fun M tM => nrows M = n /\ encloses n n (rows M) tM) Mats tMats ->
  generated_algebra Mats = Some (Ok b) ->
  length b = n * n ->
  forall X : list (list F), shape n n X -> polynomial_in n tMats X.
Proof.
  intros HM E Hfull X HX.
  destruct (algebra_result_true HM E) as (st & tb & tX & -> & Hok & Htrue).
  destruct Hok as (_ & Hlb & _ & Hwf & _).
  destruct Htrue as (Hb & Hpiv & Hreal).
  assert (Hlp : length (ap st) = n * n) by lia.
  rewrite Hlb, Hlp in Hwf. rewrite Hlp in Hb, Hpiv.
  destruct (@echelon_span _ _ (n * n) tb (ap st) (flatten X) Hwf Hlp Hpiv)
    as (cs & Hcs & Hsum).
  assert (Hltb : length tb = n * n) by (exact (proj1 (proj1 (proj2 Hb)))).
  assert (HltX : length tX = n * n)
    by (rewrite <- Hltb; symmetry; eapply Forall2_length; eauto).
  destruct (@realizes_mat_shapes _ _ tMats n tb tX Hreal) as [Hsh Hpol].
  destruct (@mat_lincomb_spec _ _ n cs tX Hsh) as [Hsl _].
  assert (EX : flatten X = flatten (mat_lincomb n cs tX)).
  { apply nth_ext with (d := zero) (d' := zero).
    - now rewrite !(@length_flatten _ n n).
    - intros k Hk. rewrite (@length_flatten _ n n) in Hk by assumption.
      rewrite Hsum by assumption.
      rewrite nth_flatten_lincomb by assumption.
      rewrite HltX. apply sumn_ext. intros j Hj. f_equal.
      assert (Hj' : j < length tb) by lia.
      destruct (@Forall2_nth_rel _ _ _ [] [] tb tX j Hreal Hj') as (Ev & _).
      unfold entry. now rewrite Ev. }
  rewrite <- (reshape_flatten HX), EX, (reshape_flatten Hsl).
  now apply polynomial_in_lincomb.
Qed.

Lemma generated_algebra_full_length_witness :
  polynomial_in 2
    [[[Q2Qc 0; Q2Qc 1]; [Q2Qc 0; Q2Qc 0]]; [[Q2Qc 0; Q2Qc 0]; [Q2Qc 1; Q2Qc 0]]]
    [[Q2Qc 1; Q2Qc 0]; [Q2Qc 0; Q2Qc 1]].
Proof.
  set (Mats := [Mat 2 2 [[MidRad.point 0; MidRad.point 1];
                         [MidRad.point 0; MidRad.point 0]];
                Mat 2 2 [[MidRad.point 0; MidRad.point 0];
                         [MidRad.MB 1 (1 # 10); MidRad.point 0]]]).
  destruct (generated_algebra Mats) as [[b|e]|] eqn:E;
    try (vm_compute in E; discriminate).
  assert (Hlen : length b = 2 * 2) by (vm_compute in E; now injection E as <-).
  assert (HM : Forall2 (fun M tM => nrows M = 2 /\ encloses 2 2 (rows M) tM)
                 Mats
                 [[[Q2Qc 0; Q2Qc 1]; [Q2Qc 0; Q2Qc 0]];
                  [[Q2Qc 0; Q2Qc 0]; [Q2Qc 1; Q2Qc 0]]]).
  { constructor; [|constructor; [|constructor]];
      (split; [reflexivity|]; apply rows_encloses;
       [repeat constructor
       |repeat constructor; apply Qle_bool_iff; reflexivity]). }
  apply (@generated_algebra_full_length _ _ _ _ _ Mats _ 2 b HM E Hlen).
  repeat constructor.
Defined.

(* ================================================================== *)
(** ** linear_combination on an echelon family *)

Section LinearCombinationFacts.
Context {A : Type} `{Arith A}.

Hypothesis mul_zero_right : forall x : A, mul x zero = zero.
Hypothesis sub_zero_right : forall x : A, sub x zero = x.

Variable vec : list A.
Variable Vecs : list (list A).
Variable p : pivots.

Hypothesis Hwf : wf_pivots (length Vecs) (length Vecs) p.
Hypothesis Hlen : length p = length Vecs.
Hypothesis Hvec : length Vecs <= length vec.
Hypothesis Hsizes : Forall (fun v => length v = length vec) Vecs.
Hypothesis Hzeros : forall j pj, In (j, pj) p ->
  forall i, pj < i -> i < length Vecs -> entry Vecs i j = zero.

Lemma inverted_lookup (c t : nat) :
  In (c, t) p -> lookup t (inverted p) = Some c.
Proof.
  intros Hin. apply lookup_In.
  - assert (E : map fst (inverted p) = rev (map snd p)).
    { unfold inverted. rewrite map_rev, map_map. reflexivity. }
    rewrite E. apply NoDup_rev. rewrite (proj1 Hwf). apply seq_NoDup.
  - unfold inverted. apply in_rev. rewrite rev_involutive.
    apply in_map_iff. now exists (c, t).
Qed.

(** The entries of [vec] at the pivots of the rows not yet used are still
    those of the argument; [lc] holds them for the rows already used. *)
Definition lc_inv (k : nat) (v lc : list A) : Prop :=
  length v = length vec /\ length lc = length Vecs /\
  (forall c t, In (c, t) p -> t < k -> nth c v zero = nth c vec zero) /\
  (forall c t, In (c, t) p -> k <= t -> nth c lc zero = nth c vec zero).

Lemma nth_vec_sub (u v : list A) (c : nat) :
  length u = length v -> c < length u ->
  nth c (vec_sub u v) zero = sub (nth c u zero) (nth c v zero).
Proof.
  intros Huv Hc. unfold vec_sub.
  rewrite nth_map_lt with (d := (zero, zero))
    by (rewrite length_combine; lia).
  now rewrite combine_nth by assumption.
Qed.

Lemma lc_loop (k : nat) (v lc : list A) :
  k <= length Vecs -> lc_inv k v lc ->
  exists v' lc',
    fold_left (lc_step Vecs (inverted p)) (rev (seq 0 k)) (Returns (v, lc)) =
    Returns (v', lc') /\ lc_inv 0 v' lc'.
Proof.
  revert v lc. induction k as [|k IH]; intros v lc Hk Hinv.
  - exists v, lc. split; [reflexivity | assumption].
  - rewrite seq_S, rev_app_distr. cbn [rev app fold_left Nat.add].
    destruct Hinv as (Hlv & Hllc & Hv & Hlc).
    assert (Hkp : k < length p) by lia.
    destruct (@pivots_all_rows _ _ p k Hwf Hkp) as (c & Hc).
    destruct (wf_pivots_row c k Hwf Hc) as [_ Hcn].
    unfold lc_step at 2. rewrite (@inverted_lookup c k Hc).
    replace (c <? length v) with true by (symmetry; apply Nat.ltb_lt; lia).
    assert (Hrow : length (nth k Vecs []) = length vec).
    { rewrite Forall_forall in Hsizes. apply Hsizes, nth_In. lia. }
    replace (length (nth k Vecs []) =? length v) with true
      by (symmetry; apply Nat.eqb_eq; lia).
    replace (c <? length lc) with true by (symmetry; apply Nat.ltb_lt; lia).
    cbn [negb]. apply IH; [lia|].
    assert (Hx : nth c v zero = nth c vec zero) by (apply (Hv c k Hc); lia).
    split; [|split; [|split]].
    + unfold vec_sub. rewrite length_map, length_combine, length_map. lia.
    + now rewrite upd_length.
    + intros c' t Hin Ht.
      destruct (wf_pivots_row c' t Hwf Hin) as [_ Hc'n].
      rewrite nth_vec_sub by (rewrite ?length_map; lia).
      rewrite nth_map_lt with (d := zero) by lia.
      change (nth c' (nth k Vecs []) zero) with (entry Vecs k c').
      rewrite (@Hzeros c' t Hin k) by lia.
      rewrite mul_zero_right, sub_zero_right. apply (Hv c' t Hin). lia.
    + intros c' t Hin Ht.
      destruct (Nat.eq_dec t k) as [->|Hne].
      * rewrite (@pivots_row_column _ _ p c' c k Hwf Hin Hc).
        rewrite nth_upd_eq by lia. exact Hx.
      * assert (Hcc : c <> c').
        { intros <-.
          assert (E := @NoDup_map_injective _ _ fst p (c, t) (c, k)
                         (proj1 (proj2 Hwf)) Hin Hc eq_refl).
          injection E as E. contradiction. }
        rewrite nth_upd_ne by assumption. apply (Hlc c' t Hin). lia.
Qed.

End LinearCombinationFacts.

(** [linear_combination] on an echelon family: when [Vecs] has [n] vectors
    and [p] gives them [n] pivots in the columns below [n], each vector
    after the pivot's one carrying an exact zero in the pivot's column, and
    when [x * 0 = 0] and [x - 0 = x] for the entries, the list returned is
    made of the first [n] entries of [vec]: the coefficient read for
    [Vecs[i]] is [vec[p[i]]], and it is filed at index [p[i]]. *)
Theorem linear_combination_echelon {A : Type} `{Arith A}
        (vec : list A) (Vecs : list (list A)) (p : pivots) :
  (forall x : A, mul x zero = zero) -> (forall x : A, sub x zero = x) ->
  wf_pivots (length Vecs) (length Vecs) p -> length p = length Vecs ->
  length Vecs <= length vec ->
  Forall (fun v => length v = length vec) Vecs ->
  (forall j pj, In (j, pj) p ->
     forall i, pj < i -> i < length Vecs -> entry Vecs i j = zero) ->
  linear_combination vec Vecs p = Returns (firstn (length Vecs) vec).
Proof.
  intros Hm Hs Hwf Hlen Hvec Hsizes Hzeros.
  assert (Hinv : lc_inv vec Vecs p (length Vecs) vec (repeat zero (length Vecs))).
  { split; [reflexivity|]. split; [apply repeat_length|].
    split; [reflexivity|]. intros c t Hin Ht.
    destruct (wf_pivots_row c t Hwf Hin) as [Ht' _]. lia. }
  destruct (@lc_loop _ _ Hm Hs vec Vecs p Hwf Hlen Hvec Hsizes Hzeros
              (length Vecs) vec _ (le_n _) Hinv)
    as (v' & lc' & E & _ & Hllc & _ & Hlc).
  unfold linear_combination. rewrite E. f_equal.
  apply nth_ext with (d := zero) (d' := zero).
  - rewrite length_firstn. lia.
  - intros c Hc. rewrite Hllc in Hc.
    destruct (@pivots_all_columns _ p c Hwf Hlen Hc) as (t & _ & Hin).
    rewrite (Hlc c t Hin) by lia. rewrite nth_firstn.
    now replace (c <? length Vecs) with true by (symmetry; apply Nat.ltb_lt; lia).
Qed.

Lemma linear_combination_echelon_witness :
  linear_combination [Q2Qc 1; Q2Qc 0]
                     [[Q2Qc 1; Q2Qc 2]; [Q2Qc 0; Q2Qc 1]] [(0, 0); (1, 1)] =
  Returns [Q2Qc 1; Q2Qc 0].
Proof.
  apply (@linear_combination_echelon Qc _ [Q2Qc 1; Q2Qc 0]
           [[Q2Qc 1; Q2Qc 2]; [Q2Qc 0; Q2Qc 1]] [(0, 0); (1, 1)]).
  - intros x. apply Qcmult_0_r.
  - intros x. unfold sub; cbn. unfold Qcminus.
    replace (Qcopp (Q2Qc 0)) with (Q2Qc 0) by reflexivity. apply Qcplus_0_r.
  - unfold wf_pivots; cbn. split; [reflexivity|].
    split; [repeat constructor; cbn; intuition lia|].
    split; [intros j [<-|[<-|[]]]; lia | lia].
  - reflexivity.
  - cbn; lia.
  - repeat constructor.
  - intros j pj [[= <- <-]|[[= <- <-]|[]]] i Hi Hi'; cbn in Hi';
      [|lia]. assert (i = 1) by lia. subst i. reflexivity.
Defined.

(* ================================================================== *)
(** ** What linear_combination needs to return *)

Section LinearCombinationReturns.
Context {A : Type} `{Arith A}.

Variable Vecs : list (list A).
Variable q : pivots.

Lemma lc_step_Returns (st : outcome (list A * list A)) (i : nat)
      (v' lc' : list A) :
  lc_step Vecs q st i = Returns (v', lc') ->
  exists v lc c,
    st = Returns (v, lc) /\ lookup i q = Some c /\
    c < length v /\ c < length lc /\ length (nth i Vecs []) = length v /\
    length v' = length v /\ length lc' = length lc.
Proof.
  unfold lc_step. destruct st as [[v lc]| |e]; try discriminate.
  destruct (lookup i q) as [c|]; [|discriminate].
  destruct (Nat.ltb_spec c (length v)) as [Hc|Hc]; [|discriminate].
  destruct (Nat.eqb_spec (length (nth i Vecs [])) (length v)) as [Hr|Hr];
    [|discriminate].
  destruct (Nat.ltb_spec c (length lc)) as [Hl|Hl]; [|discriminate].
  cbn [negb]. intros [= <- <-]. exists v, lc, c.
  repeat (split; [auto; fail|]). split.
  - unfold vec_sub. rewrite length_map, length_combine, length_map. lia.
  - apply upd_length.
Qed.

Lemma lc_fold_Returns (l : list nat) (st : outcome (list A * list A))
      (v' lc' : list A) :
  fold_left (lc_step Vecs q) l st = Returns (v', lc') ->
  exists v lc,
    st = Returns (v, lc) /\ length v' = length v /\ length lc' = length lc /\
    forall i, In i l ->
      exists c, lookup i q = Some c /\ c < length v /\ c < length lc /\
                length (nth i Vecs []) = length v.
Proof.
  revert st. induction l as [|i l IH]; intros st E.
  - cbn [fold_left] in E. subst st. exists v', lc'.
    repeat (split; [reflexivity|]). intros i [].
  - cbn [fold_left] in E.
    destruct (IH _ E) as (v1 & lc1 & E1 & Hv1 & Hl1 & Hall).
    destruct (lc_step_Returns _ _ E1)
      as (v & lc & c & -> & Hq & Hc & Hcl & Hrow & Hv & Hl).
    exists v, lc. split; [reflexivity|]. split; [lia|]. split; [lia|].
    intros k [<-|Hk].
    + exists c. auto.
    + destruct (Hall k Hk) as (c' & ? & ? & ? & ?).
      exists c'. repeat split; auto; lia.
Qed.

Lemma lc_fold_total (l : list nat) (v lc : list A) :
  (forall i, In i l ->
     exists c, lookup i q = Some c /\ c < length v /\ c < length lc /\
               length (nth i Vecs []) = length v) ->
  exists v' lc', fold_left (lc_step Vecs q) l (Returns (v, lc)) = Returns (v', lc').
Proof.
  revert v lc. induction l as [|i l IH]; intros v lc Hall.
  - now exists v, lc.
  - cbn [fold_left].
    destruct (Hall i (or_introl eq_refl)) as (c & Hq & Hc & Hcl & Hrow).
    unfold lc_step at 2. rewrite Hq.
    replace (c <? length v) with true by (symmetry; apply Nat.ltb_lt; lia).
    replace (length (nth i Vecs []) =? length v) with true
      by (symmetry; apply Nat.eqb_eq; lia).
    replace (c <? length lc) with true by (symmetry; apply Nat.ltb_lt; lia).
    cbn [negb]. apply IH. intros k Hk.
    destruct (Hall k (or_intror Hk)) as (c' & ? & ? & ? & ?).
    exists c'. unfold vec_sub.
    rewrite length_map, length_combine, length_map, upd_length.
    repeat split; auto; lia.
Qed.

End LinearCombinationReturns.

(** [linear_combination] returns exactly when every index [i] below
    [n = len(Vecs)] is a value of [p], the key found for it is below [n] and
    below the size of [vec], and [Vecs[i]] has the size of [vec]; otherwise
    it raises.  The list returned has [n] entries. *)
Theorem linear_combination_returns {A : Type} `{Arith A}
        (vec : list A) (Vecs : list (list A)) (p : pivots) :
  ((exists lc, linear_combination vec Vecs p = Returns lc) <->
   (forall i, i < length Vecs ->
      exists c, lookup i (inverted p) = Some c /\
                c < length Vecs /\ c < length vec /\
                length (nth i Vecs []) = length vec)) /\
  (forall lc, linear_combination vec Vecs p = Returns lc ->
              length lc = length Vecs).
Proof.
  unfold linear_combination. split; [split|].
  - intros [lc E].
    destruct (fold_left _ _ _) as [[v' lc']| |e] eqn:Ef; try discriminate.
    destruct (@lc_fold_Returns _ _ _ _ _ _ _ _ Ef)
      as (v & lc0 & [= <- <-] & _ & _ & Hall).
    intros i Hi.
    destruct (Hall i) as (c & Hq & Hcv & Hcl & Hrow).
    { apply in_rev. rewrite rev_involutive. apply in_seq. lia. }
    rewrite repeat_length in Hcl. exists c. auto.
  - intros Hall.
    destruct (@lc_fold_total _ _ Vecs (inverted p) (rev (seq 0 (length Vecs)))
                vec (repeat zero (length Vecs))) as (v' & lc' & E).
    { intros i Hi. apply in_rev in Hi. apply in_seq in Hi. destruct (Hall i) as (c & ? & ? & ? & ?); [lia|].
      exists c. rewrite repeat_length. auto. }
    rewrite E. now exists lc'.
  - intros lc E.
    destruct (fold_left _ _ _) as [[v' lc']| |e] eqn:Ef; try discriminate.
    injection E as ->.
    destruct (@lc_fold_Returns _ _ _ _ _ _ _ _ Ef)
      as (v & lc0 & [= <- <-] & _ & Hl & _).
    now rewrite repeat_length in Hl.
Qed.

(* ================================================================== *)
(** ** The coefficients kept by clean_pol *)

Section CleanPolFacts.
Context {B : Type} `{Ball B}.

Lemma pop_zeros_spec (r : list B) :
  exists d, r = d ++ pop_zeros r /\
            Forall (fun c => contains_zero c = true) d /\
            match pop_zeros r with
            | [] => True
            | c :: _ => contains_zero c = false
            end.
Proof.
  induction r as [|c r (d & Er & Hd & Hh)]; cbn [pop_zeros].
  - exists []. repeat split; constructor.
  - destruct (contains_zero c) eqn:Ec.
    + exists (c :: d). split; [cbn [app]; now f_equal|].
      split; [now constructor | assumption].
    + exists []. split; [reflexivity|]. split; [constructor | assumption].
Qed.

Lemma pop_zeros_fixed (r : list B) : pop_zeros (pop_zeros r) = pop_zeros r.
Proof.
  destruct (pop_zeros_spec r) as (_ & _ & _ & Hh).
  destruct (pop_zeros r) as [|c r']; [reflexivity|].
  cbn [pop_zeros]. now rewrite Hh.
Qed.

End CleanPolFacts.

(** [clean_pol] hands to the constructor a prefix of [pol.coefficients()]:
    the coefficients dropped, at the end of the list, all contain zero, and
    the list kept is empty or ends with a coefficient that does not contain
    zero, so that cleaning it again changes nothing. *)
Theorem clean_pol_spec {B : Type} `{Ball B} (pol : Type)
        (coefficients : pol -> list B) (of_list : pol -> list B -> pol)
        (f : pol) :
  exists kept dropped,
    clean_pol coefficients of_list f = of_list f kept /\
    coefficients f = kept ++ dropped /\
    Forall (fun c => contains_zero c = true) dropped /\
    (forall l c, kept = l ++ [c] -> contains_zero c = false) /\
    clean_list kept = kept.
Proof.
  destruct (pop_zeros_spec (rev (coefficients f))) as (d & Er & Hd & Hh).
  exists (clean_list (coefficients f)), (rev d).
  split; [reflexivity|]. split; [|split; [|split]].
  - unfold clean_list. rewrite <- rev_app_distr, <- Er. now rewrite rev_involutive.
  - now apply Forall_rev.
  - intros l c E. unfold clean_list in E.
    apply (f_equal (@rev B)) in E. rewrite rev_involutive, rev_app_distr in E.
    cbn [rev app] in E. now rewrite E in Hh.
  - unfold clean_list. rewrite rev_involutive. now rewrite pop_zeros_fixed.
Qed.

(* ================================================================== *)
(** ** REF run again on its own result *)

Lemma upd_nth_same {X : Type} (i : nat) (d : X) (l : list X) :
  upd i (nth i l d) l = l.
Proof.
  revert i. induction l as [|x l IH]; intros [|i]; cbn [upd nth]; auto.
  now rewrite IH.
Qed.

Section ExactIdentity.
Context {B : Type} `{ExactUnits B}.

Lemma sumn_unit_row (f : nat -> B) (a m : nat) :
  sumn (fun k => mul (if Nat.eqb a k then one else zero) (f k)) m =
  if a <? m then f a else zero.
Proof.
  induction m as [|m IH]; [reflexivity|]. cbn [sumn]. rewrite IH.
  destruct (Nat.eqb_spec a m) as [->|Hne].
  - rewrite Nat.ltb_irrefl, mul_one_l, add_zero_l.
    now replace (m <? Datatypes.S m) with true by (symmetry; apply Nat.ltb_lt; lia).
  - rewrite mul_zero_l, add_zero_r.
    destruct (Nat.ltb_spec a m), (Nat.ltb_spec a (Datatypes.S m)); auto; lia.
Qed.

Lemma entry_identity (m a k : nat) :
  a < m -> k < m ->
  entry (identity m) a k = if Nat.eqb a k then (one : B) else zero.
Proof.
  intros Ha Hk. unfold entry, identity.
  rewrite nth_map_seq with (d := []) by assumption.
  now rewrite nth_map_seq by assumption.
Qed.

Lemma prod_entry_identity (m : nat) (M : list (list B)) (a b : nat) :
  a < m -> prod_entry m (identity m) M a b = entry M a b.
Proof.
  intros Ha. unfold prod_entry.
  rewrite (@sumn_ext _ _ _
             (fun k => mul (if Nat.eqb a k then one else zero) (entry M k b)) m).
  - rewrite sumn_unit_row.
    now replace (a <? m) with true by (symmetry; apply Nat.ltb_lt; lia).
  - intros k Hk. now rewrite entry_identity.
Qed.

Lemma matmul_identity (m n : nat) (M : list (list B)) :
  shape m n M -> matmul n (identity m) M = M.
Proof.
  intros HM. apply (@rows_ext _ zero m n); auto.
  - apply shape_matmul_rows. exact (proj1 (shape_identity m)).
  - intros a b Ha Hb.
    change (entry (matmul n (identity m) M) a b = entry M a b).
    rewrite (@entry_matmul_shape _ _ m m n (identity m) M a b
               (shape_identity m) (proj1 HM) Ha Hb).
    now apply prod_entry_identity.
Qed.

Lemma identity_column (m n : nat) (M : list (list B)) (j l : nat) :
  shape m n M -> l < m ->
  nth l (mulmv (identity m) (column j M)) zero = entry M l j.
Proof.
  intros HM Hl.
  rewrite (@nth_mulmv_column _ _ m (identity m) M j l (shape_identity m)
             (proj1 HM) Hl).
  now apply prod_entry_identity.
Qed.

Lemma row_sub_zero (m : nat) (T : list (list B)) (i r : nat) :
  shape m m T -> i < m -> row_sub m T i r zero = T.
Proof.
  intros HT Hi. unfold row_sub.
  replace (map (fun k => sub (entry T i k) (mul zero (entry T r k))) (seq 0 m))
    with (nth i T []); [apply upd_nth_same|].
  apply nth_ext with (d := zero) (d' := zero).
  - now rewrite map_seq_length, (shape_row HT Hi).
  - intros k Hk. rewrite (shape_row HT Hi) in Hk.
    rewrite nth_map_seq by assumption.
    now rewrite mul_zero_l, sub_zero_r.
Qed.

(** A matrix that already has the pivots [p] written in it, and no entry
    certified nonzero in the other columns from row [len(p)] on, is returned
    as it is, with the same pivots. *)
Lemma REF_fixed_point (R : matrix B) (p : pivots) :
  wf_matrix R -> wf_pivots (nrows R) (ncols R) p ->
  (forall j pj, In (j, pj) p ->
     entry (rows R) pj j = one /\
     forall i, pj < i -> i < nrows R -> entry (rows R) i j = zero) ->
  (forall j l, j < ncols R -> mem_key j p = false ->
     length p <= l -> l < nrows R ->
     is_nonzero (entry (rows R) l j) = false) ->
  REF R false true p = Ok (RefOut R None (Some p)).
Proof.
  intros HR Hwf Hwritten Hrest.
  assert (Est : REF_state R p = (identity (nrows R), p)).
  { unfold REF_state.
    assert (E1 : fold_left (replay_col (rows R) (nrows R) (length p)) p
                           (identity (nrows R)) = identity (nrows R)).
    { apply fold_left_fixed.
      intros [j pj] Hin. destruct (wf_pivots_row j pj Hwf Hin) as [Hpj Hj].
      destruct (Hwritten j pj Hin) as [_ Hz].
      unfold replay_col. cbn [fst snd].
      apply fold_left_fixed. intros i Hi. apply in_seq in Hi.
      rewrite (identity_column j HR) by lia.
      rewrite Hz by lia.
      apply row_sub_zero; [apply shape_identity | lia]. }
    rewrite E1.
    apply fold_left_fixed. intros j Hj. apply in_seq in Hj.
    unfold ref_col. destruct (mem_key j p) eqn:Ek; [reflexivity|].
    rewrite find_pivot_None; [reflexivity|].
    intros l Hl. rewrite (identity_column j HR) by lia.
    apply Hrest; auto; lia. }
  unfold REF. rewrite (wf_pivots_valid Hwf). cbn [negb]. rewrite Est.
  f_equal. f_equal.
  destruct (@REF_R_spec _ _ R (identity (nrows R)) p
              (proj1 (shape_identity (nrows R))) Hwf) as [Hsh Hent].
  assert (Erows : rows (REF_R R (identity (nrows R)) p) = rows R).
  { apply (@rows_ext _ zero (nrows R) (ncols R)); auto.
    intros a b Ha Hb.
    change (entry (rows (REF_R R (identity (nrows R)) p)) a b = entry (rows R) a b).
    rewrite Hent, (matmul_identity HR).
    destruct (lookup b p) as [pj|] eqn:El; [|reflexivity].
    apply lookup_Some_In in El. destruct (Hwritten b pj El) as [Hone Hz].
    destruct (Nat.eqb_spec a pj) as [->|Hne]; [now symmetry|].
    destruct (Nat.ltb_spec pj a) as [Hlt|Hge]; cbn [andb]; [|reflexivity].
    replace (a <? nrows R) with true by (symmetry; apply Nat.ltb_lt; lia).
    symmetry. now apply Hz. }
  unfold REF_R in *. cbn [rows] in Erows. rewrite Erows. now destruct R.
Qed.

End ExactIdentity.

(** Idempotence of REF, where it holds.  With ball arithmetic in which the
    exact balls 0 and 1 lose nothing ([0 + x = x + 0 = x], [0 * x = 0],
    [1 * x = x], [x - 0 = x]), if REF returns [(R, p)] and no entry of [R]
    from row [len(p)] on, outside the pivot columns, is certified nonzero,
    then [REF(R, pivots=True, prec_pivots=p)] returns [(R, p)] again. *)
Theorem REF_idempotent_exact {B : Type} `{ExactUnits B} (mat : matrix B)
        (transformation : bool) (prec_pivots : pivots) (o : REF_out)
        (p : pivots) :
  wf_pivots (nrows mat) (ncols mat) prec_pivots ->
  REF mat transformation true prec_pivots = Ok o -> out_p o = Some p ->
  (forall j l, j < ncols mat -> mem_key j p = false ->
     length p <= l -> l < nrows mat ->
     is_nonzero (entry (rows (out_R o)) l j) = false) ->
  REF (out_R o) false true p = Ok (RefOut (out_R o) None (Some p)).
Proof.
  intros Hwf E Ep Hrest.
  apply REF_Ok in E as (_ & ER & Ep' & _).
  rewrite Ep in Ep'. injection Ep' as ->.
  destruct (REF_state_pivots mat Hwf) as [Hwf' _].
  destruct (@REF_R_spec _ _ mat (fst (REF_state mat prec_pivots))
              (snd (REF_state mat prec_pivots))
              (proj1 (REF_state_shape mat prec_pivots)) Hwf') as [Hsh Hent].
  rewrite <- ER in Hsh, Hent.
  assert (Hnr : nrows (out_R o) = nrows mat) by (now rewrite ER).
  assert (Hnc : ncols (out_R o) = ncols mat) by (now rewrite ER).
  apply REF_fixed_point.
  - unfold wf_matrix. now rewrite Hnr, Hnc.
  - now rewrite Hnr, Hnc.
  - intros j pj Hin. rewrite Hnr.
    assert (El : lookup j (snd (REF_state mat prec_pivots)) = Some pj)
      by (apply lookup_In; [exact (proj1 (proj2 Hwf')) | assumption]).
    split.
    + rewrite Hent, El. now rewrite Nat.eqb_refl.
    + intros i Hi Him. rewrite Hent, El.
      replace (Nat.eqb i pj) with false by (symmetry; apply Nat.eqb_neq; lia).
      replace (pj <? i) with true by (symmetry; apply Nat.ltb_lt; lia).
      now replace (i <? nrows mat) with true by (symmetry; apply Nat.ltb_lt; lia).
  - intros j l Hj Hk Hl Hlm. rewrite Hnc in Hj. rewrite Hnr in Hlm. auto.
Qed.

Lemma REF_idempotent_exact_witness :
  exists o,
    REF Exact.sample false true [] = Ok o /\
    REF (out_R o) false true [(0, 0); (1, 1)] =
    Ok (RefOut (out_R o) None (Some [(0, 0); (1, 1)])).
Proof.
  destruct (REF Exact.sample false true []) as [o|e] eqn:E;
    [|vm_compute in E; discriminate].
  exists o. split; [reflexivity|].
  assert (Ep : out_p o = Some [(0, 0); (1, 1)])
    by (vm_compute in E; now injection E as <-).
  apply (@REF_idempotent_exact Qc _ _ Exact.sample false [] o [(0, 0); (1, 1)]
           (wf_pivots_nil _ _) E Ep).
  intros j l Hj Hk Hl Hlm. cbn in Hj, Hl, Hlm.
  assert (l = 2) by lia. subst l.
  destruct j as [|[|[|j]]]; try discriminate Hk; [|lia].
  vm_compute in E. injection E as <-. reflexivity.
Defined.

(* ================================================================== *)
(** ** The exceptions of orbit and generated_algebra *)

Section Exceptions.
Context {B : Type} `{Ball B}.

Lemma REF_Raise (mat : matrix B) (tr pv : bool) (pp : pivots) (e : exn) :
  wf_pivots (nrows mat) (ncols mat) pp ->
  REF mat tr pv pp = Raise e -> e = PrecisionError /\ tr = true.
Proof.
  intros Hwf. unfold REF. rewrite (wf_pivots_valid Hwf). cbn [negb].
  destruct (REF_state mat pp) as [T p]. destruct tr; [|discriminate].
  destruct (contains_zero (det T)); [|discriminate].
  now intros [= <-].
Qed.

Lemma flat_map_nil_inv {X Y : Type} (f : X -> list Y) (l : list X) :
  (forall x, f x <> []) -> flat_map f l = [] -> l = [].
Proof.
  intros Hf. destruct l as [|x l]; [reflexivity|]. cbn [flat_map].
  intros E. apply app_eq_nil in E as [E _]. now apply Hf in E.
Qed.

Lemma stack_Raise (k : nat) (b l : list (list B)) (e : exn) :
  stack k b l = Raise e -> e = TypeError /\ l = [].
Proof.
  unfold stack. destruct l; [|discriminate].
  destruct (Nat.eqb k 0); [discriminate|]. now intros [= <-].
Qed.

Lemma orbit_body_Raise (Mats : list (matrix B)) (n : nat) (tr : bool)
      (st : orbit_state) (e : exn) :
  orbit_ok n tr st -> 0 < length (onew st) ->
  orbit_body Mats n tr st = Raise e ->
  (e = PrecisionError /\ tr = true) \/ (e = TypeError /\ Mats = []).
Proof.
  intros (Hr & _ & Hlb & Hln & Hwf & _) Hnew E. unfold orbit_body in E.
  destruct (stack n (ob st) _) as [b1|e1] eqn:Es.
  - left. assert (Hle := stack_length _ _ _ Es).
    destruct (REF (Mat (length b1) n b1) tr true (op st)) as [o|e2] eqn:ER;
      [discriminate|].
    injection E as <-.
    apply (@REF_Raise (Mat (length b1) n b1) tr true (op st) e2); auto.
    cbn [nrows ncols].
    apply wf_pivots_more_rows with (m := length (ob st)); auto.
  - right. injection E as <-. apply stack_Raise in Es as [-> El].
    split; [reflexivity|].
    apply flat_map_nil_inv in El; auto.
    intros mat Em. apply (f_equal (@length _)) in Em.
    rewrite length_map in Em. cbn [length] in Em. lia.
Qed.

Lemma orbit_loop_Raise (Mats : list (matrix B)) (n : nat) (tr : bool)
      (fuel : nat) (st : orbit_state) (e : exn) :
  orbit_ok n tr st ->
  orbit_loop fuel Mats n tr st = Some (Raise e) ->
  (e = PrecisionError /\ tr = true) \/ (e = TypeError /\ Mats = []).
Proof.
  revert st. induction fuel as [|fuel IH]; intros st Hok E;
    cbn [orbit_loop] in E;
    destruct (Nat.ltb_spec 0 (length (onew st))) as [Hn|Hn]; cbn [andb negb] in E;
    try discriminate;
    destruct (Nat.ltb (orank st) n); cbn [negb] in E; try discriminate.
  destruct (orbit_body Mats n tr st) as [st1|e1] eqn:Eb.
  - destruct (@orbit_body_ok _ _ Mats n tr st st1 Hok Eb) as (Hok1 & _).
    now apply (IH st1).
  - injection E as <-. now apply (@orbit_body_Raise Mats n tr st e1).
Qed.

Lemma algebra_body_Ok (n : nat) (st : algebra_state) :
  algebra_ok n st -> 0 < length (anew st) ->
  Forall (fun j => j < arank st) (anew st) ->
  exists st', algebra_body n st = Ok st'.
Proof.
  intros (Hr & Hlb & Hln & Hwf & _) Hnew Hlt. unfold algebra_body.
  destruct (stack (n * n) (ab st) _) as [b1|e1] eqn:Es.
  - assert (Hle := stack_length _ _ _ Es).
    destruct (REF (Mat (length b1) (n * n) b1) false true (ap st))
      as [o|e2] eqn:ER; [now eexists|].
    apply REF_Raise in ER as [_ ?]; [discriminate|].
    cbn [nrows ncols].
    apply wf_pivots_more_rows with (m := length (ab st)); auto.
  - exfalso. apply stack_Raise in Es as [_ El].
    assert (Hpos : 0 < arank st).
    { destruct (anew st) as [|j l]; [cbn in Hnew; lia|].
      apply Forall_inv in Hlt. lia. }
    apply flat_map_nil_inv in El.
    + apply (f_equal (@length _)) in El. rewrite length_seq in El.
      cbn [length] in El. lia.
    + intros i Em. apply (f_equal (@length _)) in Em.
      rewrite length_map in Em. cbn [length] in Em. lia.
Qed.

Lemma algebra_loop_Ok (n fuel : nat) (st : algebra_state) :
  algebra_ok n st -> Forall (fun j => j < arank st) (anew st) ->
  (0 < length (anew st) -> n * n + 1 <= fuel + arank st) ->
  exists st', algebra_loop fuel n st = Some (Ok st') /\ algebra_ok n st'.
Proof.
  revert st; induction fuel as [|fuel IH]; intros st Hok Hlt Hm;
    cbn [algebra_loop];
    destruct (Nat.ltb_spec 0 (length (anew st))) as [Hn|Hn]; cbn [andb negb];
    try (now exists st);
    destruct (Nat.ltb_spec (arank st) (n * n)) as [Hr|Hr]; cbn [negb];
    try (now exists st).
  - specialize (Hm Hn). lia.
  - destruct (algebra_body_Ok Hok Hn Hlt) as (st1 & Eb). rewrite Eb.
    destruct (@algebra_body_ok _ _ n st st1 Hok Eb) as (Hok1 & Hle & Hnew).
    apply IH; auto.
    + rewrite Hnew. apply Forall_forall. intros i Hi. apply in_seq in Hi. lia.
    + rewrite Hnew, length_seq. specialize (Hm Hn). lia.
Qed.

End Exceptions.

(** The exceptions of [orbit], for [n] by [n] matrices with [n = len(vec)]:
    PrecisionError, which only the first call of REF (line 235) can raise
    when [transition] is not set, and TypeError, raised at line 245 when
    [Mats] is empty since nothing can be stacked under [b]. *)
Theorem orbit_raises {B : Type} `{Ball B} (Mats : list (matrix B))
        (vec : list B) (transition : bool) (e : exn) :
  Forall (fun M => shape (length vec) (length vec) (rows M)) Mats ->
  orbit Mats vec transition = Some (Raise e) ->
  (e = PrecisionError /\
   (transition = false ->
    REF (Mat 1 (length vec) [vec]) true true [] = Raise PrecisionError)) \/
  (e = TypeError /\ Mats = []).
Proof.
  intros _ E. unfold orbit in E.
  destruct (REF (Mat 1 (length vec) [vec]) true true []) as [o|e0] eqn:ER.
  - destruct (Nat.eqb_spec (length (pivots_of o)) 0) as [E0|E0]; [discriminate|].
    destruct (@REF_echelon_step _ _ (length vec) [vec] true [] o
                (wf_pivots_nil _ _) ER)
      as (_ & Hlb & Hle1 & Hlen & Hwf & Hwr & Hall & _).
    cbn [length] in Hle1.
    assert (Hone : length (pivots_of o) = 1) by lia.
    assert (HlR : length (rows (out_R o)) = 1).
    { apply REF_Ok in ER as (_ & HR & _).
      assert (Hsh := REF_state_shape (Mat 1 (length vec) [vec]) []).
      destruct (REF_state_pivots (Mat 1 (length vec) [vec])
                  (wf_pivots_nil 1 (length vec))) as [Hwf0 _].
      destruct (REF_R_spec (Mat 1 (length vec) [vec]) _ (proj1 Hsh) Hwf0)
        as [[HlR _] _].
      rewrite HR. exact HlR. }
    assert (Efn : firstn (length (pivots_of o)) (rows (out_R o)) = rows (out_R o))
      by (rewrite Hone, <- HlR; apply firstn_all).
    rewrite Efn in *.
    destruct (orbit_loop _ _ _ _ _) as [[st|e1]|] eqn:EL; try discriminate.
    injection E as <-.
    apply orbit_loop_Raise in EL.
    + destruct EL as [[-> ->]|[-> ->]]; [left | right; auto].
      split; [reflexivity | discriminate].
    + unfold orbit_ok; cbn [ob oT op orank onew].
      split; [lia|]. split; [lia|]. split; [lia|]. split; [exact Hlen|].
      split; [exact Hwf|]. split; [exact Hwr|]. split; [exact Hall|].
      now intros ->.
  - injection E as <-. left.
    apply REF_Raise in ER as [-> _]; [|apply wf_pivots_nil]. auto.
Qed.

Lemma orbit_raises_witness :
  orbit [] [MidRad.point 1; MidRad.point 0] false = Some (Raise TypeError).
Proof.
  destruct (orbit [] [MidRad.point 1; MidRad.point 0] false)
    as [[r|e]|] eqn:E; try (vm_compute in E; discriminate).
  destruct (@orbit_raises _ _ [] [MidRad.point 1; MidRad.point 0] false e
              (Forall_nil _) E) as [[-> Hp]|[-> _]]; [|reflexivity].
  specialize (Hp eq_refl). vm_compute in Hp. discriminate.
Defined.

(** [generated_algebra] on a list, not empty, of [n] by [n] matrices always
    returns: REF is called without [transformation], so that PrecisionError
    is never raised, and the rows stacked at line 319 are never missing. *)
Theorem generated_algebra_returns {B : Type} `{Ball B}
        (Mats : list (matrix B)) (n : nat) :
  Mats <> [] ->
  Forall (fun M => nrows M = n /\ shape n n (rows M)) Mats ->
  exists b, generated_algebra Mats = Some (Ok b).
Proof.
  intros Hne _. destruct Mats as [|mat Mats']; [contradiction|].
  unfold generated_algebra, generated_algebra_fuel.
  set (k := nrows mat). set (L := mat :: Mats').
  set (b0 := map (fun M => flatten (rows M)) L).
  replace (length L) with (length b0) by (unfold b0; apply length_map).
  destruct (REF (Mat (length b0) (k * k) b0) false true []) as [o|e] eqn:ER.
  2:{ apply REF_Raise in ER as [_ ?]; [discriminate | apply wf_pivots_nil]. }
  destruct (@REF_echelon_step _ _ (k * k) b0 false [] o (wf_pivots_nil _ _) ER)
    as (_ & Hlb & Hle1 & Hlen & Hwf & Hwr & Hall & _).
  set (st0 := AlgebraState (firstn (length (pivots_of o)) (rows (out_R o)))
                (pivots_of o) (length (pivots_of o))
                (seq 0 (length (pivots_of o)))).
  assert (Hok : algebra_ok k st0).
  { unfold algebra_ok, st0; cbn [ab ap arank anew].
    split; [reflexivity|]. split; [exact Hlb|]. split; [exact Hlen|].
    split; [exact Hwf|]. split; [exact Hwr|exact Hall]. }
  destruct (@algebra_loop_Ok _ _ k (k * k) st0 Hok) as (st & E & _).
  - unfold st0; cbn [arank anew]. apply Forall_forall. intros j Hj.
    apply in_seq in Hj. lia.
  - unfold st0; cbn [anew arank]. rewrite length_seq. lia.
  - rewrite E. now eexists.
Qed.

Lemma generated_algebra_returns_witness :
  exists b, generated_algebra [MidRad.late] = Some (Ok b).
Proof.
  apply (@generated_algebra_returns _ _ [MidRad.late] 3).
  - discriminate.
  - repeat constructor.
Defined.

(* ================================================================== *)
(** ** The choice of the pivot *)

Section PivotChoice.
Context {B : Type} `{Ball B}.

Lemma argmax_fold (key : nat -> Q) (cs seen : list nat) (best : nat) :
  In best seen ->
  (forall l, In l seen ->
     (key l <= key best)%Q /\ (l < best -> ~ (key best <= key l)%Q)) ->
  (forall x y, In x seen -> In y cs -> x < y) ->
  StronglySorted lt cs ->
  let res := fold_left
               (fun best l => if Qle_bool (key l) (key best) then best else l)
               cs best in
  In res (seen ++ cs) /\
  forall l, In l (seen ++ cs) ->
    (key l <= key res)%Q /\ (l < res -> ~ (key res <= key l)%Q).
Proof.
  revert seen best. induction cs as [|c cs IH]; intros seen best Hin Hbest Hlt Hs.
  - cbn [fold_left]. rewrite app_nil_r. auto.
  - cbn [fold_left]. apply StronglySorted_inv in Hs as [Hs Hc].
    rewrite Forall_forall in Hc.
    replace (seen ++ c :: cs) with ((seen ++ [c]) ++ cs)
      by (now rewrite <- app_assoc).
    destruct (Qle_bool (key c) (key best)) eqn:Ek.
    + apply Qle_bool_iff in Ek. apply IH; auto.
      * apply in_or_app. now left.
      * intros l Hl. apply in_app_or in Hl as [Hl|[<-|[]]]; auto.
        split; [assumption|]. intros Hcb.
        assert (best < c) by (apply Hlt; [assumption | now left]). lia.
      * intros x y Hx Hy. apply in_app_or in Hx as [Hx|[<-|[]]].
        -- apply Hlt; [assumption | now right].
        -- now apply Hc.
    + assert (Hgt : (key best < key c)%Q).
      { apply Qnot_le_lt. intros Hle. apply Qle_bool_iff in Hle. congruence. }
      apply IH; auto.
      * apply in_or_app. right. now left.
      * intros l Hl. apply in_app_or in Hl as [Hl|[<-|[]]].
        -- destruct (Hbest l Hl) as [Hle _].
           assert (Hl' : (key l < key c)%Q) by (eapply Qle_lt_trans; eauto).
           split; [now apply Qlt_le_weak | intros _; now apply Qlt_not_le].
        -- split; [apply Qle_refl | lia].
      * intros x y Hx Hy. apply in_app_or in Hx as [Hx|[<-|[]]].
        -- apply Hlt; [assumption | now right].
        -- now apply Hc.
Qed.

Lemma filter_seq_sorted (f : nat -> bool) (r k : nat) :
  StronglySorted lt (filter f (seq r k)).
Proof.
  revert r. induction k as [|k IH]; intros r; cbn [seq filter]; [constructor|].
  destruct (f r); [|apply IH]. constructor; [apply IH|].
  apply Forall_forall. intros y Hy. apply filter_In in Hy as [Hy _].
  apply in_seq in Hy. lia.
Qed.

End PivotChoice.

(** Lines 137-138 of REF: the row chosen for the pivot is, among the rows
    from [r] on whose entry in the column is certified nonzero, the first of
    those with the largest lower bound of the absolute value; no row is
    chosen exactly when no entry is certified nonzero. *)
Theorem find_pivot_spec {B : Type} `{Ball B} (r m : nat) (col : list B) :
  match find_pivot r m col with
  | None => forall l, r <= l < m -> is_nonzero (nth l col zero) = false
  | Some i =>
      r <= i < m /\ is_nonzero (nth i col zero) = true /\
      forall l, r <= l < m -> is_nonzero (nth l col zero) = true ->
        (below_abs (nth l col zero) <= below_abs (nth i col zero))%Q /\
        (l < i ->
         ~ (below_abs (nth i col zero) <= below_abs (nth l col zero))%Q)
  end.
Proof.
  unfold find_pivot, argmax_first.
  set (f := fun l => is_nonzero (nth l col zero)).
  set (key := fun l => below_abs (nth l col zero)).
  assert (Hs := filter_seq_sorted f r (m - r)).
  assert (Hmem : forall l, In l (filter f (seq r (m - r))) <->
                           r <= l < m /\ f l = true).
  { intros l. rewrite filter_In, in_seq. split; intros [? ?]; split; auto; lia. }
  destruct (filter f (seq r (m - r))) as [|c cs] eqn:Ef.
  - intros l Hl. change (f l = false). destruct (f l) eqn:El; [|reflexivity].
    exfalso. now apply (proj2 (Hmem l) (conj Hl El)).
  - apply StronglySorted_inv in Hs as [Hs Hc]. rewrite Forall_forall in Hc.
    destruct (@argmax_fold key cs [c] c (or_introl eq_refl)) as [Hin Hmax]; auto.
    + intros l [<-|[]]. split; [apply Qle_refl | lia].
    + intros x y [<-|[]] Hy. now apply Hc.
    + cbn [app] in Hin, Hmax.
      destruct (proj1 (Hmem _) Hin) as [Hi Hfi].
      split; [exact Hi|]. split; [exact Hfi|].
      intros l Hl Hfl. apply Hmax. now apply Hmem.
Qed.

(* ================================================================== *)
(** ** The staircase of the pivots *)

Section Staircase.
Context {B : Type} `{Ball B}.

(** The keys of [p] are below [a], and they grow with the rows. *)
Definition staircase (a : nat) (p : pivots) : Prop :=
  (forall j r, In (j, r) p -> j < a) /\
  (forall j1 r1 j2 r2, In (j1, r1) p -> In (j2, r2) p -> r1 < r2 -> j1 < j2).

Lemma ref_col_staircase (M : list (list B)) (m n : nat) (T : list (list B))
      (p : pivots) (a : nat) :
  wf_pivots m n p -> staircase a p ->
  staircase (Datatypes.S a) (snd (ref_col M m (T, p) a)).
Proof.
  intros Hwf [Hkeys Hmono]. unfold ref_col.
  assert (Hsame : staircase (Datatypes.S a) p).
  { split; [|exact Hmono]. intros j r Hin. specialize (Hkeys j r Hin). lia. }
  destruct (mem_key a p); [exact Hsame|].
  destruct (find_pivot _ _ _) as [i|]; [|exact Hsame].
  cbn [snd]. split.
  - intros j r Hin. apply in_app_or in Hin as [Hin|[[= <- <-]|[]]]; [|lia].
    specialize (Hkeys j r Hin). lia.
  - intros j1 r1 j2 r2 H1 H2 Hr.
    apply in_app_or in H1 as [H1|[[= <- <-]|[]]];
      apply in_app_or in H2 as [H2|[[= <- <-]|[]]].
    + now apply (Hmono j1 r1 j2 r2).
    + now apply (Hkeys j1 r1).
    + destruct (wf_pivots_row j2 r2 Hwf H2) as [Hr2 _]. lia.
    + lia.
Qed.

Lemma fold_ref_col_staircase (M : list (list B)) (m n : nat) (k a : nat)
      (T : list (list B)) (p : pivots) :
  a + k <= n -> wf_pivots m n p -> staircase a p ->
  staircase (a + k) (snd (fold_left (ref_col M m) (seq a k) (T, p))).
Proof.
  revert a T p. induction k as [|k IH]; intros a T p Hak Hwf Hst.
  - cbn [seq fold_left snd]. now rewrite Nat.add_0_r.
  - cbn [seq fold_left].
    destruct (ref_col M m (T, p) a) as [T1 p1] eqn:E1.
    replace (a + Datatypes.S k) with (Datatypes.S a + k) by lia.
    apply IH; [lia| |].
    + replace p1 with (snd (ref_col M m (T, p) a)) by (now rewrite E1).
      apply (ref_col_pivots M T Hwf). lia.
    + replace p1 with (snd (ref_col M m (T, p) a)) by (now rewrite E1).
      now apply ref_col_staircase with (n := n).
Qed.

End Staircase.

(** REF without [prec_pivots]: the pivot columns grow with the pivot rows,
    as the columns are visited from left to right and each new pivot takes
    the next row. *)
Theorem REF_pivot_staircase {B : Type} `{Ball B} (mat : matrix B)
        (transformation : bool) (o : REF_out) (p : pivots) :
  REF mat transformation true [] = Ok o -> out_p o = Some p ->
  forall j1 r1 j2 r2, In (j1, r1) p -> In (j2, r2) p -> r1 < r2 -> j1 < j2.
Proof.
  intros E Ep. apply REF_Ok in E as (_ & _ & Ep' & _).
  rewrite Ep in Ep'. injection Ep' as ->.
  unfold REF_state. cbn [length fold_left].
  apply (@fold_ref_col_staircase _ _ (rows mat) (nrows mat) (ncols mat)
           (ncols mat) 0 (identity (nrows mat)) []).
  - lia.
  - apply wf_pivots_nil.
  - split; [intros j r [] | intros j1 r1 j2 r2 []].
Qed.

Lemma REF_pivot_staircase_witness :
  exists o p, REF MidRad.late false true [] = Ok o /\ out_p o = Some p /\
    forall j1 r1 j2 r2, In (j1, r1) p -> In (j2, r2) p -> r1 < r2 -> j1 < j2.
Proof.
  destruct (REF MidRad.late false true []) as [o|e] eqn:E;
    [|vm_compute in E; discriminate].
  destruct (out_p o) as [p|] eqn:Ep;
    [|vm_compute in E; injection E as <-; discriminate].
  exists o, p. split; [reflexivity|]. split; [exact Ep|].
  exact (@REF_pivot_staircase _ _ MidRad.late false o p E Ep).
Defined.

(* ================================================================== *)
(** ** The smallest invariant subspace *)

(** [V] is a subspace of the vectors of size [n], invariant under the
    matrices [Ms]. *)
Definition stable_subspace {F : Type} `{Arith F} (n : nat)
           (Ms : list (list (list F))) (V : list F -> Prop) : Prop :=
  V (vec_zero n) /\
  (forall u v, length u = n -> length v = n -> V u -> V v -> V (vec_add u v)) /\
  (forall c v, length v = n -> V v -> V (vec_scale c v)) /\
  (forall M v, In M Ms -> length v = n -> V v -> V (mulmv M v)).

Section InvariantHull.
Context {F : Type} `{Field F}.

Add Field true_values_hull : field_laws.

Variable n : nat.
Variable Ms : list (list (list F)).
Hypothesis HMs : Forall (shape n n) Ms.

Lemma polynomial_shape (X : list (list F)) :
  polynomial_in n Ms X -> shape n n X.
Proof.
  induction 1 as [|s|M HM|X Y _ IHX _ IHY|s X _ IHX|X Y _ IHX _ IHY].
  - apply shape_mat_zero.
  - apply shape_mat_scale, shape_identity.
  - rewrite Forall_forall in HMs. now apply HMs.
  - now apply shape_mat_add.
  - now apply shape_mat_scale.
  - apply shape_matmul_rows. exact (proj1 IHX).
Qed.

Lemma mulmv_size (X : list (list F)) (w : list F) :
  shape n n X -> length (mulmv X w) = n.
Proof. intros HX. rewrite mulmv_length. exact (proj1 HX). Qed.

Lemma mulmv_mat_zero (w : list F) :
  length w = n -> mulmv (mat_zero n) w = vec_zero n.
Proof.
  intros Hw. apply nth_ext with (d := zero) (d' := zero).
  - rewrite (@mulmv_size _ w (shape_mat_zero n)). unfold vec_zero.
    now rewrite repeat_length.
  - intros a Ha. rewrite (@mulmv_size _ w (shape_mat_zero n)) in Ha.
    rewrite (@nth_mulmv_shape _ _ n n _ w a (shape_mat_zero n) Hw Ha).
    rewrite nth_vec_zero.
    rewrite (@sumn_ext _ _ _ (fun _ => zero) n); [apply sumn_zero|].
    intros k Hk. rewrite entry_mat_zero by assumption. ring.
Qed.

Lemma mulmv_mat_scale (s : F) (X : list (list F)) (w : list F) :
  shape n n X -> length w = n ->
  mulmv (mat_scale s X) w = vec_scale s (mulmv X w).
Proof.
  intros HX Hw. assert (HsX := shape_mat_scale s HX).
  apply nth_ext with (d := zero) (d' := zero).
  - unfold vec_scale. now rewrite length_map, !mulmv_size.
  - intros a Ha. rewrite (@mulmv_size _ w HsX) in Ha.
    rewrite (@nth_mulmv_shape _ _ n n _ w a HsX Hw Ha).
    rewrite nth_vec_scale by (now rewrite mulmv_size).
    rewrite (@nth_mulmv_shape _ _ n n _ w a HX Hw Ha).
    rewrite <- sumn_scale. apply sumn_ext. intros k Hk.
    rewrite (@entry_mat_scale _ _ n n s X a k HX Ha Hk). ring.
Qed.

Lemma mulmv_mat_add (X Y : list (list F)) (w : list F) :
  shape n n X -> shape n n Y -> length w = n ->
  mulmv (mat_add X Y) w = vec_add (mulmv X w) (mulmv Y w).
Proof.
  intros HX HY Hw. assert (HXY := shape_mat_add HX HY).
  apply nth_ext with (d := zero) (d' := zero).
  - rewrite vec_add_length by (now rewrite !mulmv_size).
    now rewrite !mulmv_size.
  - intros a Ha. rewrite (@mulmv_size _ w HXY) in Ha.
    rewrite (@nth_mulmv_shape _ _ n n _ w a HXY Hw Ha).
    rewrite nth_vec_add by (rewrite !mulmv_size; auto).
    rewrite (@nth_mulmv_shape _ _ n n _ w a HX Hw Ha).
    rewrite (@nth_mulmv_shape _ _ n n _ w a HY Hw Ha).
    rewrite <- sumn_add. apply sumn_ext. intros k Hk.
    rewrite (@entry_mat_add _ _ n n X Y a k HX HY Ha Hk). ring.
Qed.

Lemma mulmv_scalar (s : F) (w : list F) :
  length w = n -> mulmv (mat_scale s (identity n)) w = vec_scale s w.
Proof.
  intros Hw.
  assert (Hsh : shape n n (mat_scale s (identity (A := F) n)))
    by (apply shape_mat_scale, shape_identity).
  apply nth_ext with (d := zero) (d' := zero).
  - unfold vec_scale. now rewrite length_map, (@mulmv_size _ w Hsh).
  - intros a Ha. rewrite (@mulmv_size _ w Hsh) in Ha.
    rewrite (@nth_mulmv_scalar _ _ n s w a Hw Ha).
    now rewrite nth_vec_scale by lia.
Qed.

(** A polynomial in the matrices maps an invariant subspace into itself. *)
Lemma polynomial_stable (V : list F -> Prop) (X : list (list F)) :
  stable_subspace n Ms V -> polynomial_in n Ms X ->
  forall w, length w = n -> V w -> V (mulmv X w).
Proof.
  intros (Hz & Hadd & Hsc & Hst).
  induction 1 as [|s|M HM|X Y HX IHX HY IHY|s X HX IHX|X Y HX IHX HY IHY];
    intros w Hw HV.
  - now rewrite mulmv_mat_zero.
  - rewrite mulmv_scalar by assumption. now apply Hsc.
  - now apply Hst.
  - rewrite mulmv_mat_add; auto using polynomial_shape.
    apply Hadd; auto; apply mulmv_size; now apply polynomial_shape.
  - rewrite mulmv_mat_scale; auto using polynomial_shape.
    apply Hsc; auto. apply mulmv_size. now apply polynomial_shape.
  - rewrite mulmv_matmul; auto using polynomial_shape.
    apply IHX; auto. apply mulmv_size. now apply polynomial_shape.
Qed.

End InvariantHull.

(** The docstring of [orbit], point i): whatever true matrices the balls of
    [Mats] contain and whatever true vector [vec] contains, a basis returned
    by [orbit] contains true vectors that lie in every subspace containing
    the true seed and invariant under the true matrices, hence in the
    smallest one. *)
Theorem orbit_in_invariant_hull {B F : Type} `{Enclosure B F}
        (Mats : list (matrix B)) (tMats : list (list (list F)))
        (vec : list B) (tvec : list F) (transition : bool)
        (b : list (list B)) (Ts : option (list (list (list B)))) :
  Forall2 (fun M tM => encloses (length vec) (length vec) (rows M) tM)
          Mats tMats ->
  contains_vec vec tvec ->
  orbit Mats vec transition = Some (Ok (b, Ts)) ->
  exists tb : list (list F),
    contains_rows b tb /\
    forall V : list F -> Prop,
      stable_subspace (length vec) tMats V -> V tvec -> Forall V tb.
Proof.
  intros HM Hv E.
  assert (Hlv : length tvec = length vec)
    by (symmetry; eapply Forall2_length; eauto).
  assert (HMs : Forall (shape (length vec) (length vec)) tMats).
  { apply Forall_forall. intros tM Hin.
    destruct (@Forall2_In_r _ _ _ _ _ _ HM Hin) as (M & _ & _ & HtM & _).
    exact HtM. }
  destruct (orbit_result_true transition HM Hv E)
    as [->|(st & tb & tT & -> & _ & Hb & _ & Hreal & _)].
  - exists []. split; constructor.
  - exists tb. split; [now apply (encloses_rows Hb)|].
    intros V HV Hseed. clear Hb.
    induction Hreal as [|v X tb' tT' (Ev & _ & Hp) _ IH]; constructor; auto.
    rewrite Ev. now apply (@polynomial_stable _ _ (length vec) tMats HMs V X).
Qed.

Lemma orbit_in_invariant_hull_witness :
  exists b Ts (tb : list (list Qc)),
    orbit [MidRad.late] [MidRad.point 1; MidRad.point 0; MidRad.point 0] false =
    Some (Ok (b, Ts)) /\
    contains_rows b tb /\
    forall V : list Qc -> Prop,
      stable_subspace 3 [rows MidRad.late_true] V ->
      V [Q2Qc 1; Q2Qc 0; Q2Qc 0] -> Forall V tb.
Proof.
  destruct (orbit [MidRad.late] [MidRad.point 1; MidRad.point 0; MidRad.point 0]
                  false) as [[[b Ts]|e]|] eqn:E;
    try (vm_compute in E; discriminate).
  assert (HM : Forall2 (fun M tM => encloses 3 3 (rows M) tM)
                       [MidRad.late] [rows MidRad.late_true]).
  { constructor; [|constructor]. apply rows_encloses.
    - repeat constructor.
    - repeat constructor; apply Qle_bool_iff; reflexivity. }
  assert (Hv : contains_vec [MidRad.point 1; MidRad.point 0; MidRad.point 0]
                            [Q2Qc 1; Q2Qc 0; Q2Qc 0])
    by (repeat constructor; apply Qle_bool_iff; reflexivity).
  destruct (@orbit_in_invariant_hull _ _ _ _ _ [MidRad.late]
              [rows MidRad.late_true]
              [MidRad.point 1; MidRad.point 0; MidRad.point 0]
              [Q2Qc 1; Q2Qc 0; Q2Qc 0] false b Ts HM Hv E) as (tb & Hb & Hhull).
  exists b, Ts, tb. auto.
Defined.
